(** * range_lock: byte-range locking over fixed-size regions

    A shallow embedding of [range_lock.hh].  Unsigned 64-bit values are
    integers in [0, 2^64) with the wrap-around written out; the region
    table is a finite map from region id to a region (reference count and
    mutex state); every member function is a state transformer over the
    table that either returns, or halts (failed assertion, undefined
    behaviour, blocked on a mutex, exception thrown by a caller-supplied
    operation). *)

From Stdlib Require Import ZArith Lia List Bool Sorted.
From Stdlib Require Import PrimFloat SpecFloat FloatOps.
From stdpp Require Import base gmap list.

Local Open Scope Z_scope.

(** ** Machine arithmetic *)

Module U64.

Definition modulus : Z := 2 ^ 64.
Definition max : Z := 2 ^ 64 - 1.

(** A value of type [uint64_t]. *)
Definition is_u64 (x : Z) : Prop := 0 <= x < modulus.

Definition add (a b : Z) : Z := (a + b) mod modulus.
Definition sub (a b : Z) : Z := (a - b) mod modulus.
Definition mul (a b : Z) : Z := (a * b) mod modulus.
(** [~a] on 64 bits. *)
Definition lnot (a : Z) : Z := Z.lxor a max.

End U64.

(** Largest value of the loop counter, which [auto i = 0] makes an [int]. *)
Definition INT_MAX : Z := 2 ^ 31 - 1.

(** ** Outcomes of a call *)

(** Which [assert] failed. *)
Inductive assertion : Type :=
  | InvalidRange        (* validate_parameters *)
  | BadAlignment        (* do_for_each_region *)
  | RegionNotHeld       (* get_locked_region, unlock_region *)
  | BadRegionSize.      (* the constructor *)

(** Which undefined behaviour of the language or its library was reached. *)
Inductive undefined : Type :=
  | MutexMisuse         (* locking a mutex the thread owns, unlocking one it does not *)
  | DanglingRegion      (* a region reference used after the entry was erased *)
  | CounterOverflow     (* i++ on an int holding INT_MAX *)
  | BadConversion.      (* a double converted to a uint64_t it does not fit *)

(** Why a call did not return to its caller. *)
Inductive halt : Type :=
  | Abort (a : assertion)   (* a failed assertion terminates the process *)
  | Undefined (u : undefined)
  | Waiting (id : Z)        (* blocked in the mutex of region id *)
  | Thrown.                 (* an exception leaves the call *)

Inductive res (S A : Type) : Type :=
  | Ok (a : A) (s : S)
  | Halt (h : halt) (s : S).
Arguments Ok {S A} a s.
Arguments Halt {S A} h s.

(** Computations over a state [S]. *)
Definition M (S A : Type) : Type := S -> res S A.

Definition ret {S A} (a : A) : M S A := fun s => Ok a s.

Definition bind {S A B} (m : M S A) (k : A -> M S B) : M S B :=
  fun s => match m s with
           | Ok a s' => k a s'
           | Halt h s' => Halt h s'
           end.

Definition assert {S} (a : assertion) (b : bool) : M S unit :=
  fun s => if b then Ok tt s else Halt (Abort a) s.

(** An operation whose behaviour is defined only when [b] holds. *)
Definition defined {S} (u : undefined) (b : bool) : M S unit :=
  fun s => if b then Ok tt s else Halt (Undefined u) s.

Declare Scope m_scope.
Delimit Scope m_scope with M.
Notation "'let*' x ':=' m 'in' k" := (bind m (fun x => k))
  (at level 10, x name, m at level 100, k at level 200) : m_scope.
Notation "m ';;' k" := (bind m (fun _ => k))
  (at level 100, k at level 200, right associativity) : m_scope.
Local Open Scope m_scope.

(** The state a halted or finished call leaves behind. *)
Definition final_state {S A} (r : res S A) : S :=
  match r with Ok _ s => s | Halt _ s => s end.

(** ** Region iteration *)

Inductive stop_iteration : Type := no | yes.

Section Iteration.

Variable _region_size : Z.

Definition get_region_id (offset : Z) : Z := offset / _region_size.

(** [assert_alignment] inside do_for_each_region. *)
Definition aligned (v alignment : Z) : bool :=
  Z.land v (alignment - 1) =? 0.

(** The [for] loop of do_for_each_region, started at counter [i].  [fuel]
    bounds the number of iterations still to run; the loop is entered
    with [fuel = regions]. *)
Fixpoint region_loop {S} (offset regions : Z)
    (f : Z -> M S stop_iteration) (fuel : nat) (i : Z) : M S unit :=
  match fuel with
  | O => ret tt
  | Datatypes.S fuel' =>
      if i <? regions then
        let current_offset := U64.add offset (U64.mul i _region_size) in
        let* stop := f (get_region_id current_offset) in
        match stop with
        | yes => ret tt
        | no =>
            defined CounterOverflow (negb (i =? INT_MAX)) ;;
            region_loop offset regions f fuel' (i + 1)
        end
      else ret tt
  end.

Definition do_for_each_region {S} (offset length : Z)
    (f : Z -> M S stop_iteration) : M S unit :=
  assert BadAlignment (aligned offset _region_size) ;;
  assert BadAlignment (aligned length _region_size) ;;
  let regions := length / _region_size in
  assert BadAlignment (length mod _region_size =? 0) ;;
  region_loop offset regions f (Z.to_nat regions) 0.

Definition for_each_region {S} (offset length : Z)
    (f : Z -> M S stop_iteration) : M S unit :=
  let aligned_down_offset := Z.land offset (U64.lnot (_region_size - 1)) in
  let aligned_up_length :=
    Z.land (U64.sub (U64.add length _region_size) 1)
           (U64.lnot (_region_size - 1)) in
  do_for_each_region aligned_down_offset aligned_up_length f.

Definition validate_parameters {S} (offset length : Z) : M S unit :=
  assert InvalidRange (0 <? length) ;;
  assert InvalidRange (offset <? U64.add offset length).

(** The ids the iteration hands to its callback, in order: the iteration
    run with a callback that records its argument and never stops. *)
Definition record_id (id : Z) : M (list Z) stop_iteration :=
  fun visited => Ok no (visited ++ [id]).

Definition region_ids (offset length : Z) : list Z :=
  final_state (for_each_region offset length record_id []).

End Iteration.

(** ** Regions and their mutexes *)

(** State of a region's mutex: held exclusively by one thread, or held in
    shared mode by a set of threads; the empty set is the unlocked mutex.
    Threads are numbered. *)
Inductive mutex_state : Type :=
  | Writer (owner : nat)
  | Readers (owners : gset nat).

Definition unlocked : mutex_state := Readers ∅.

Record region : Type := Region { refcount : Z; mutex : mutex_state }.

(** [new region]: the member initialisers. *)
Definition new_region : region := {| refcount := 0; mutex := unlocked |}.

Abbreviation table := (gmap Z region).

#[global] Instance mutex_state_eq_dec : EqDecision mutex_state.
Proof. solve_decision. Defined.
#[global] Instance region_eq_dec : EqDecision region.
Proof. solve_decision. Defined.

Section Mutex.

(** The calling thread, and the region the mutex belongs to. *)
Variable tid : nat.
Variable region_id : Z.

Definition owns (m : mutex_state) : bool :=
  match m with
  | Writer o => bool_decide (o = tid)
  | Readers rs => bool_decide (tid ∈ rs)
  end.

Definition is_unlocked (m : mutex_state) : bool :=
  match m with
  | Writer _ => false
  | Readers rs => bool_decide (rs = ∅)
  end.

(** mutex.lock() *)
Definition mutex_lock : M mutex_state unit := fun m =>
  if owns m then Halt (Undefined MutexMisuse) m
  else if is_unlocked m then Ok tt (Writer tid)
  else Halt (Waiting region_id) m.

(** mutex.try_lock() *)
Definition mutex_try_lock : M mutex_state bool := fun m =>
  if owns m then Halt (Undefined MutexMisuse) m
  else if is_unlocked m then Ok true (Writer tid)
  else Ok false m.

(** mutex.unlock() *)
Definition mutex_unlock : M mutex_state unit := fun m =>
  match m with
  | Writer o => if bool_decide (o = tid) then Ok tt unlocked
                else Halt (Undefined MutexMisuse) m
  | Readers _ => Halt (Undefined MutexMisuse) m
  end.

(** mutex.lock_shared() *)
Definition mutex_lock_shared : M mutex_state unit := fun m =>
  if owns m then Halt (Undefined MutexMisuse) m
  else match m with
       | Writer _ => Halt (Waiting region_id) m
       | Readers rs => Ok tt (Readers ({[tid]} ∪ rs))
       end.

(** mutex.try_lock_shared() *)
Definition mutex_try_lock_shared : M mutex_state bool := fun m =>
  if owns m then Halt (Undefined MutexMisuse) m
  else match m with
       | Writer _ => Ok false m
       | Readers rs => Ok true (Readers ({[tid]} ∪ rs))
       end.

(** mutex.unlock_shared() *)
Definition mutex_unlock_shared : M mutex_state unit := fun m =>
  match m with
  | Writer _ => Halt (Undefined MutexMisuse) m
  | Readers rs => if bool_decide (tid ∈ rs) then Ok tt (Readers (rs ∖ {[tid]}))
                  else Halt (Undefined MutexMisuse) m
  end.

End Mutex.

(** ** The region table *)

(** [r.mutex.op()] through the reference [r] that get_locked_region or
    get_and_lock_region returned for [region_id]. *)
Definition on_mutex {A} (region_id : Z) (op : M mutex_state A) : M table A :=
  fun t =>
    match t !! region_id with
    | None => Halt (Undefined DanglingRegion) t
    | Some r =>
        match op (mutex r) with
        | Ok a m' => Ok a (<[region_id := {| refcount := refcount r; mutex := m' |}]> t)
        | Halt h _ => Halt h t
        end
    end.

Definition get_locked_region (region_id : Z) : M table unit := fun t =>
  match t !! region_id with
  | None => Halt (Abort RegionNotHeld) t               (* assert region exists *)
  | Some r => assert RegionNotHeld (0 <? refcount r) t (* assert region is locked *)
  end.

Definition get_and_lock_region (region_id : Z) : M table unit := fun t =>
  let r := match t !! region_id with
           | None => new_region
           | Some r => r
           end in
  Ok tt (<[region_id := {| refcount := U64.add (refcount r) 1; mutex := mutex r |}]> t).

Definition unlock_region (region_id : Z) : M table unit := fun t =>
  match t !! region_id with
  | None => Halt (Abort RegionNotHeld) t
  | Some r =>
      let c := U64.sub (refcount r) 1 in
      if c =? 0 then Ok tt (delete region_id t)
      else Ok tt (<[region_id := {| refcount := c; mutex := mutex r |}]> t)
  end.

(** A range-based [for] over a vector of region ids. *)
Fixpoint for_each_id {S} (ids : list Z) (f : Z -> M S unit) : M S unit :=
  match ids with
  | [] => ret tt
  | region_id :: ids' => f region_id ;; for_each_id ids' f
  end.

(** The locals that the callback of generic_try_lock captures by reference,
    next to the table. *)
Record try_frame : Type := TryFrame {
  frame_table : table;
  locked_region_ids : list Z;
  failed_to_lock_region : bool
}.

(** ** The public operations *)

Section RangeLock.

Variable _region_size : Z.
(** [__cplusplus >= 201402L]: the mutex is a std::shared_timed_mutex;
    otherwise the shared operations call the exclusive ones. *)
Variable std14 : bool.
(** The calling thread. *)
Variable tid : nat.

(** The constructor: its two assertions, over a table that starts empty. *)
Definition range_lock : res table unit :=
  (assert BadRegionSize (0 <? _region_size) ;;
   assert BadRegionSize (Z.land _region_size (_region_size - 1) =? 0)) ∅.

Definition generic_try_lock (offset length : Z)
    (try_lock : Z -> M table bool) (unlock : Z -> M table unit) : M table bool :=
  fun t =>
    let body :=
      validate_parameters offset length ;;
      for_each_region _region_size offset length (fun region_id fr =>
        match try_lock region_id (frame_table fr) with
        | Ok true t' =>
            Ok no {| frame_table := t';
                     locked_region_ids := locked_region_ids fr ++ [region_id];
                     failed_to_lock_region := failed_to_lock_region fr |}
        | Ok false t' =>
            Ok yes {| frame_table := t';
                      locked_region_ids := locked_region_ids fr;
                      failed_to_lock_region := true |}
        | Halt h t' =>
            Halt h {| frame_table := t';
                      locked_region_ids := locked_region_ids fr;
                      failed_to_lock_region := failed_to_lock_region fr |}
        end) in
    match body {| frame_table := t; locked_region_ids := [];
                  failed_to_lock_region := false |} with
    | Halt h fr => Halt h (frame_table fr)
    | Ok _ fr =>
        ((if failed_to_lock_region fr
          then for_each_id (locked_region_ids fr) unlock
          else ret tt) ;;
         ret (negb (failed_to_lock_region fr))) (frame_table fr)
    end.

Definition lock (offset length : Z) : M table unit :=
  validate_parameters offset length ;;
  for_each_region _region_size offset length (fun region_id =>
    get_and_lock_region region_id ;;
    on_mutex region_id (mutex_lock tid region_id) ;;
    ret no).

Definition try_lock (offset length : Z) : M table bool :=
  let try_lock_f := fun region_id =>
    get_and_lock_region region_id ;;
    on_mutex region_id (mutex_try_lock tid) in
  let unlock_f := fun region_id =>
    get_locked_region region_id ;;
    on_mutex region_id (mutex_unlock tid) ;;
    unlock_region region_id in
  generic_try_lock offset length try_lock_f unlock_f.

Definition unlock (offset length : Z) : M table unit :=
  validate_parameters offset length ;;
  for_each_region _region_size offset length (fun region_id =>
    get_locked_region region_id ;;
    on_mutex region_id (mutex_unlock tid) ;;
    unlock_region region_id ;;
    ret no).

(** [func] is the caller's operation; it may change the table, block,
    abort or throw. *)
Definition with_lock (offset length : Z) (func : M table unit) : M table unit :=
  lock offset length ;;
  func ;;
  unlock offset length.

Definition lock_shared (offset length : Z) : M table unit :=
  if std14 then
    validate_parameters offset length ;;
    for_each_region _region_size offset length (fun region_id =>
      get_and_lock_region region_id ;;
      on_mutex region_id (mutex_lock_shared tid region_id) ;;
      ret no)
  else lock offset length.

Definition try_lock_shared (offset length : Z) : M table bool :=
  if std14 then
    let try_lock_f := fun region_id =>
      get_and_lock_region region_id ;;
      on_mutex region_id (mutex_try_lock_shared tid) in
    let unlock_f := fun region_id =>
      get_locked_region region_id ;;
      on_mutex region_id (mutex_unlock_shared tid) ;;
      unlock_region region_id in
    generic_try_lock offset length try_lock_f unlock_f
  else try_lock offset length.

Definition unlock_shared (offset length : Z) : M table unit :=
  if std14 then
    validate_parameters offset length ;;
    for_each_region _region_size offset length (fun region_id =>
      get_locked_region region_id ;;
      on_mutex region_id (mutex_unlock_shared tid) ;;
      unlock_region region_id ;;
      ret no)
  else unlock offset length.

Definition with_lock_shared (offset length : Z) (func : M table unit) : M table unit :=
  if std14 then
    lock_shared offset length ;;
    func ;;
    unlock_shared offset length
  else with_lock offset length func.

End RangeLock.

(** A region size the constructor accepts. *)
Definition constructed (region_size : Z) : Prop :=
  U64.is_u64 region_size /\ range_lock region_size = Ok tt ∅.

(** A request that validate_parameters lets through. *)
Definition accepted (offset length : Z) : Prop :=
  U64.is_u64 offset /\ U64.is_u64 length /\
  0 < length /\ offset + length < U64.modulus.

(** Calling [f] on the ids of a list in turn, until a call asks to stop;
    [k] runs when no call did.  The iteration of for_each_region is shown
    below to be of this form. *)
Fixpoint visit {S} (ids : list Z) (f : Z -> M S stop_iteration) (k : M S unit)
    : M S unit :=
  match ids with
  | [] => k
  | id :: ids' =>
      let* stop := f id in
      match stop with
      | yes => ret tt
      | no => visit ids' f k
      end
  end.

(** The value of [regions] in do_for_each_region when for_each_region
    calls it for a request of [length] bytes. *)
Definition region_count (region_size length : Z) : Z :=
  U64.sub (U64.add length region_size) 1 / region_size.

(** What the loop does once the callback has been run on every id. *)
Definition loop_exit {S} (region_size length : Z) : M S unit :=
  defined CounterOverflow (region_count region_size length <=? INT_MAX).

(** The six public locking operations, as one call with a boolean result
    ([true] for the operations that return nothing). *)
Inductive entry_point : Type :=
  | Lock | TryLock | Unlock | LockShared | TryLockShared | UnlockShared.

Definition call (region_size : Z) (std14 : bool) (tid : nat)
    (e : entry_point) (offset length : Z) : M table bool :=
  match e with
  | Lock => lock region_size tid offset length ;; ret true
  | TryLock => try_lock region_size tid offset length
  | Unlock => unlock region_size tid offset length ;; ret true
  | LockShared => lock_shared region_size std14 tid offset length ;; ret true
  | TryLockShared => try_lock_shared region_size std14 tid offset length
  | UnlockShared => unlock_shared region_size std14 tid offset length ;; ret true
  end.

(** Every way [m] can halt satisfies [P]. *)
Definition halts_within {S A} (P : halt -> Prop) (m : M S A) : Prop :=
  forall s h s', m s = Halt h s' -> P h.

(** The halts of the locking code proper: everything but a failed
    validation and an exception. *)
Definition past_validation (h : halt) : Prop :=
  h <> Abort InvalidRange /\ h <> Thrown.

(** The reference count of a region id: that of its entry, and zero for
    an id with no entry. *)
Definition refcount_of (t : table) (id : Z) : Z :=
  match t !! id with
  | Some r => refcount r
  | None => 0
  end.

(** A region is in the table if and only if its reference count is
    positive. *)
Definition table_inv (t : table) : Prop :=
  forall id, is_Some (t !! id) <-> 0 < refcount_of t id.

(** No reference count exceeds [n]. *)
Definition bounded (n : Z) (t : table) : Prop :=
  forall id, refcount_of t id <= n.

(** [K] holds of the state [m] ends in, however it ends. *)
Definition preserves {S A} (K : S -> Prop) (m : M S A) : Prop :=
  forall s, K s -> K (final_state (m s)).

(** Every entry has a reference count in [(0, hi]]. *)
Definition counts_in (hi : Z) (t : table) : Prop :=
  forall id r, t !! id = Some r -> 0 < refcount r <= hi.

(** The same, with the entries of the ids from [lo] on below [hi]. *)
Definition counts_upto (hi lo : Z) (t : table) : Prop :=
  forall id r, t !! id = Some r ->
    0 < refcount r <= hi /\ (lo <= id -> refcount r < hi).

(** A call of a public operation by a thread. *)
Record request : Type := Request {
  caller : nat;
  entry : entry_point;
  req_offset : Z;
  req_length : Z
}.

Definition acquires (e : entry_point) : bool :=
  match e with
  | Lock | TryLock | LockShared | TryLockShared => true
  | Unlock | UnlockShared => false
  end.

(** Calls made one after the other, each started when the one before has
    returned; the run ends with [false] at a try_lock that returns
    [false]. *)
Fixpoint run_calls (region_size : Z) (std14 : bool) (calls : list request)
    : M table bool :=
  match calls with
  | [] => ret true
  | c :: calls' =>
      let* ok := call region_size std14 (caller c) (entry c)
                      (req_offset c) (req_length c) in
      if ok then run_calls region_size std14 calls' else ret false
  end.

(** The ranges the calls acquire, and those they release. *)
Definition requested (c : request) : Z * Z := (req_offset c, req_length c).
Definition acquired (calls : list request) : list (Z * Z) :=
  List.map requested (List.filter (fun c => acquires (entry c)) calls).
Definition released (calls : list request) : list (Z * Z) :=
  List.map requested (List.filter (fun c => negb (acquires (entry c))) calls).

(** How many of the ranges cover a region id. *)
Definition covers (region_size : Z) (id : Z) (range : Z * Z) : Z :=
  if bool_decide (id ∈ region_ids region_size range.1 range.2) then 1 else 0.
Definition coverage (region_size : Z) (id : Z) (ranges : list (Z * Z)) : Z :=
  foldr (fun range n => covers region_size id range + n) 0 ranges.

(** The reference counts after the callback has run on the ids below [lo],
    each visited id having gained [d]. *)
Definition counts_moved (d first lo : Z) (t t' : table) : Prop :=
  forall id, refcount_of t' id =
             refcount_of t id + (if bool_decide (first <= id < lo) then d else 0).

(** The table whose entries are the regions [lo .. hi-1], each with one
    reference and mutex state [m]. *)
Definition range_held (m : mutex_state) (lo hi : Z) (t : table) : Prop :=
  forall id, t !! id =
             if bool_decide (lo <= id < hi)
             then Some {| refcount := 1; mutex := m |} else None.

(** Alignment as the specification words it. *)
Definition align_down (region_size x : Z) : Z := x - x mod region_size.
Definition align_up (region_size x : Z) : Z :=
  align_down region_size (x + region_size - 1).

(** The ids of the widened interval
    [[align_down offset, align_up (offset + length))], as the specification
    words them: from [align_down offset / region_size] through
    [(align_up (offset + length) - 1) / region_size]. *)
Definition widened_ids (region_size offset length : Z) : list Z :=
  let first := align_down region_size offset / region_size in
  let last := (align_up region_size (offset + length) - 1) / region_size in
  seqZ first (last - first + 1).

(** ** Threads

    Several threads call the operations at once.  A thread's code is a
    sequence of atomic actions on the table, the places where the code
    takes [_regions_lock] or operates on a region's mutex: one call of
    get_and_lock_region, get_locked_region or unlock_region, or one mutex
    operation.  Between two actions of a thread any other thread may run.
    An action that ends in [Waiting] is not enabled: the thread is blocked
    in mutex.lock() until the state of the mutex lets it through. *)

Inductive prog : Type :=
  | Fin
  | Act (a : M table bool) (k : bool -> prog).

(** An action with nothing to report. *)
Definition step_of (m : M table unit) : M table bool := m ;; ret true.

(** A program run by a thread on its own. *)
Fixpoint run (p : prog) : M table unit :=
  match p with
  | Fin => ret tt
  | Act a k => fun t =>
      match a t with
      | Ok b t' => run (k b) t'
      | Halt h t' => Halt h t'
      end
  end.

Inductive mode : Type := Exclusive | Shared.

Section Programs.

Variable _region_size : Z.
Variable std14 : bool.
Variable tid : nat.

(** The mutex operations of the exclusive and of the shared operations;
    before C++14 the shared operations are the exclusive ones. *)
Definition m_lock (m : mode) (region_id : Z) : M mutex_state unit :=
  match m with
  | Exclusive => mutex_lock tid region_id
  | Shared => if std14 then mutex_lock_shared tid region_id
              else mutex_lock tid region_id
  end.

Definition m_try_lock (m : mode) : M mutex_state bool :=
  match m with
  | Exclusive => mutex_try_lock tid
  | Shared => if std14 then mutex_try_lock_shared tid else mutex_try_lock tid
  end.

Definition m_unlock (m : mode) : M mutex_state unit :=
  match m with
  | Exclusive => mutex_unlock tid
  | Shared => if std14 then mutex_unlock_shared tid else mutex_unlock tid
  end.

(** The iteration of lock and lock_shared over [ids], then [exit], the
    end of the loop, then [k]. *)
Fixpoint acquire_steps (m : mode) (ids : list Z) (exit : M table unit)
    (k : prog) : prog :=
  match ids with
  | [] => Act (step_of exit) (fun _ => k)
  | region_id :: ids' =>
      Act (step_of (get_and_lock_region region_id)) (fun _ =>
      Act (step_of (on_mutex region_id (m_lock m region_id))) (fun _ =>
      acquire_steps m ids' exit k))
  end.

(** The iteration of unlock and unlock_shared, and the rollback of
    generic_try_lock, over [ids]. *)
Fixpoint release_steps (m : mode) (ids : list Z) (k : prog) : prog :=
  match ids with
  | [] => k
  | region_id :: ids' =>
      Act (step_of (get_locked_region region_id)) (fun _ =>
      Act (step_of (on_mutex region_id (m_unlock m))) (fun _ =>
      Act (step_of (unlock_region region_id)) (fun _ =>
      release_steps m ids' k)))
  end.

(** The iteration of generic_try_lock over [ids], with the ids locked so
    far. *)
Fixpoint try_steps (m : mode) (ids locked : list Z) (exit : M table unit)
    (k : bool -> prog) : prog :=
  match ids with
  | [] => Act (step_of exit) (fun _ => k true)
  | region_id :: ids' =>
      Act (step_of (get_and_lock_region region_id)) (fun _ =>
      Act (on_mutex region_id (m_try_lock m)) (fun acquired =>
        if acquired then try_steps m ids' (locked ++ [region_id]) exit k
        else release_steps m locked (k false)))
  end.

(** lock and lock_shared, then [k]. *)
Definition lock_prog (m : mode) (offset length : Z) (k : prog) : prog :=
  Act (step_of (validate_parameters offset length)) (fun _ =>
  acquire_steps m (region_ids _region_size offset length)
    (loop_exit _region_size length) k).

(** unlock and unlock_shared, then [k]. *)
Definition unlock_prog (m : mode) (offset length : Z) (k : prog) : prog :=
  Act (step_of (validate_parameters offset length)) (fun _ =>
  release_steps m (region_ids _region_size offset length)
    (Act (step_of (loop_exit _region_size length)) (fun _ => k))).

(** try_lock and try_lock_shared, then [k] on the result. *)
Definition try_lock_prog (m : mode) (offset length : Z) (k : bool -> prog)
    : prog :=
  Act (step_of (validate_parameters offset length)) (fun _ =>
  try_steps m (region_ids _region_size offset length) []
    (loop_exit _region_size length) k).

End Programs.

(** A thread that holds one range at a time: it acquires a range, by a
    blocking call or by a try whose failure it accepts, and releases it
    with the same offset and length before it acquires the next. *)
Record txn : Type := Txn {
  blocking : bool;
  txn_mode : mode;
  txn_offset : Z;
  txn_length : Z
}.

Fixpoint txns_prog (region_size : Z) (std14 : bool) (tid : nat)
    (ts : list txn) : prog :=
  match ts with
  | [] => Fin
  | x :: ts' =>
      let release :=
        unlock_prog region_size std14 tid (txn_mode x)
          (txn_offset x) (txn_length x) (txns_prog region_size std14 tid ts') in
      if blocking x then
        lock_prog region_size std14 tid (txn_mode x)
          (txn_offset x) (txn_length x) release
      else
        try_lock_prog region_size std14 tid (txn_mode x)
          (txn_offset x) (txn_length x)
          (fun acquired =>
             if acquired then release else txns_prog region_size std14 tid ts')
  end.

(** The table and the threads; a thread is known by its position. *)
Record world : Type := World { tbl : table; pool : list prog }.

(** Thread [i] performs its next action, if it has one that is enabled
    and neither aborts nor is undefined. *)
Definition thread_step (w : world) (i : nat) : option world :=
  match pool w !! i with
  | Some (Act a k) =>
      match a (tbl w) with
      | Ok b t' => Some {| tbl := t'; pool := <[i := k b]> (pool w) |}
      | Halt _ _ => None
      end
  | _ => None
  end.

Definition step (w w' : world) : Prop := exists i, thread_step w i = Some w'.

(** The threads scheduled in the order of a list. *)
Fixpoint exec (schedule : list nat) (w : world) : option world :=
  match schedule with
  | [] => Some w
  | i :: schedule' =>
      match thread_step w i with
      | Some w' => exec schedule' w'
      | None => None
      end
  end.

Inductive status : Type :=
  | Finished
  | Runnable
  | BlockedOn (id : Z)
  | Crashing (h : halt).

Definition status_of (t : table) (p : prog) : status :=
  match p with
  | Fin => Finished
  | Act a _ =>
      match a t with
      | Ok _ _ => Runnable
      | Halt (Waiting id) _ => BlockedOn id
      | Halt h _ => Crashing h
      end
  end.

Definition is_blocked (s : status) : bool :=
  match s with BlockedOn _ => true | _ => false end.
Definition is_stuck (s : status) : bool :=
  match s with BlockedOn _ | Finished => true | _ => false end.

(** Some thread waits for a mutex, and every thread has finished or waits
    for one: no thread will ever move again. *)
Definition deadlocked (w : world) : Prop :=
  Exists (fun p => is_blocked (status_of (tbl w) p) = true) (pool w) /\
  Forall (fun p => is_stuck (status_of (tbl w) p) = true) (pool w).

Definition deadlockedb (w : world) : bool :=
  existsb (fun p => is_blocked (status_of (tbl w) p)) (pool w) &&
  forallb (fun p => is_stuck (status_of (tbl w) p)) (pool w).

(** The threads of a list of transaction lists, on an empty table. *)
Definition start (region_size : Z) (std14 : bool) (code : list (list txn))
    : world :=
  {| tbl := ∅;
     pool := imap (fun i ts => txns_prog region_size std14 i ts) code |}.

Definition accepted_txn (x : txn) : Prop :=
  accepted (txn_offset x) (txn_length x).

(** Two threads that each hold two ranges at once, taken in opposite
    orders: thread 0 locks (1024, 1) and then (0, 1), thread 1 locks (0, 1)
    and then (1024, 1); both then unlock.  Region size 1024. *)
Definition opposite_orders : world :=
  {| tbl := ∅;
     pool := [ lock_prog 1024 true 0 Exclusive 1024 1
                 (lock_prog 1024 true 0 Exclusive 0 1
                    (unlock_prog 1024 true 0 Exclusive 0 1
                       (unlock_prog 1024 true 0 Exclusive 1024 1 Fin)));
               lock_prog 1024 true 1 Exclusive 0 1
                 (lock_prog 1024 true 1 Exclusive 1024 1
                    (unlock_prog 1024 true 1 Exclusive 1024 1
                       (unlock_prog 1024 true 1 Exclusive 0 1 Fin))) ] |}.

(** Thread [tid] owns the mutex of region [id], in either mode. *)
Definition owns_in (t : table) (tid : nat) (id : Z) : Prop :=
  exists r, t !! id = Some r /\ owns tid (mutex r) = true.

(** *** Where a thread stands

    The states of a thread that runs transactions, used to follow it
    through its program. *)

(** What follows a walk of releases: the end of the loop of unlock, or,
    after a rollback, the caller of try_lock. *)
Inductive after : Type := ExitLoop (length : Z) | Rollback.

Inductive frame : Type :=
  | Idle (ts : list txn)
  | Acquire1 (m : mode) (o l : Z) (done : list Z) (id : Z) (rest : list Z)
             (ts : list txn)       (* about to take a reference on id *)
  | Acquire2 (m : mode) (o l : Z) (done : list Z) (id : Z) (rest : list Z)
             (ts : list txn)       (* about to lock the mutex of id *)
  | AcquireExit (m : mode) (o l : Z) (ts : list txn)
  | Unlocking (m : mode) (o l : Z) (ts : list txn)
  | Release1 (m : mode) (id : Z) (rest : list Z) (aft : after) (ts : list txn)
  | Release2 (m : mode) (id : Z) (rest : list Z) (aft : after) (ts : list txn)
  | Release3 (m : mode) (id : Z) (rest : list Z) (aft : after) (ts : list txn)
  | Leaving (l : Z) (ts : list txn)
  | Try1 (m : mode) (o l : Z) (locked : list Z) (id : Z) (rest : list Z)
         (ts : list txn)
  | Try2 (m : mode) (o l : Z) (locked : list Z) (id : Z) (rest : list Z)
         (ts : list txn)
  | TryExit (m : mode) (o l : Z) (ts : list txn).

Definition acquiring (m : mode) (o l : Z) (done rest : list Z) (ts : list txn)
    : frame :=
  match rest with
  | [] => AcquireExit m o l ts
  | id :: rest' => Acquire1 m o l done id rest' ts
  end.

Definition releasing (m : mode) (rest : list Z) (aft : after) (ts : list txn)
    : frame :=
  match rest with
  | [] => match aft with
          | ExitLoop l => Leaving l ts
          | Rollback => Idle ts
          end
  | id :: rest' => Release1 m id rest' aft ts
  end.

Definition trying (m : mode) (o l : Z) (locked rest : list Z) (ts : list txn)
    : frame :=
  match rest with
  | [] => TryExit m o l ts
  | id :: rest' => Try1 m o l locked id rest' ts
  end.

Definition waiting_on (fr : frame) : option Z :=
  match fr with
  | Acquire2 _ _ _ _ id _ _ => Some id
  | _ => None
  end.

Section Frames.

Variable _region_size : Z.
Variable std14 : bool.
Variable tid : nat.

Definition after_prog (aft : after) (ts : list txn) : prog :=
  match aft with
  | ExitLoop l =>
      Act (step_of (loop_exit _region_size l))
          (fun _ => txns_prog _region_size std14 tid ts)
  | Rollback => txns_prog _region_size std14 tid ts
  end.

Definition release_of (m : mode) (o l : Z) (ts : list txn) : prog :=
  unlock_prog _region_size std14 tid m o l (txns_prog _region_size std14 tid ts).

Definition try_result (m : mode) (o l : Z) (ts : list txn) (acquired : bool)
    : prog :=
  if acquired then release_of m o l ts else txns_prog _region_size std14 tid ts.

(** The program left to a thread in a state. *)
Definition prog_of (fr : frame) : prog :=
  match fr with
  | Idle ts => txns_prog _region_size std14 tid ts
  | Acquire1 m o l _ id rest ts =>
      acquire_steps std14 tid m (id :: rest) (loop_exit _region_size l)
        (release_of m o l ts)
  | Acquire2 m o l _ id rest ts =>
      Act (step_of (on_mutex id (m_lock std14 tid m id))) (fun _ =>
      acquire_steps std14 tid m rest (loop_exit _region_size l)
        (release_of m o l ts))
  | AcquireExit m o l ts =>
      acquire_steps std14 tid m [] (loop_exit _region_size l)
        (release_of m o l ts)
  | Unlocking m o l ts => release_of m o l ts
  | Release1 m id rest aft ts =>
      release_steps std14 tid m (id :: rest) (after_prog aft ts)
  | Release2 m id rest aft ts =>
      Act (step_of (on_mutex id (m_unlock std14 tid m))) (fun _ =>
      Act (step_of (unlock_region id)) (fun _ =>
      release_steps std14 tid m rest (after_prog aft ts)))
  | Release3 m id rest aft ts =>
      Act (step_of (unlock_region id)) (fun _ =>
      release_steps std14 tid m rest (after_prog aft ts))
  | Leaving l ts => after_prog (ExitLoop l) ts
  | Try1 m o l locked id rest ts =>
      try_steps std14 tid m (id :: rest) locked (loop_exit _region_size l)
        (try_result m o l ts)
  | Try2 m o l locked id rest ts =>
      Act (on_mutex id (m_try_lock std14 tid m)) (fun acquired =>
        if acquired
        then try_steps std14 tid m rest (locked ++ [id])
               (loop_exit _region_size l) (try_result m o l ts)
        else release_steps std14 tid m locked (try_result m o l ts false))
  | TryExit m o l ts =>
      try_steps std14 tid m [] [] (loop_exit _region_size l)
        (try_result m o l ts)
  end.

(** The state after the next action, which returned [b]. *)
Definition advance (fr : frame) (b : bool) : frame :=
  match fr with
  | Idle [] => Idle []
  | Idle (x :: ts) =>
      let ids := region_ids _region_size (txn_offset x) (txn_length x) in
      if blocking x
      then acquiring (txn_mode x) (txn_offset x) (txn_length x) [] ids ts
      else trying (txn_mode x) (txn_offset x) (txn_length x) [] ids ts
  | Acquire1 m o l done id rest ts => Acquire2 m o l done id rest ts
  | Acquire2 m o l done id rest ts => acquiring m o l (done ++ [id]) rest ts
  | AcquireExit m o l ts => Unlocking m o l ts
  | Unlocking m o l ts =>
      releasing m (region_ids _region_size o l) (ExitLoop l) ts
  | Release1 m id rest aft ts => Release2 m id rest aft ts
  | Release2 m id rest aft ts => Release3 m id rest aft ts
  | Release3 m id rest aft ts => releasing m rest aft ts
  | Leaving l ts => Idle ts
  | Try1 m o l locked id rest ts => Try2 m o l locked id rest ts
  | Try2 m o l locked id rest ts =>
      if b then trying m o l (locked ++ [id]) rest ts
      else releasing m locked Rollback ts
  | TryExit m o l ts => Unlocking m o l ts
  end.

(** The regions whose mutex the thread may own in a state. *)
Definition may_hold (fr : frame) : list Z :=
  match fr with
  | Idle _ | Leaving _ _ => []
  | Acquire1 _ _ _ done _ _ _ | Acquire2 _ _ _ done _ _ _ => done
  | AcquireExit _ o l _ | Unlocking _ o l _ | TryExit _ o l _ =>
      region_ids _region_size o l
  | Release1 _ id rest _ _ | Release2 _ id rest _ _ => id :: rest
  | Release3 _ _ rest _ _ => rest
  | Try1 _ _ _ locked _ _ _ | Try2 _ _ _ locked _ _ _ => locked
  end.

(** The states a thread of transactions goes through. *)
Definition wf (fr : frame) : Prop :=
  match fr with
  | Idle ts | Leaving _ ts
  | Release1 _ _ _ _ ts | Release2 _ _ _ _ ts | Release3 _ _ _ _ ts =>
      Forall accepted_txn ts
  | Acquire1 _ o l done id rest ts | Acquire2 _ o l done id rest ts
  | Try1 _ o l done id rest ts | Try2 _ o l done id rest ts =>
      accepted o l /\
      region_ids _region_size o l = done ++ id :: rest /\
      Forall accepted_txn ts
  | AcquireExit _ o l ts | Unlocking _ o l ts | TryExit _ o l ts =>
      accepted o l /\ Forall accepted_txn ts
  end.

End Frames.

(** The threads of a world are those of transactions, each in a state
    that accounts for the mutexes it owns. *)
Definition follows (region_size : Z) (std14 : bool) (frames : list frame)
    (w : world) : Prop :=
  length frames = length (pool w) /\
  (forall i fr, frames !! i = Some fr ->
     pool w !! i = Some (prog_of region_size std14 i fr) /\
     wf region_size fr /\
     forall id, owns_in (tbl w) i id -> id ∈ may_hold region_size fr) /\
  (forall i id, owns_in (tbl w) i id -> (i < length (pool w))%nat).

(** A halt that is not a wait. *)
Definition not_waiting (h : halt) : Prop := forall id, h <> Waiting id.

(** ** The region size derived from a resource size

    create_range_lock computes in double precision.  The conversions
    between [uint64_t] and [double] and std::ceil are exact operations of
    the language and of IEEE 754 and are defined here on the binary64
    numbers; std::log2 and std::pow, whose accuracy is left to the C
    library, are parameters. *)

(** A [uint64_t] converted to [double]: the nearest binary64 number, ties
    to even. *)
Definition u64_to_double (n : Z) : float :=
  SF2Prim (binary_normalize prec emax n 0 false).

(** A [double] converted to [uint64_t]: the value truncated towards zero;
    undefined ([None]) when that does not fit, and for infinities and
    NaN. *)
Definition double_to_u64 (x : float) : option Z :=
  match Prim2SF x with
  | S754_zero _ => Some 0
  | S754_finite s m e =>
      let t := if 0 <=? e then Z.pos m * 2 ^ e else Z.pos m / 2 ^ (- e) in
      if s then (if t =? 0 then Some 0 else None)
      else if t <? U64.modulus then Some t else None
  | S754_infinity _ | S754_nan => None
  end.

(** std::ceil: the least integral value not below [x], which is always a
    binary64 number. *)
Definition ceil (x : float) : float :=
  match Prim2SF x with
  | S754_finite s m e =>
      if 0 <=? e then x
      else if Z.pos m mod 2 ^ (- e) =? 0 then x
      else
        let q := Z.pos m / 2 ^ (- e) in
        if s then SF2Prim (binary_normalize prec emax (- q) 0 true)
        else SF2Prim (binary_normalize prec emax (q + 1) 0 false)
  | _ => x
  end.

Section RegionSizer.

(** std::log2 and std::pow on doubles. *)
Variable log2 : float -> float.
Variable pow : float -> float -> float.

(** The result is the region size of the new object, over its empty
    table. *)
Definition create_range_lock (resource_size : Z) : res table Z :=
  let res := ceil (PrimFloat.mul (log2 (u64_to_double resource_size)) 0.5%float) in
  match double_to_u64 res with
  | None => Halt (Undefined BadConversion) ∅
  | Some r =>
      let exp := Z.max r 10 in
      match double_to_u64 (pow 2%float (u64_to_double exp)) with
      | None => Halt (Undefined BadConversion) ∅
      | Some region_size =>
          match range_lock region_size with
          | Ok _ t => Ok region_size t
          | Halt h t => Halt h t
          end
      end
  end.

End RegionSizer.

(** [ceil (log2 n * 0.5)] in exact arithmetic, as the specification words
    the exponent: the least [c] with [n <= 4 ^ c]. *)
Definition ceil_half_log2 (n : Z) : Z := (Z.log2_up n + 1) / 2.

(** The region size as the specification words it. *)
Definition spec_region_size (resource_size : Z) : Z :=
  2 ^ Z.max (ceil_half_log2 resource_size) 10.

(** * Arithmetic of region sizes *)

Lemma constructed_pow2 rs :
  constructed rs -> exists k, 0 <= k < 64 /\ rs = 2 ^ k.
Proof.
  intros [[Hlo Hhi] Hc]. unfold range_lock, bind, assert in Hc.
  destruct (0 <? rs) eqn:Hpos; [|discriminate].
  destruct (Z.land rs (rs - 1) =? 0) eqn:Hland; [|discriminate].
  apply Z.ltb_lt in Hpos. apply Z.eqb_eq in Hland.
  exists (Z.log2 rs).
  pose proof (Z.log2_nonneg rs) as Hk.
  destruct (Z.log2_spec rs Hpos) as [Hl Hu].
  split.
  - split; [exact Hk|].
    apply Z.log2_lt_pow2; [exact Hpos|exact Hhi].
  - destruct (Z.eq_dec rs (2 ^ Z.log2 rs)) as [-> |Hne]; [now rewrite Z.log2_pow2|].
    exfalso.
    assert (Hb1 : Z.testbit rs (Z.log2 rs) = true) by (apply Z.bit_log2; lia).
    assert (Hl2 : Z.log2 (rs - 1) = Z.log2 rs).
    { apply Z.log2_unique; [exact Hk|]. lia. }
    assert (Hb2 : Z.testbit (rs - 1) (Z.log2 rs) = true).
    { rewrite <- Hl2. apply Z.bit_log2. lia. }
    assert (Hb : Z.testbit (Z.land rs (rs - 1)) (Z.log2 rs) = true).
    { rewrite Z.land_spec, Hb1, Hb2. reflexivity. }
    rewrite Hland, Z.bits_0 in Hb. discriminate.
Qed.

Lemma pow2_constructed k : 0 <= k < 64 -> constructed (2 ^ k).
Proof.
  intros Hk.
  assert (H0 : 0 < 2 ^ k) by (apply Z.pow_pos_nonneg; lia).
  split.
  - split; [lia|]. apply Z.pow_lt_mono_r; lia.
  - unfold range_lock, bind, assert.
    destruct (Z.ltb_spec 0 (2 ^ k)); [|lia].
    replace (2 ^ k - 1) with (Z.ones k) by (rewrite Z.ones_equiv; lia).
    rewrite Z.land_ones by lia. rewrite Z.mod_same by lia. reflexivity.
Qed.

(** [v & ~(2^k - 1)] on 64 bits clears the low [k] bits. *)
Lemma land_lnot_pow2 k v :
  0 <= k < 64 -> U64.is_u64 v ->
  Z.land v (U64.lnot (2 ^ k - 1)) = 2 ^ k * (v / 2 ^ k).
Proof.
  intros Hk [Hv0 Hv1].
  replace (2 ^ k * (v / 2 ^ k)) with (Z.shiftl (Z.shiftr v k) k).
  2:{ rewrite Z.shiftl_mul_pow2, Z.shiftr_div_pow2 by lia. lia. }
  apply Z.bits_inj'. intros n Hn.
  unfold U64.lnot, U64.max.
  replace (2 ^ 64 - 1) with (Z.ones 64) by reflexivity.
  replace (2 ^ k - 1) with (Z.ones k) by (rewrite Z.ones_equiv; lia).
  rewrite Z.land_spec, Z.lxor_spec.
  rewrite (Z.testbit_ones_nonneg k n), (Z.testbit_ones_nonneg 64 n) by lia.
  destruct (Z.ltb_spec n k).
  - rewrite Z.shiftl_spec_low by lia.
    destruct (Z.ltb_spec n 64); [|lia]. now rewrite andb_false_r.
  - rewrite Z.shiftl_spec by lia. rewrite Z.shiftr_spec by lia.
    replace (n - k + k) with n by lia.
    destruct (Z.ltb_spec n 64); [now rewrite andb_true_r|].
    rewrite andb_false_r.
    symmetry. apply Z.bits_above_log2; [lia|].
    destruct (Z.eq_dec v 0) as [-> |]; [simpl; lia|].
    apply Z.log2_lt_pow2; [lia|]. unfold U64.modulus in Hv1.
    apply Z.lt_le_trans with (2 ^ 64); [lia|]. apply Z.pow_le_mono_r; lia.
Qed.

Lemma aligned_multiple k q : 0 <= k -> aligned (2 ^ k * q) (2 ^ k) = true.
Proof.
  intros Hk. unfold aligned.
  replace (2 ^ k - 1) with (Z.ones k) by (rewrite Z.ones_equiv; lia).
  rewrite Z.land_ones by lia.
  rewrite Z.mul_comm, Z.mod_mul by (apply Z.pow_nonzero; lia). reflexivity.
Qed.

Lemma add_sub_wrap l rs :
  U64.sub (U64.add l rs) 1 = (l + rs - 1) mod U64.modulus.
Proof. unfold U64.sub, U64.add. now rewrite Zminus_mod_idemp_l. Qed.

(** Within the regions of an accepted request neither the multiplication
    nor the addition that computes [current_offset] wraps around. *)
Lemma current_offset_id rs o l i :
  constructed rs -> accepted o l ->
  0 <= i < region_count rs l ->
  get_region_id rs (U64.add (rs * (o / rs)) (U64.mul i rs)) = o / rs + i.
Proof.
  intros Hc (Ho & Hl & Hpos & Hsum) Hi.
  destruct (constructed_pow2 rs Hc) as (k & Hk & ->).
  assert (Hrs : 0 < 2 ^ k) by (apply Z.pow_pos_nonneg; lia).
  set (rs := 2 ^ k) in *.
  unfold region_count in Hi. rewrite add_sub_wrap in Hi.
  unfold U64.is_u64, U64.modulus in *.
  assert (Hrs64 : rs < 2 ^ 64) by (apply Z.pow_lt_mono_r; lia).
  assert (Hnowrap : l + rs - 1 < 2 ^ 64).
  { destruct (Z.lt_ge_cases (l + rs - 1) (2 ^ 64)) as [|Hge]; [assumption|].
    exfalso.
    assert (Hm : (l + rs - 1) mod 2 ^ 64 = l + rs - 1 - 2 ^ 64).
    { symmetry. apply Z.mod_unique with 1; lia. }
    rewrite Hm in Hi. rewrite Z.div_small in Hi by lia. lia. }
  rewrite Z.mod_small in Hi by lia.
  assert (Hir : (i + 1) * rs <= l + rs - 1).
  { transitivity (((l + rs - 1) / rs) * rs).
    - apply Z.mul_le_mono_nonneg_r; lia.
    - rewrite Z.mul_comm. apply Z.mul_div_le. lia. }
  assert (Hdown : rs * (o / rs) <= o) by (apply Z.mul_div_le; lia).
  assert (Hq : 0 <= o / rs) by (apply Z.div_pos; lia).
  unfold get_region_id, U64.add, U64.mul, U64.modulus.
  rewrite (Z.mod_small (i * rs)) by nia.
  rewrite Z.mod_small by nia.
  replace (rs * (o / rs) + i * rs) with ((o / rs + i) * rs) by lia.
  apply Z.div_mul. lia.
Qed.

Lemma region_count_nonneg rs l :
  constructed rs -> 0 <= region_count rs l.
Proof.
  intros Hc. destruct (constructed_pow2 rs Hc) as (k & Hk & ->).
  unfold region_count. apply Z.div_pos.
  - unfold U64.sub. apply Z.mod_pos_bound. reflexivity.
  - apply Z.pow_pos_nonneg; lia.
Qed.

(** * The iteration as a walk over consecutive ids *)

Lemma region_loop_visit {S} rs base first n (f : Z -> M S stop_iteration) :
  (forall i, 0 <= i < n ->
     get_region_id rs (U64.add base (U64.mul i rs)) = first + i) ->
  forall fuel i s,
    0 <= i <= INT_MAX -> i <= n -> fuel = Z.to_nat (n - i) ->
    region_loop rs base n f fuel i s =
    visit (seqZ (first + i) (Z.min n (INT_MAX + 1) - i)) f
          (defined CounterOverflow (n <=? INT_MAX)) s.
Proof.
  intros Hid. induction fuel as [|fuel IH]; intros i s Hi Hin Hfuel.
  - assert (i = n) by lia. subst i.
    rewrite seqZ_nil by lia. simpl. unfold ret, defined.
    destruct (Z.leb_spec n INT_MAX); [reflexivity|lia].
  - assert (Hlt : i < n) by lia.
    rewrite seqZ_cons by lia. simpl.
    destruct (Z.ltb_spec i n); [|lia].
    rewrite Hid by lia. unfold bind at 1 3.
    destruct (f (first + i) s) as [[|] s'|h s']; try reflexivity.
    unfold bind, defined at 1.
    destruct (Z.eqb_spec i INT_MAX) as [-> |Hne]; simpl.
    + rewrite seqZ_nil by lia. simpl. unfold defined.
      destruct (Z.leb_spec n INT_MAX); [lia|reflexivity].
    + rewrite IH by lia. f_equal. f_equal; lia.
Qed.

(** The iteration behind every public operation: the callback is run on
    consecutive ids starting at the id of [offset]. *)
Lemma for_each_region_visit {S} rs o l (f : Z -> M S stop_iteration) s :
  constructed rs -> accepted o l ->
  for_each_region rs o l f s =
  visit (seqZ (o / rs) (Z.min (region_count rs l) (INT_MAX + 1))) f
        (loop_exit rs l) s.
Proof.
  intros Hc Ha.
  pose proof (region_count_nonneg rs l Hc) as Hn.
  pose proof (current_offset_id rs o l) as Hid.
  destruct (constructed_pow2 rs Hc) as (k & Hk & Hrs).
  destruct Ha as (Ho & Hl & Hpos & Hsum).
  assert (Hpow : 0 < 2 ^ k) by (apply Z.pow_pos_nonneg; lia).
  unfold for_each_region, do_for_each_region, loop_exit.
  unfold region_count in *. subst rs.
  rewrite !land_lnot_pow2; try assumption.
  2:{ unfold U64.sub. apply Z.mod_pos_bound. reflexivity. }
  set (L := U64.sub (U64.add l (2 ^ k)) 1) in *.
  unfold bind at 1, assert at 1. rewrite aligned_multiple by lia.
  unfold bind at 1, assert at 1. rewrite aligned_multiple by lia.
  unfold bind at 1, assert at 1.
  rewrite (Z.mul_comm (2 ^ k) (L / 2 ^ k)), Z.mod_mul, Z.div_mul by lia.
  simpl (0 =? 0).
  cbv iota.
  rewrite (region_loop_visit (2 ^ k) (2 ^ k * (o / 2 ^ k)) (o / 2 ^ k)).
  - rewrite Z.add_0_r, Z.sub_0_r. reflexivity.
  - intros i Hi. apply Hid; [apply pow2_constructed; lia| |lia].
    unfold accepted; auto.
  - unfold INT_MAX. lia.
  - lia.
  - f_equal. lia.
Qed.

Lemma visit_record ids (k : M (list Z) unit) acc :
  (forall s, final_state (k s) = s) ->
  final_state (visit ids record_id k acc) = acc ++ ids.
Proof.
  intros Hk. revert acc. induction ids as [|id ids IH]; intros acc; simpl.
  - rewrite Hk. now rewrite app_nil_r.
  - unfold bind, record_id. rewrite IH. now rewrite <- app_assoc.
Qed.

Lemma region_ids_seqZ rs o l :
  constructed rs -> accepted o l ->
  region_ids rs o l = seqZ (o / rs) (Z.min (region_count rs l) (INT_MAX + 1)).
Proof.
  intros Hc Ha. unfold region_ids.
  rewrite for_each_region_visit by assumption.
  rewrite visit_record; [reflexivity|].
  intros s. unfold loop_exit, defined. now destruct (_ <=? _).
Qed.

Lemma seqZ_ascending m n : StronglySorted Z.lt (seqZ m n).
Proof.
  destruct (Z.le_gt_cases n 0) as [Hn|Hn].
  { rewrite seqZ_nil by lia. constructor. }
  rewrite <- (Z2Nat.id n) by lia. generalize (Z.to_nat n) as c. clear.
  intros c. revert m. induction c as [|c IH]; intros m.
  - rewrite seqZ_nil by lia. constructor.
  - rewrite seqZ_cons by lia. constructor.
    + replace (Z.pred (Z.of_nat (S c))) with (Z.of_nat c) by lia. apply IH.
    + apply Forall_seqZ. intros; lia.
Qed.

(** ** C5 *)

(** C5. For every accepted request the ids passed to the callback of the
    region iteration, whatever the callback (exclusive or shared locking,
    try-locking, unlocking), are those of [region_ids], which depend on the
    offset, the length and the region size only; they are consecutive,
    each one more than the one before, starting at the id of the offset,
    hence strictly ascending and free of duplicates. *)
Theorem region_ids_consecutive rs o l :
  constructed rs -> accepted o l ->
  (forall S (f : Z -> M S stop_iteration) (s : S),
     for_each_region rs o l f s = visit (region_ids rs o l) f (loop_exit rs l) s) /\
  region_ids rs o l =
    seqZ (get_region_id rs o) (Z.of_nat (length (region_ids rs o l))) /\
  (forall i a b,
     region_ids rs o l !! i = Some a ->
     region_ids rs o l !! (S i) = Some b -> b = a + 1) /\
  StronglySorted Z.lt (region_ids rs o l) /\
  NoDup (region_ids rs o l).
Proof.
  intros Hc Ha.
  pose proof (region_ids_seqZ rs o l Hc Ha) as Hids.
  pose proof (region_count_nonneg rs l Hc) as Hn.
  split; [|split; [|split; [|split]]].
  - intros S f s. rewrite Hids. now apply for_each_region_visit.
  - rewrite Hids at 1. rewrite Hids. rewrite length_seqZ.
    rewrite Z2Nat.id by (unfold INT_MAX; lia). reflexivity.
  - rewrite Hids. intros i a b Ha' Hb'.
    apply lookup_seqZ in Ha'. apply lookup_seqZ in Hb'. lia.
  - rewrite Hids. apply seqZ_ascending.
  - rewrite Hids. apply NoDup_seqZ.
Qed.

Lemma region_ids_consecutive_witness :
  region_ids 1024 1000 3000 = seqZ (get_region_id 1024 1000)
    (Z.of_nat (length (region_ids 1024 1000 3000))).
Proof.
  refine (proj1 (proj2 (region_ids_consecutive 1024 1000 3000 _ _))).
  - split; [unfold U64.is_u64, U64.modulus; lia|reflexivity].
  - unfold accepted, U64.is_u64, U64.modulus; lia.
Defined.

(** ** C1 *)

(** C1. With region size 1024 the request (1023, 2) asks for bytes 1023
    and 1024, which lie in regions 0 and 1; the widened interval
    [[0, 2048)] has ids 0 and 1, but the iteration visits region 0 only:
    the length, not the end of the request, is what for_each_region aligns
    up.  Region 1, which holds byte 1024, is left out. *)
Theorem region_ids_miss_last_region :
  constructed 1024 /\ accepted 1023 2 /\
  widened_ids 1024 1023 2 = [0; 1] /\
  region_ids 1024 1023 2 = [0] /\
  get_region_id 1024 (1023 + 2 - 1) = 1 /\
  region_ids 1024 1023 2 <> widened_ids 1024 1023 2.
Proof.
  split; [split; [unfold U64.is_u64, U64.modulus; lia|reflexivity]|].
  split; [unfold accepted, U64.is_u64, U64.modulus; lia|].
  repeat split; try reflexivity. discriminate.
Qed.


(** * Validation *)

Lemma validate_parameters_spec {S} o l (s : S) :
  U64.is_u64 o -> U64.is_u64 l ->
  validate_parameters o l s =
  if (0 <? l) && (o + l <? U64.modulus) then Ok tt s
  else Halt (Abort InvalidRange) s.
Proof.
  unfold U64.is_u64, U64.modulus. intros Ho Hl.
  unfold validate_parameters, bind, assert, U64.add, U64.modulus.
  destruct (Z.ltb_spec 0 l); simpl; [|reflexivity].
  destruct (Z.ltb_spec (o + l) (2 ^ 64)).
  - rewrite Z.mod_small by lia. destruct (Z.ltb_spec o (o + l)); [reflexivity|lia].
  - assert (Hm : (o + l) mod 2 ^ 64 = o + l - 2 ^ 64).
    { symmetry. apply Z.mod_unique with 1; lia. }
    rewrite Hm. destruct (Z.ltb_spec o (o + l - 2 ^ 64)); [lia|reflexivity].
Qed.

Lemma validate_accepted {S} o l (s : S) :
  accepted o l -> validate_parameters o l s = Ok tt s.
Proof.
  intros (Ho & Hl & Hpos & Hsum). rewrite validate_parameters_spec by assumption.
  destruct (Z.ltb_spec 0 l); [|lia].
  destruct (Z.ltb_spec (o + l) U64.modulus); [reflexivity|lia].
Qed.

Lemma bind_ok {S A B} (m : M S A) (k : A -> M S B) s a s' :
  m s = Ok a s' -> bind m k s = k a s'.
Proof. intros H. unfold bind. now rewrite H. Qed.

Lemma bind_halt {S A B} (m : M S A) (k : A -> M S B) s h s' :
  m s = Halt h s' -> bind m k s = Halt h s'.
Proof. intros H. unfold bind. now rewrite H. Qed.

(** ** Which halts a computation can end in *)

Lemma halts_within_ret {S A} (P : halt -> Prop) (a : A) :
  halts_within P (ret (S := S) a).
Proof. intros s h s' H. discriminate. Qed.

Lemma halts_within_bind {S A B} (P : halt -> Prop) (m : M S A) (k : A -> M S B) :
  halts_within P m -> (forall a, halts_within P (k a)) ->
  halts_within P (bind m k).
Proof.
  intros Hm Hk s h s' H. unfold bind in H.
  destruct (m s) as [a s1|h1 s1] eqn:E.
  - eapply Hk; eassumption.
  - inversion H; subst. eapply Hm; eassumption.
Qed.

Lemma halts_within_assert {S} (P : halt -> Prop) a b :
  P (Abort a) -> halts_within P (assert (S := S) a b).
Proof. intros HP s h s' H. unfold assert in H. destruct b; inversion H; now subst. Qed.

Lemma halts_within_defined {S} (P : halt -> Prop) u b :
  P (Undefined u) -> halts_within P (defined (S := S) u b).
Proof. intros HP s h s' H. unfold defined in H. destruct b; inversion H; now subst. Qed.

Lemma halts_within_region_loop {S} (P : halt -> Prop) rs base n
    (f : Z -> M S stop_iteration) :
  P (Undefined CounterOverflow) -> (forall id, halts_within P (f id)) ->
  forall fuel i, halts_within P (region_loop rs base n f fuel i).
Proof.
  intros HP Hf. induction fuel as [|fuel IH]; intros i; simpl.
  - apply halts_within_ret.
  - destruct (i <? n); [|apply halts_within_ret].
    apply halts_within_bind; [apply Hf|].
    intros [|]; [|apply halts_within_ret].
    apply halts_within_bind; [now apply halts_within_defined|].
    intros _. apply IH.
Qed.

Lemma halts_within_for_each_region {S} (P : halt -> Prop) rs o l
    (f : Z -> M S stop_iteration) :
  P (Abort BadAlignment) -> P (Undefined CounterOverflow) ->
  (forall id, halts_within P (f id)) ->
  halts_within P (for_each_region rs o l f).
Proof.
  intros Ha Hc Hf. unfold for_each_region, do_for_each_region.
  repeat (apply halts_within_bind; [now apply halts_within_assert|intros _]).
  now apply halts_within_region_loop.
Qed.

Lemma halts_within_for_each_id {S} (P : halt -> Prop) ids (f : Z -> M S unit) :
  (forall id, halts_within P (f id)) -> halts_within P (for_each_id ids f).
Proof.
  intros Hf. induction ids as [|id ids IH]; simpl.
  - apply halts_within_ret.
  - apply halts_within_bind; [apply Hf|intros _; apply IH].
Qed.

Lemma halts_within_on_mutex {A} (P : halt -> Prop) id (op : M mutex_state A) :
  P (Undefined DanglingRegion) -> halts_within P op ->
  halts_within P (on_mutex id op).
Proof.
  intros HP Hop t h t' H. unfold on_mutex in H.
  destruct (t !! id) as [r|]; [|inversion H; now subst].
  destruct (op (mutex r)) as [a m'|h1 m'] eqn:E; [discriminate|].
  inversion H; subst. eapply Hop; eassumption.
Qed.

Ltac halts_mutex :=
  let m := fresh "m" in let h := fresh "h" in let m' := fresh "m'" in
  let H := fresh "H" in
  intros m h m' H;
  repeat match type of H with
         | context [if ?b then _ else _] => destruct b
         | context [match ?x with _ => _ end] => destruct x
         end;
  inversion H; subst; split; discriminate.

Lemma halts_mutex_lock tid id : halts_within past_validation (mutex_lock tid id).
Proof. unfold mutex_lock. halts_mutex. Qed.
Lemma halts_mutex_try_lock tid : halts_within past_validation (mutex_try_lock tid).
Proof. unfold mutex_try_lock. halts_mutex. Qed.
Lemma halts_mutex_unlock tid : halts_within past_validation (mutex_unlock tid).
Proof. unfold mutex_unlock. halts_mutex. Qed.
Lemma halts_mutex_lock_shared tid id :
  halts_within past_validation (mutex_lock_shared tid id).
Proof. unfold mutex_lock_shared. halts_mutex. Qed.
Lemma halts_mutex_try_lock_shared tid :
  halts_within past_validation (mutex_try_lock_shared tid).
Proof. unfold mutex_try_lock_shared. halts_mutex. Qed.
Lemma halts_mutex_unlock_shared tid :
  halts_within past_validation (mutex_unlock_shared tid).
Proof. unfold mutex_unlock_shared. halts_mutex. Qed.

Lemma halts_get_locked_region id :
  halts_within past_validation (get_locked_region id).
Proof.
  intros t h t' H. unfold get_locked_region, assert in H.
  destruct (t !! id) as [r|]; [destruct (0 <? refcount r)|];
    inversion H; subst; split; discriminate.
Qed.

Lemma halts_get_and_lock_region id :
  halts_within past_validation (get_and_lock_region id).
Proof. intros t h t' H. discriminate. Qed.

Lemma halts_unlock_region id : halts_within past_validation (unlock_region id).
Proof.
  intros t h t' H. unfold unlock_region in H.
  destruct (t !! id) as [r|]; [destruct (_ =? 0)|];
    inversion H; subst; split; discriminate.
Qed.

Create HintDb halts discriminated.
#[local] Hint Resolve halts_within_ret halts_within_for_each_id
  halts_mutex_lock halts_mutex_try_lock halts_mutex_unlock
  halts_mutex_lock_shared halts_mutex_try_lock_shared halts_mutex_unlock_shared
  halts_get_locked_region halts_get_and_lock_region halts_unlock_region : halts.

Ltac halts_step :=
  first
    [ solve [auto with halts]
    | apply halts_within_for_each_region;
        [split; discriminate|split; discriminate|intros ?]
    | apply halts_within_on_mutex; [split; discriminate|]
    | apply halts_within_bind; [|intros ?] ].

Lemma halts_generic_try_lock rs o l
    (try_lock_f : Z -> M table bool) (unlock_f : Z -> M table unit) t h t' :
  (forall id, halts_within past_validation (try_lock_f id)) ->
  (forall id, halts_within past_validation (unlock_f id)) ->
  accepted o l ->
  generic_try_lock rs o l try_lock_f unlock_f t = Halt h t' ->
  past_validation h.
Proof.
  intros Htry Hun Ha H. unfold generic_try_lock in H.
  rewrite (bind_ok _ _ _ _ _ (validate_accepted o l _ Ha)) in H.
  match type of H with
  | context [for_each_region rs o l ?f ?s] =>
      destruct (for_each_region rs o l f s) as [[] fr|h1 fr] eqn:E
  end.
  - revert H. generalize (frame_table fr). intros t0 H.
    assert (Hw : halts_within past_validation
      ((if failed_to_lock_region fr
        then for_each_id (locked_region_ids fr) unlock_f else ret tt) ;;
       ret (negb (failed_to_lock_region fr)))).
    { apply halts_within_bind; [|intros; apply halts_within_ret].
      destruct (failed_to_lock_region fr); auto with halts. }
    eapply Hw; eassumption.
  - inversion H; subst.
    revert E. apply halts_within_for_each_region; try (split; discriminate).
    intros id fr0 h0 fr1 Hcb.
    destruct (try_lock_f id (frame_table fr0)) as [[|] t1|h1 t1] eqn:Et;
      try discriminate.
    inversion Hcb; subst. eapply Htry; eassumption.
Qed.

Lemma validate_rejected {S} o l (s : S) :
  U64.is_u64 o -> U64.is_u64 l ->
  l = 0 \/ U64.modulus <= o + l ->
  validate_parameters o l s = Halt (Abort InvalidRange) s.
Proof.
  intros Ho Hl Hbad. rewrite validate_parameters_spec by assumption.
  destruct (Z.ltb_spec 0 l); simpl; [|reflexivity].
  destruct (Z.ltb_spec (o + l) U64.modulus); [lia|reflexivity].
Qed.

Lemma generic_try_lock_rejected rs o l try_lock_f unlock_f t :
  U64.is_u64 o -> U64.is_u64 l ->
  l = 0 \/ U64.modulus <= o + l ->
  generic_try_lock rs o l try_lock_f unlock_f t = Halt (Abort InvalidRange) t.
Proof.
  intros Ho Hl Hbad. unfold generic_try_lock.
  rewrite (bind_halt _ _ _ _ _ (validate_rejected o l _ Ho Hl Hbad)).
  reflexivity.
Qed.

Lemma call_rejected rs std14 tid e o l t :
  U64.is_u64 o -> U64.is_u64 l ->
  l = 0 \/ U64.modulus <= o + l ->
  call rs std14 tid e o l t = Halt (Abort InvalidRange) t.
Proof.
  intros Ho Hl Hbad.
  pose proof (fun S s => validate_rejected (S := S) o l s Ho Hl Hbad) as Hv.
  destruct e; unfold call, lock, unlock, try_lock,
    lock_shared, unlock_shared, try_lock_shared;
    try destruct std14;
    first [ now apply generic_try_lock_rejected
          | unfold lock, unlock, try_lock;
            first [ now apply generic_try_lock_rejected
                  | apply bind_halt; apply bind_halt; apply Hv ] ].
Qed.

Lemma bind_ret_halt {S A B} (m : M S A) (b : B) s h s' :
  (m ;; ret b) s = Halt h s' -> m s = Halt h s'.
Proof.
  unfold bind, ret. destruct (m s); intros H; [discriminate|].
  inversion H. reflexivity.
Qed.

Lemma halts_within_apply {S A} (P : halt -> Prop) (m : M S A) s h s' :
  halts_within P m -> m s = Halt h s' -> P h.
Proof. intros Hw H. eapply Hw; eassumption. Qed.

Lemma call_halts rs std14 tid e o l t h t' :
  accepted o l ->
  call rs std14 tid e o l t = Halt h t' -> past_validation h.
Proof.
  intros Ha H.
  destruct e; unfold call, lock_shared, unlock_shared, try_lock_shared in H;
    try destruct std14; unfold lock, unlock, try_lock in H;
    try apply bind_ret_halt in H;
    first
      [ rewrite (bind_ok _ _ _ _ _ (validate_accepted o l _ Ha)) in H;
        eapply halts_within_apply; [|exact H]; repeat halts_step
      | eapply halts_generic_try_lock; [| |exact Ha|exact H]; intros id;
        repeat halts_step ].
Qed.

(** ** C6 *)

(** C6. A call of lock, try_lock, unlock or one of their shared variants
    ends in the failed assertion of validate_parameters exactly when the
    length is zero or offset + length does not fit 64 bits; the table is
    then the one the call started from.  Every other request passes
    validate_parameters. *)
Theorem rejected_iff_invalid rs std14 tid e o l t :
  U64.is_u64 o -> U64.is_u64 l ->
  (l = 0 \/ U64.modulus <= o + l ->
     call rs std14 tid e o l t = Halt (Abort InvalidRange) t) /\
  (forall t', call rs std14 tid e o l t = Halt (Abort InvalidRange) t' ->
     l = 0 \/ U64.modulus <= o + l) /\
  (0 < l /\ o + l < U64.modulus <-> validate_parameters o l t = Ok tt t).
Proof.
  intros Ho Hl. split; [|split].
  - now apply call_rejected.
  - intros t' H.
    destruct (Z.eq_dec l 0) as [|Hl0]; [now left|].
    destruct (Z.le_gt_cases U64.modulus (o + l)) as [|Hsum]; [now right|].
    exfalso. apply call_halts in H.
    + destruct H as [H _]. now apply H.
    + unfold accepted. unfold U64.is_u64 in *. repeat split; lia.
  - rewrite validate_parameters_spec by assumption.
    destruct (Z.ltb_spec 0 l); destruct (Z.ltb_spec (o + l) U64.modulus); simpl;
      split; intros H'; try reflexivity; try discriminate; lia.
Qed.

Lemma rejected_iff_invalid_witness :
  call 1024 true 0 Lock 0 0 ∅ = Halt (Abort InvalidRange) ∅ /\
  call 1024 true 0 TryLockShared U64.max 1 ∅ = Halt (Abort InvalidRange) ∅.
Proof.
  split.
  - refine (proj1 (rejected_iff_invalid 1024 true 0%nat Lock 0 0 ∅ _ _) _);
      unfold U64.is_u64, U64.modulus; lia.
  - refine (proj1 (rejected_iff_invalid 1024 true 0%nat TryLockShared U64.max 1 ∅ _ _) _);
      unfold U64.is_u64, U64.modulus, U64.max; lia.
Defined.

(** * Failed try_lock *)

(** ** C2 *)

(** C2. Region size 1024; thread 1 holds region 0 after lock(0, 1).  Thread
    0 then calls try_lock(0, 1): the call takes a reference on region 0,
    fails to lock its mutex and returns false, and the reference is never
    given back: the refcount of region 0 is 2 instead of 1.  When thread 1
    unlocks, the entry stays in the table with refcount 1 although nobody
    holds it.  (A region locked by this call before the failing one is
    given back: a try_lock(0, 2048) by thread 0 against region 1 held by
    thread 1 leaves region 0 out of the table.) *)
Theorem try_lock_failure_leaks_refcount :
  let held := {[ 0 := {| refcount := 1; mutex := Writer 1 |} ]} : table in
  lock 1024 1 0 1 ∅ = Ok tt held /\
  try_lock 1024 0 0 1 held =
    Ok false {[ 0 := {| refcount := 2; mutex := Writer 1 |} ]} /\
  (try_lock 1024 0 0 1 ;; unlock 1024 1 0 1) held =
    Ok tt {[ 0 := {| refcount := 1; mutex := unlocked |} ]} /\
  try_lock 1024 0 0 2048 {[ 1 := {| refcount := 1; mutex := Writer 1 |} ]} =
    Ok false {[ 1 := {| refcount := 2; mutex := Writer 1 |} ]}.
Proof. vm_compute. repeat split; reflexivity. Qed.

(** * Scoped locking *)

(** ** C3 *)

(** C3. Region size 1024, empty table, thread 0 calls with_lock(0, 1, op)
    with an operation that throws: the exception leaves with_lock with
    region 0 still in the table, refcount 1 and mutex owned by thread 0;
    unlock is not reached.  The same holds for with_lock_shared.  With an
    operation that returns, the table is empty again. *)
Theorem with_lock_leaks_on_exception :
  with_lock 1024 0 0 1 (Halt Thrown) ∅ =
    Halt Thrown {[ 0 := {| refcount := 1; mutex := Writer 0 |} ]} /\
  with_lock_shared 1024 true 0 0 1 (Halt Thrown) ∅ =
    Halt Thrown {[ 0 := {| refcount := 1; mutex := Readers {[ 0%nat ]} |} ]} /\
  with_lock_shared 1024 false 0 0 1 (Halt Thrown) ∅ =
    Halt Thrown {[ 0 := {| refcount := 1; mutex := Writer 0 |} ]} /\
  with_lock 1024 0 0 1 (ret tt) ∅ = Ok tt ∅.
Proof. vm_compute. repeat split; reflexivity. Qed.

(** * Reference counts and the table *)

Lemma preserves_ret {S A} (K : S -> Prop) (a : A) : preserves K (ret a).
Proof. intros s Hs. exact Hs. Qed.

Lemma preserves_bind {S A B} (K : S -> Prop) (m : M S A) (k : A -> M S B) :
  preserves K m -> (forall a, preserves K (k a)) -> preserves K (bind m k).
Proof.
  intros Hm Hk s Hs. unfold bind. specialize (Hm s Hs).
  destruct (m s) as [a s1|h s1]; simpl in *; [now apply Hk|exact Hm].
Qed.

Lemma preserves_assert {S} (K : S -> Prop) a b : preserves K (assert a b).
Proof. intros s Hs. unfold assert. now destruct b. Qed.

Lemma preserves_defined {S} (K : S -> Prop) u b : preserves K (defined u b).
Proof. intros s Hs. unfold defined. now destruct b. Qed.

Lemma preserves_validate {S} (K : S -> Prop) o l :
  preserves K (validate_parameters o l).
Proof.
  unfold validate_parameters.
  apply preserves_bind; [apply preserves_assert|intros _; apply preserves_assert].
Qed.

Lemma preserves_for_each_id {S} (K : S -> Prop) ids (f : Z -> M S unit) :
  (forall id, preserves K (f id)) -> preserves K (for_each_id ids f).
Proof.
  intros Hf. induction ids as [|id ids IH]; simpl.
  - apply preserves_ret.
  - apply preserves_bind; [apply Hf|intros _; apply IH].
Qed.

(** A walk over consecutive ids, with a property [J id] of the state that
    holds when the callback is about to run on [id]. *)
Lemma visit_seqZ_post {St} (J : Z -> St -> Prop) (Q : St -> Prop)
    (f : Z -> M St stop_iteration) (k : M St unit) first cnt s :
  (forall id s, J id s -> Q s) ->
  (forall s, final_state (k s) = s) ->
  (forall id s, first <= id < first + cnt ->
     J id s -> J (id + 1) (final_state (f id s))) ->
  J first s -> Q (final_state (visit (seqZ first cnt) f k s)).
Proof.
  intros HQ Hk Hf.
  destruct (Z.le_gt_cases cnt 0) as [Hc|Hc].
  { rewrite seqZ_nil by lia. simpl. intros HJ. rewrite Hk. eauto. }
  revert Hf. rewrite <- (Z2Nat.id cnt) by lia.
  generalize (Z.to_nat cnt) as c. clear Hc cnt.
  intros c. revert first s. induction c as [|c IH]; intros first s Hf HJ.
  - rewrite seqZ_nil by lia. simpl. rewrite Hk. eauto.
  - rewrite seqZ_cons by lia. simpl. unfold bind.
    specialize (Hf first s ltac:(lia) HJ) as Hstep.
    destruct (f first s) as [[|] s1|h s1]; simpl in *; eauto.
    replace (Z.pred (Z.of_nat (S c))) with (Z.of_nat c) by lia.
    apply IH; [|exact Hstep].
    intros id s0 Hid. apply Hf. lia.
Qed.

Lemma table_inv_counts t : table_inv t <-> forall id r, t !! id = Some r -> 0 < refcount r.
Proof.
  unfold table_inv, refcount_of. split.
  - intros H id r Hr. specialize (H id). rewrite Hr in H. apply H. eauto.
  - intros H id. destruct (t !! id) as [r|] eqn:E.
    + split; [intros _; eauto|eauto].
    + split; [intros [? ?]; discriminate|lia].
Qed.

Lemma bounded_counts n t : bounded n t -> forall id r, t !! id = Some r -> refcount r <= n.
Proof. intros H id r Hr. specialize (H id). unfold refcount_of in H. now rewrite Hr in H. Qed.

Lemma counts_in_inv hi t : counts_in hi t -> table_inv t /\ bounded (Z.max 0 hi) t.
Proof.
  intros H. split.
  - apply table_inv_counts. intros id r Hr. now apply (H id r).
  - intros id. unfold refcount_of. destruct (t !! id) as [r|] eqn:E; [|lia].
    specialize (H id r E). lia.
Qed.

Lemma counts_upto_in hi lo t : counts_upto hi lo t -> counts_in hi t.
Proof. intros H id r Hr. now apply (H id r). Qed.

(** *** The three table operations *)

Lemma get_and_lock_region_counts hi id t :
  0 < hi <= U64.max -> counts_upto hi id t ->
  counts_upto hi (id + 1) (final_state (get_and_lock_region id t)).
Proof.
  unfold U64.max. intros Hhi H. unfold get_and_lock_region. simpl.
  intros id' r'. rewrite lookup_insert. case_decide as Hd.
  - subst id'. intros [= <-]. simpl.
    destruct (t !! id) as [r|] eqn:E.
    + destruct (H id r E) as [Hr Hlt]. specialize (Hlt ltac:(lia)).
      unfold U64.add, U64.modulus. rewrite Z.mod_small by lia. split; lia.
    + unfold new_region, U64.add. simpl.
      change ((0 + 1) mod U64.modulus) with 1. split; lia.
  - intros Hr. destruct (H id' r' Hr) as [Hc Hlt]. split; [exact Hc|].
    intros Hle. apply Hlt. lia.
Qed.

Lemma on_mutex_counts {A} (K : table -> Prop) id (op : M mutex_state A) :
  (forall t r m', t !! id = Some r -> K t ->
     K (<[id := {| refcount := refcount r; mutex := m' |}]> t)) ->
  preserves K (on_mutex id op).
Proof.
  intros HK t Ht. unfold on_mutex.
  destruct (t !! id) as [r|] eqn:E; [|exact Ht].
  destruct (op (mutex r)) as [a m'|h m']; simpl; [|exact Ht].
  now apply HK.
Qed.

Lemma counts_upto_set_mutex hi lo id t r m' :
  t !! id = Some r -> counts_upto hi lo t ->
  counts_upto hi lo (<[id := {| refcount := refcount r; mutex := m' |}]> t).
Proof.
  intros E H id' r'. rewrite lookup_insert. case_decide as Hd.
  - subst id'. intros [= <-]. simpl. exact (H id r E).
  - apply H.
Qed.

Lemma counts_in_set_mutex hi id t r m' :
  t !! id = Some r -> counts_in hi t ->
  counts_in hi (<[id := {| refcount := refcount r; mutex := m' |}]> t).
Proof.
  intros E H id' r'. rewrite lookup_insert. case_decide as Hd.
  - subst id'. intros [= <-]. simpl. exact (H id r E).
  - apply H.
Qed.

Lemma get_locked_region_preserves (K : table -> Prop) id :
  preserves K (get_locked_region id).
Proof.
  intros t Ht. unfold get_locked_region.
  destruct (t !! id) as [r|]; [|exact Ht]. now apply preserves_assert.
Qed.

Lemma unlock_region_counts hi id :
  hi <= U64.max -> preserves (counts_in hi) (unlock_region id).
Proof.
  unfold U64.max. intros Hhi t Ht. unfold unlock_region.
  destruct (t !! id) as [r|] eqn:E; [|exact Ht].
  pose proof (Ht id r E) as Hr.
  assert (Hc : U64.sub (refcount r) 1 = refcount r - 1).
  { unfold U64.sub, U64.modulus. apply Z.mod_small. lia. }
  rewrite Hc. destruct (Z.eqb_spec (refcount r - 1) 0) as [H0|H0]; simpl.
  - intros id' r'. rewrite lookup_delete. case_decide; [discriminate|apply Ht].
  - intros id' r'. rewrite lookup_insert. case_decide as Hd.
    + intros [= <-]. simpl. lia.
    + apply Ht.
Qed.

(** *** The callbacks *)

Lemma acquire_counts {A} hi id (op : M mutex_state A) t :
  0 < hi <= U64.max -> counts_upto hi id t ->
  counts_upto hi (id + 1)
    (final_state ((get_and_lock_region id ;; on_mutex id op) t)).
Proof.
  intros Hhi Ht. unfold bind at 1.
  pose proof (get_and_lock_region_counts hi id t Hhi Ht) as H1.
  destruct (get_and_lock_region id t) as [[] t1|h t1]; simpl in H1; [|exact H1].
  apply (on_mutex_counts (counts_upto hi (id + 1))); [|exact H1].
  intros t0 r m' E. now apply counts_upto_set_mutex.
Qed.

Lemma acquire_no_counts {A} hi id (op : M mutex_state A) t :
  0 < hi <= U64.max -> counts_upto hi id t ->
  counts_upto hi (id + 1)
    (final_state ((get_and_lock_region id ;; on_mutex id op ;; ret no) t)).
Proof.
  intros Hhi Ht.
  pose proof (acquire_counts hi id op t Hhi Ht) as H.
  unfold bind in *.
  destruct (get_and_lock_region id t) as [[] t1|h t1]; [|exact H].
  destruct (on_mutex id op t1) as [a t2|h t2]; exact H.
Qed.

Lemma release_counts {A} hi id (op : M mutex_state A) :
  hi <= U64.max ->
  preserves (counts_in hi)
    (get_locked_region id ;; on_mutex id op ;; unlock_region id).
Proof.
  intros Hhi.
  apply preserves_bind; [apply get_locked_region_preserves|intros _].
  apply preserves_bind; [|intros _; now apply unlock_region_counts].
  apply on_mutex_counts. intros t r m' E. now apply counts_in_set_mutex.
Qed.

Lemma release_no_counts {A} hi id (op : M mutex_state A) :
  hi <= U64.max ->
  preserves (counts_in hi)
    (get_locked_region id ;; on_mutex id op ;; unlock_region id ;; ret no).
Proof.
  intros Hhi.
  apply preserves_bind; [apply get_locked_region_preserves|intros _].
  apply preserves_bind.
  { apply on_mutex_counts. intros t r m' E. now apply counts_in_set_mutex. }
  intros _. apply preserves_bind; [now apply unlock_region_counts|].
  intros _. apply preserves_ret.
Qed.

(** *** The iteration *)

Lemma region_loop_preserves {St} (K : St -> Prop) rs base n
    (f : Z -> M St stop_iteration) :
  (forall id, preserves K (f id)) ->
  forall fuel i, preserves K (region_loop rs base n f fuel i).
Proof.
  intros Hf. induction fuel as [|fuel IH]; intros i; simpl.
  - apply preserves_ret.
  - destruct (i <? n); [|apply preserves_ret].
    apply preserves_bind; [apply Hf|].
    intros [|]; [|apply preserves_ret].
    apply preserves_bind; [apply preserves_defined|intros _; apply IH].
Qed.

Lemma for_each_region_preserves {St} (K : St -> Prop) rs o l
    (f : Z -> M St stop_iteration) :
  (forall id, preserves K (f id)) -> preserves K (for_each_region rs o l f).
Proof.
  intros Hf. unfold for_each_region, do_for_each_region.
  repeat (apply preserves_bind; [apply preserves_assert|intros _]).
  now apply region_loop_preserves.
Qed.

Lemma for_each_region_counts {St} (proj : St -> table) hi rs o l
    (f : Z -> M St stop_iteration) s :
  constructed rs -> accepted o l ->
  (forall id s, counts_upto hi id (proj s) ->
     counts_upto hi (id + 1) (proj (final_state (f id s)))) ->
  counts_upto hi (o / rs) (proj s) ->
  counts_in hi (proj (final_state (for_each_region rs o l f s))).
Proof.
  intros Hc Ha Hf Hs. rewrite for_each_region_visit by assumption.
  apply (visit_seqZ_post (fun id s => counts_upto hi id (proj s))
                         (fun s => counts_in hi (proj s))).
  - intros id s0. apply counts_upto_in.
  - intros s0. unfold loop_exit, defined. now destruct (_ <=? _).
  - intros id s0 _. apply Hf.
  - exact Hs.
Qed.

Lemma generic_try_lock_counts hi rs o l
    (try_lock_f : Z -> M table bool) (unlock_f : Z -> M table unit) t :
  constructed rs -> accepted o l ->
  (forall id t, counts_upto hi id t ->
     counts_upto hi (id + 1) (final_state (try_lock_f id t))) ->
  (forall id, preserves (counts_in hi) (unlock_f id)) ->
  counts_upto hi (o / rs) t ->
  counts_in hi (final_state (generic_try_lock rs o l try_lock_f unlock_f t)).
Proof.
  intros Hc Ha Htry Hun Ht. unfold generic_try_lock.
  rewrite (bind_ok _ _ _ _ _ (validate_accepted o l _ Ha)).
  match goal with
  | |- context [for_each_region rs o l ?f ?s] =>
      pose proof (for_each_region_counts frame_table hi rs o l f s Hc Ha) as H;
      destruct (for_each_region rs o l f s) as [[] fr|h fr]
  end; simpl in H.
  - assert (Hfr : counts_in hi (frame_table fr)).
    { apply H; [|exact Ht]. intros id fr0 H0. specialize (Htry id _ H0).
      destruct (try_lock_f id (frame_table fr0)) as [[|] t1|h1 t1]; exact Htry. }
    revert Hfr. generalize (frame_table fr). intros t0 Ht0.
    apply (preserves_bind (counts_in hi)); [|intros; apply preserves_ret|exact Ht0].
    destruct (failed_to_lock_region fr); [|apply preserves_ret].
    now apply preserves_for_each_id.
  - simpl. apply H; [|exact Ht]. intros id fr0 H0. specialize (Htry id _ H0).
    destruct (try_lock_f id (frame_table fr0)) as [[|] t1|h1 t1]; exact Htry.
Qed.

Lemma final_state_bind_ret {St A B} (m : M St A) (b : B) s :
  final_state ((m ;; ret b) s) = final_state (m s).
Proof. unfold bind, ret. now destruct (m s). Qed.

Lemma accepted_or_rejected o l :
  U64.is_u64 o -> U64.is_u64 l ->
  accepted o l \/ (l = 0 \/ U64.modulus <= o + l).
Proof.
  intros Ho Hl. unfold accepted.
  destruct (Z.eq_dec l 0); [right; now left|].
  destruct (Z.le_gt_cases U64.modulus (o + l)); [right; now right|].
  left. unfold U64.is_u64 in *. repeat split; lia.
Qed.

Lemma call_counts rs std14 tid e o l t hi :
  constructed rs -> accepted o l -> 0 < hi <= U64.max ->
  counts_upto hi (o / rs) t ->
  counts_in hi (final_state (call rs std14 tid e o l t)).
Proof.
  intros Hc Ha Hhi Ht.
  assert (Hacq : forall op : Z -> M mutex_state unit,
    counts_in hi (final_state
      ((validate_parameters o l ;;
        for_each_region rs o l (fun region_id =>
          get_and_lock_region region_id ;;
          on_mutex region_id (op region_id) ;; ret no)) t))).
  { intros op. rewrite (bind_ok _ _ _ _ _ (validate_accepted o l _ Ha)).
    apply (for_each_region_counts (fun t => t)); try assumption.
    intros id t0. now apply acquire_no_counts. }
  assert (Hrel : forall op : M mutex_state unit,
    counts_in hi (final_state
      ((validate_parameters o l ;;
        for_each_region rs o l (fun region_id =>
          get_locked_region region_id ;;
          on_mutex region_id op ;;
          unlock_region region_id ;; ret no)) t))).
  { intros op. rewrite (bind_ok _ _ _ _ _ (validate_accepted o l _ Ha)).
    apply (for_each_region_preserves (counts_in hi)).
    - intros id. apply release_no_counts. lia.
    - eapply counts_upto_in, Ht. }
  assert (Htry : forall (op1 : M mutex_state bool) (op2 : M mutex_state unit),
    counts_in hi (final_state
      (generic_try_lock rs o l
         (fun region_id => get_and_lock_region region_id ;; on_mutex region_id op1)
         (fun region_id => get_locked_region region_id ;;
                           on_mutex region_id op2 ;;
                           unlock_region region_id) t))).
  { intros op1 op2. apply generic_try_lock_counts; try assumption.
    - intros id t0. now apply acquire_counts.
    - intros id. apply release_counts. lia. }
  destruct e; unfold call, lock_shared, try_lock_shared, unlock_shared;
    try destruct std14; unfold lock, try_lock, unlock;
    rewrite ?final_state_bind_ret;
    first [ apply (Hacq (mutex_lock tid))
          | apply (Hacq (mutex_lock_shared tid))
          | apply Hrel
          | apply Htry ].
Qed.

Lemma get_and_lock_region_spec id t :
  exists t',
    get_and_lock_region id t = Ok tt t' /\
    is_Some (t' !! id) /\
    refcount_of t' id = U64.add (refcount_of t id) 1 /\
    (forall id', id' <> id -> t' !! id' = t !! id').
Proof.
  eexists. split; [reflexivity|]. unfold refcount_of.
  rewrite lookup_insert_eq. split; [eauto|]. split.
  - simpl. now destruct (t !! id).
  - intros id' Hne. now rewrite lookup_insert_ne.
Qed.

Lemma unlock_region_spec id t :
  0 < refcount_of t id < U64.modulus ->
  exists t',
    unlock_region id t = Ok tt t' /\
    refcount_of t' id = refcount_of t id - 1 /\
    (t' !! id = None <-> refcount_of t id = 1) /\
    (forall id', id' <> id -> t' !! id' = t !! id').
Proof.
  unfold refcount_of, unlock_region, U64.modulus.
  destruct (t !! id) as [r|] eqn:E; [|lia]. intros Hr.
  assert (Hc : U64.sub (refcount r) 1 = refcount r - 1).
  { unfold U64.sub, U64.modulus. apply Z.mod_small. lia. }
  rewrite Hc. destruct (Z.eqb_spec (refcount r - 1) 0) as [H0|H0];
    eexists; (split; [reflexivity|]).
  - rewrite lookup_delete_eq. split; [lia|]. split; [split; [lia|reflexivity]|].
    intros id' Hne. now rewrite lookup_delete_ne.
  - rewrite lookup_insert_eq. simpl. split; [reflexivity|].
    split; [split; [discriminate|lia]|].
    intros id' Hne. now rewrite lookup_insert_ne.
Qed.

(** ** C7 *)

(** C7. A region is in the table if and only if its reference count is
    positive, and this holds of the table every public operation leaves
    behind (whether the operation returns, blocks or aborts), for reference
    counts below the largest 64-bit value.  get_and_lock_region, the only
    code that adds an entry, leaves the region present with its count
    raised by one, from 0 for an absent region; unlock_region, the only
    code that erases one, lowers the count by one and erases the entry
    exactly when the count was 1. *)
Theorem region_present_iff_referenced rs std14 tid e o l t n :
  constructed rs -> U64.is_u64 o -> U64.is_u64 l ->
  0 <= n < U64.max -> table_inv t -> bounded n t ->
  (table_inv (final_state (call rs std14 tid e o l t)) /\
   bounded (n + 1) (final_state (call rs std14 tid e o l t))) /\
  (forall id t0, exists t',
     get_and_lock_region id t0 = Ok tt t' /\
     is_Some (t' !! id) /\
     refcount_of t' id = U64.add (refcount_of t0 id) 1 /\
     (forall id', id' <> id -> t' !! id' = t0 !! id')) /\
  (forall id t0, 0 < refcount_of t0 id < U64.modulus -> exists t',
     unlock_region id t0 = Ok tt t' /\
     refcount_of t' id = refcount_of t0 id - 1 /\
     (t' !! id = None <-> refcount_of t0 id = 1) /\
     (forall id', id' <> id -> t' !! id' = t0 !! id')).
Proof.
  intros Hc Ho Hl Hn Hinv Hb.
  split; [|split; [apply get_and_lock_region_spec|apply unlock_region_spec]].
  destruct (accepted_or_rejected o l Ho Hl) as [Ha|Hbad].
  - assert (Hin : counts_in (n + 1) (final_state (call rs std14 tid e o l t))).
    { apply call_counts; try assumption; [lia|].
      intros id r Hr. pose proof (bounded_counts n t Hb id r Hr).
      pose proof (proj1 (table_inv_counts t) Hinv id r Hr). lia. }
    apply counts_in_inv in Hin. now rewrite Z.max_r in Hin by lia.
  - rewrite call_rejected by assumption. simpl. split; [exact Hinv|].
    intros id. specialize (Hb id). lia.
Qed.

Lemma region_present_iff_referenced_witness :
  table_inv (final_state (call 1024 true 0 Lock 0 2048 ∅)) /\
  bounded 1 (final_state (call 1024 true 0 Lock 0 2048 ∅)).
Proof.
  refine (proj1 (region_present_iff_referenced
                   1024 true 0%nat Lock 0 2048 ∅ 0 _ _ _ _ _ _)).
  - split; [unfold U64.is_u64, U64.modulus; lia|reflexivity].
  - unfold U64.is_u64, U64.modulus; lia.
  - unfold U64.is_u64, U64.modulus; lia.
  - unfold U64.max; lia.
  - intros id. unfold refcount_of. rewrite lookup_empty. split.
    + intros [x Hx]. discriminate.
    + lia.
  - intros id. unfold refcount_of. rewrite lookup_empty. lia.
Defined.

(** * Balanced sequences of calls *)

(** A walk that returns: the callback returned on every id, and either
    never asked to stop or stopped in a state [R]. *)
Lemma visit_seqZ_ok {St} (J : Z -> St -> Prop) (R : St -> Prop)
    (f : Z -> M St stop_iteration) (k : M St unit) first cnt s s' :
  0 <= cnt ->
  (forall s s1, k s = Ok tt s1 -> s1 = s) ->
  (forall id s s1, first <= id < first + cnt ->
     J id s -> f id s = Ok no s1 -> J (id + 1) s1) ->
  (forall id s s1, first <= id < first + cnt ->
     J id s -> f id s = Ok yes s1 -> R s1) ->
  J first s ->
  visit (seqZ first cnt) f k s = Ok tt s' ->
  J (first + cnt) s' \/ R s'.
Proof.
  intros Hcnt Hk. rewrite <- (Z2Nat.id cnt) by lia.
  generalize (Z.to_nat cnt) as c. clear Hcnt cnt.
  intros c. revert first s. induction c as [|c IH]; intros first s Hno Hyes HJ Hv.
  - rewrite seqZ_nil in Hv by lia. simpl in Hv. apply Hk in Hv. subst s'.
    left. now rewrite Z.add_0_r.
  - rewrite seqZ_cons in Hv by lia. simpl in Hv. unfold bind in Hv.
    destruct (f first s) as [[|] s1|h s1] eqn:E; [| |discriminate].
    + replace (Z.pred (Z.of_nat (S c))) with (Z.of_nat c) in Hv by lia.
      apply IH in Hv.
      * replace (first + Z.of_nat (S c)) with (Z.succ first + Z.of_nat c) by lia.
        exact Hv.
      * intros id s0 s2 Hid. apply Hno. lia.
      * intros id s0 s2 Hid. apply Hyes. lia.
      * apply (Hno first s s1); [lia|exact HJ|exact E].
    + inversion Hv; subst. right. apply (Hyes first s s'); [lia|exact HJ|exact E].
Qed.

Lemma loop_exit_ok {St} rs l (s s1 : St) : loop_exit rs l s = Ok tt s1 -> s1 = s.
Proof. unfold loop_exit, defined. destruct (_ <=? _); now intros [= <-]. Qed.

Lemma elem_of_region_ids rs o l id :
  constructed rs -> accepted o l ->
  id ∈ region_ids rs o l <->
  o / rs <= id < o / rs + Z.min (region_count rs l) (INT_MAX + 1).
Proof. intros Hc Ha. rewrite region_ids_seqZ by assumption. apply elem_of_seqZ. Qed.

Lemma refcount_of_get_and_lock_region id t t1 id' :
  get_and_lock_region id t = Ok tt t1 ->
  refcount_of t1 id' =
  if bool_decide (id' = id) then U64.add (refcount_of t id) 1
  else refcount_of t id'.
Proof.
  intros [= <-]. unfold refcount_of. rewrite lookup_insert.
  case_bool_decide; case_decide; try congruence; simpl.
  now destruct (t !! id).
Qed.

Lemma refcount_of_on_mutex {A} id (op : M mutex_state A) t a t1 id' :
  on_mutex id op t = Ok a t1 -> refcount_of t1 id' = refcount_of t id'.
Proof.
  unfold on_mutex. destruct (t !! id) as [r|] eqn:E; [|discriminate].
  destruct (op (mutex r)) as [a0 m'|h m']; [|discriminate].
  intros [= _ <-]. unfold refcount_of. rewrite lookup_insert.
  case_decide; [subst; now rewrite E|reflexivity].
Qed.

Lemma get_locked_region_ok id t t1 :
  get_locked_region id t = Ok tt t1 -> t1 = t /\ 0 < refcount_of t id.
Proof.
  unfold get_locked_region, refcount_of, assert.
  destruct (t !! id) as [r|]; [|discriminate].
  destruct (Z.ltb_spec 0 (refcount r)); [|discriminate].
  intros [= <-]. auto.
Qed.

Lemma refcount_of_unlock_region id t t1 id' :
  0 < refcount_of t id < U64.modulus ->
  unlock_region id t = Ok tt t1 ->
  refcount_of t1 id' =
  if bool_decide (id' = id) then refcount_of t id - 1 else refcount_of t id'.
Proof.
  intros Hr H. destruct (unlock_region_spec id t Hr) as (t2 & E & Hid & _ & Hother).
  rewrite E in H. injection H as <-. case_bool_decide as Hd.
  - now subst.
  - unfold refcount_of. now rewrite Hother.
Qed.

Lemma refcount_of_nonneg t id : table_inv t -> 0 <= refcount_of t id.
Proof.
  intros Hinv. unfold refcount_of. destruct (t !! id) as [r|] eqn:E; [|lia].
  pose proof (proj1 (table_inv_counts t) Hinv id r E). lia.
Qed.

(** A returning walk of an acquiring callback raises the count of every
    visited id by one. *)
Lemma acquire_moves {A} rs o l (op : Z -> M mutex_state A) (x : A -> stop_iteration)
    t t' c0 :
  constructed rs -> accepted o l ->
  bounded c0 t -> c0 < U64.max -> table_inv t ->
  (forall a, x a = no) ->
  for_each_region rs o l (fun region_id =>
    get_and_lock_region region_id ;;
    let* a := on_mutex region_id (op region_id) in ret (x a)) t = Ok tt t' ->
  counts_moved 1 (o / rs)
    (o / rs + Z.min (region_count rs l) (INT_MAX + 1)) t t'.
Proof.
  intros Hc Ha Hb Hc0 Hinv Hx H.
  pose proof (region_count_nonneg rs l Hc) as Hn.
  rewrite for_each_region_visit in H by assumption.
  apply (visit_seqZ_ok (fun lo t1 => counts_moved 1 (o / rs) lo t t1)
                       (fun _ => False)) in H.
  - destruct H as [H|[]]. exact H.
  - unfold INT_MAX. lia.
  - intros s s1. apply loop_exit_ok.
  - intros id s s1 Hid HJ Hf. unfold bind in Hf.
    destruct (get_and_lock_region id s) as [[] s2|] eqn:E1; [|discriminate].
    destruct (on_mutex id (op id) s2) as [a s3|] eqn:E2; [|discriminate].
    injection Hf as _ <-. intros id'.
    rewrite (refcount_of_on_mutex _ _ _ _ _ id' E2).
    rewrite (refcount_of_get_and_lock_region _ _ _ id' E1).
    rewrite !HJ.
    assert (Hlt : refcount_of t id + 1 < U64.modulus).
    { specialize (Hb id). unfold U64.max, U64.modulus in *. lia. }
    pose proof (refcount_of_nonneg t id Hinv).
    unfold U64.add. repeat case_bool_decide; subst; try lia.
    rewrite Z.add_0_r. rewrite Z.mod_small by lia. reflexivity.
  - intros id s s1 Hid HJ Hf. unfold bind in Hf.
    destruct (get_and_lock_region id s) as [[] s2|] eqn:E1; [|discriminate].
    destruct (on_mutex id (op id) s2) as [a s3|] eqn:E2; [|discriminate].
    unfold ret in Hf. rewrite Hx in Hf. discriminate.
  - intros id. case_bool_decide; lia.
Qed.

(** A returning walk of a releasing callback lowers it by one. *)
Lemma release_moves rs o l (op : M mutex_state unit) t t' :
  constructed rs -> accepted o l ->
  bounded U64.max t ->
  for_each_region rs o l (fun region_id =>
    get_locked_region region_id ;;
    on_mutex region_id op ;;
    unlock_region region_id ;; ret no) t = Ok tt t' ->
  counts_moved (-1) (o / rs)
    (o / rs + Z.min (region_count rs l) (INT_MAX + 1)) t t'.
Proof.
  intros Hc Ha Hb H.
  pose proof (region_count_nonneg rs l Hc) as Hn.
  rewrite for_each_region_visit in H by assumption.
  apply (visit_seqZ_ok (fun lo t1 => counts_moved (-1) (o / rs) lo t t1)
                       (fun _ => False)) in H.
  - destruct H as [H|[]]. exact H.
  - unfold INT_MAX. lia.
  - intros s s1. apply loop_exit_ok.
  - intros id s s1 Hid HJ Hf. unfold bind in Hf.
    destruct (get_locked_region id s) as [[] s2|] eqn:E1; [|discriminate].
    apply get_locked_region_ok in E1. destruct E1 as [-> Hpos].
    destruct (on_mutex id op s) as [[] s3|] eqn:E2; [|discriminate].
    destruct (unlock_region id s3) as [[] s4|] eqn:E3; [|discriminate].
    injection Hf as <-. intros id'.
    assert (Hr3 : refcount_of s3 id = refcount_of t id).
    { rewrite (refcount_of_on_mutex _ _ _ _ _ id E2). rewrite HJ.
      case_bool_decide; lia. }
    rewrite (refcount_of_unlock_region _ _ _ id' ltac:(
      rewrite Hr3; rewrite HJ in Hpos; specialize (Hb id);
      unfold U64.max, U64.modulus in *; case_bool_decide; lia) E3).
    rewrite Hr3, (refcount_of_on_mutex _ _ _ _ _ id' E2), HJ.
    repeat case_bool_decide; subst; lia.
  - intros id s s1 Hid HJ Hf. unfold bind in Hf.
    destruct (get_locked_region id s) as [[] s2|]; [|discriminate].
    destruct (on_mutex id op s2) as [[] s3|]; [|discriminate].
    destruct (unlock_region id s3) as [[] s4|]; discriminate.
  - intros id. case_bool_decide; lia.
Qed.

Lemma generic_try_lock_moves rs o l (op : M mutex_state bool)
    (unlock_f : Z -> M table unit) t t' c0 :
  constructed rs -> accepted o l ->
  bounded c0 t -> c0 < U64.max -> table_inv t ->
  generic_try_lock rs o l
    (fun region_id => get_and_lock_region region_id ;; on_mutex region_id op)
    unlock_f t = Ok true t' ->
  counts_moved 1 (o / rs)
    (o / rs + Z.min (region_count rs l) (INT_MAX + 1)) t t'.
Proof.
  intros Hc Ha Hb Hc0 Hinv H.
  pose proof (region_count_nonneg rs l Hc) as Hn.
  unfold generic_try_lock in H.
  rewrite (bind_ok _ _ _ _ _ (validate_accepted o l _ Ha)) in H.
  rewrite for_each_region_visit in H by assumption.
  match type of H with
  | context [visit ?ids ?f ?k ?s] =>
      destruct (visit ids f k s) as [[] fr|h fr] eqn:E; [|discriminate]
  end.
  apply (visit_seqZ_ok
           (fun lo fr => failed_to_lock_region fr = false /\
                         counts_moved 1 (o / rs) lo t (frame_table fr))
           (fun fr => failed_to_lock_region fr = true)) in E.
  - destruct E as [[Hf HJ]|Hf]; rewrite Hf in H.
    + injection H as <-. exact HJ.
    + unfold bind, ret in H.
      destruct (for_each_id _ _ _); discriminate.
  - unfold INT_MAX. lia.
  - intros s s1. apply loop_exit_ok.
  - intros id s s1 Hid [Hfl HJ] Hf. unfold bind in Hf.
    destruct (get_and_lock_region id (frame_table s)) as [[] s2|] eqn:E1;
      [|discriminate].
    destruct (on_mutex id op s2) as [[|] s3|] eqn:E2; [|discriminate..].
    injection Hf as <-. simpl. split; [exact Hfl|]. intros id'.
    rewrite (refcount_of_on_mutex _ _ _ _ _ id' E2).
    rewrite (refcount_of_get_and_lock_region _ _ _ id' E1).
    rewrite !HJ.
    assert (Hlt : refcount_of t id + 1 < U64.modulus).
    { specialize (Hb id). unfold U64.max, U64.modulus in *. lia. }
    pose proof (refcount_of_nonneg t id Hinv).
    unfold U64.add. repeat case_bool_decide; subst; try lia.
    rewrite Z.add_0_r. rewrite Z.mod_small by lia. reflexivity.
  - intros id s s1 Hid [Hfl HJ] Hf. unfold bind in Hf.
    destruct (get_and_lock_region id (frame_table s)) as [[] s2|] eqn:E1;
      [|discriminate].
    destruct (on_mutex id op s2) as [[|] s3|] eqn:E2; [discriminate| |discriminate].
    injection Hf as <-. reflexivity.
  - split; [reflexivity|]. intros id. simpl. case_bool_decide; lia.
Qed.

Lemma bind_ret_ok {St A B} (m : M St A) (b : B) s b' s' :
  (m ;; ret b) s = Ok b' s' -> b' = b /\ exists a, m s = Ok a s'.
Proof.
  unfold bind, ret. destruct (m s) as [a s1|]; [|discriminate].
  intros [= <- <-]. eauto.
Qed.

Lemma counts_moved_covers rs o l d t t' id :
  constructed rs -> accepted o l ->
  counts_moved d (o / rs)
    (o / rs + Z.min (region_count rs l) (INT_MAX + 1)) t t' ->
  refcount_of t' id = refcount_of t id + d * covers rs id (o, l).
Proof.
  intros Hc Ha H. rewrite H. unfold covers. simpl.
  pose proof (elem_of_region_ids rs o l id Hc Ha) as Hel.
  repeat case_bool_decide; try lia; tauto.
Qed.

(** What a returning call does to the reference counts. *)
Lemma call_moves rs std14 tid e o l t t' c0 :
  constructed rs -> accepted o l ->
  table_inv t -> bounded c0 t -> c0 < U64.max ->
  call rs std14 tid e o l t = Ok true t' ->
  forall id, refcount_of t' id =
             refcount_of t id +
             (if acquires e then 1 else -1) * covers rs id (o, l).
Proof.
  intros Hc Ha Hinv Hb Hc0 H id.
  assert (Hb' : bounded U64.max t).
  { intros id'. specialize (Hb id'). lia. }
  pose proof (fun St s => validate_accepted (S := St) o l s Ha) as Hv.
  destruct e; unfold call, lock_shared, try_lock_shared, unlock_shared in H;
    try destruct std14; unfold lock, try_lock, unlock in H;
    try (apply bind_ret_ok in H; destruct H as [_ [[] H]];
         rewrite (bind_ok _ _ _ _ _ (Hv _ _)) in H);
    simpl; apply counts_moved_covers; try assumption.
  all: first
    [ exact (acquire_moves rs o l (mutex_lock tid) (fun _ => no) t t' c0
               Hc Ha Hb Hc0 Hinv (fun _ => eq_refl) H)
    | exact (acquire_moves rs o l (mutex_lock_shared tid) (fun _ => no) t t' c0
               Hc Ha Hb Hc0 Hinv (fun _ => eq_refl) H)
    | exact (release_moves rs o l _ t t' Hc Ha Hb' H)
    | exact (generic_try_lock_moves rs o l _ _ t t' c0 Hc Ha Hb Hc0 Hinv H) ].
Qed.

Lemma call_inv rs std14 tid e o l t n :
  constructed rs -> accepted o l -> 0 <= n < U64.max ->
  table_inv t -> bounded n t ->
  table_inv (final_state (call rs std14 tid e o l t)) /\
  bounded (n + 1) (final_state (call rs std14 tid e o l t)).
Proof.
  intros Hc Ha Hn Hinv Hb.
  assert (Hin : counts_in (n + 1) (final_state (call rs std14 tid e o l t))).
  { apply call_counts; try assumption; [lia|].
    intros id r Hr. pose proof (bounded_counts n t Hb id r Hr).
    pose proof (proj1 (table_inv_counts t) Hinv id r Hr). lia. }
  apply counts_in_inv in Hin. now rewrite Z.max_r in Hin by lia.
Qed.

Lemma coverage_perm rs id (l1 l2 : list (Z * Z)) :
  l1 ≡ₚ l2 -> coverage rs id l1 = coverage rs id l2.
Proof.
  induction 1 as [|x l1 l2 _ IH|x y l1|l1 l2 l3 _ IH1 _ IH2]; simpl.
  - reflexivity.
  - now rewrite IH.
  - lia.
  - now rewrite IH1.
Qed.

Lemma coverage_acquired_cons rs id c calls :
  coverage rs id (acquired (c :: calls)) - coverage rs id (released (c :: calls)) =
  (if acquires (entry c) then 1 else -1) * covers rs id (requested c) +
  (coverage rs id (acquired calls) - coverage rs id (released calls)).
Proof.
  unfold acquired, released. simpl.
  destruct (acquires (entry c)); simpl; lia.
Qed.

(** The reference counts after a run of calls that all returned: each
    region has gained one per acquired range that covers it and lost one
    per released range that covers it. *)
Lemma run_calls_counts rs std14 calls :
  constructed rs ->
  Forall (fun c => accepted (req_offset c) (req_length c)) calls ->
  forall t t' n,
    0 <= n -> n + Z.of_nat (length calls) <= U64.max ->
    table_inv t -> bounded n t ->
    run_calls rs std14 calls t = Ok true t' ->
    table_inv t' /\
    forall id, refcount_of t' id =
               refcount_of t id +
               (coverage rs id (acquired calls) - coverage rs id (released calls)).
Proof.
  intros Hc Hall. induction Hall as [|c calls Ha _ IH]; intros t t' n Hn Hlen Hinv Hb H.
  - injection H as <-. split; [exact Hinv|]. intros id. simpl. lia.
  - simpl in H. unfold bind in H.
    destruct (call rs std14 (caller c) (entry c) (req_offset c) (req_length c) t)
      as [[|] t1|h t1] eqn:E; [|discriminate..].
    simpl length in Hlen.
    pose proof (call_inv rs std14 (caller c) (entry c) (req_offset c)
                  (req_length c) t n Hc Ha ltac:(lia) Hinv Hb) as [Hinv1 Hb1].
    rewrite E in Hinv1, Hb1. simpl in Hinv1, Hb1.
    destruct (IH t1 t' (n + 1) ltac:(lia) ltac:(lia) Hinv1 Hb1 H) as [Hinv' Hcnt].
    split; [exact Hinv'|]. intros id.
    rewrite Hcnt, coverage_acquired_cons.
    rewrite (call_moves rs std14 (caller c) (entry c) (req_offset c)
               (req_length c) t t1 n Hc Ha Hinv Hb ltac:(lia) E id).
    unfold requested. lia.
Qed.

Lemma table_empty_counts (t : table) :
  table_inv t -> (forall id, refcount_of t id = 0) -> t = ∅.
Proof.
  intros Hinv H0. apply map_empty. intros id.
  destruct (t !! id) as [r|] eqn:E; [|reflexivity].
  pose proof (proj1 (Hinv id) ltac:(rewrite E; eauto)) as Hpos.
  rewrite H0 in Hpos. lia.
Qed.

Lemma table_inv_empty : table_inv ∅.
Proof.
  intros id. unfold refcount_of. rewrite lookup_empty. split.
  - intros [x Hx]. discriminate.
  - lia.
Qed.

Lemma run_calls_balanced rs std14 calls t' :
  constructed rs ->
  Forall (fun c => accepted (req_offset c) (req_length c)) calls ->
  Z.of_nat (length calls) <= U64.max ->
  acquired calls ≡ₚ released calls ->
  run_calls rs std14 calls ∅ = Ok true t' ->
  t' = ∅.
Proof.
  intros Hc Hall Hlen Hperm H.
  destruct (run_calls_counts rs std14 calls Hc Hall ∅ t' 0) as [Hinv Hcnt];
    try assumption; try lia.
  - apply table_inv_empty.
  - intros id. unfold refcount_of. rewrite lookup_empty. lia.
  - apply table_empty_counts; [exact Hinv|]. intros id. rewrite Hcnt.
    rewrite (coverage_perm rs id _ _ Hperm).
    unfold refcount_of. rewrite lookup_empty. lia.
Qed.

(** ** Acquiring and releasing on an empty table *)

(** A walk whose callback returns [no] on every id returns. *)
Lemma visit_seqZ_total {St} (J : Z -> St -> Prop)
    (f : Z -> M St stop_iteration) (k : M St unit) first cnt s :
  0 <= cnt ->
  (forall s, k s = Ok tt s) ->
  (forall id s, first <= id < first + cnt -> J id s ->
     exists s1, f id s = Ok no s1 /\ J (id + 1) s1) ->
  J first s ->
  exists s', visit (seqZ first cnt) f k s = Ok tt s' /\ J (first + cnt) s'.
Proof.
  intros Hcnt Hk. rewrite <- (Z2Nat.id cnt) by lia.
  generalize (Z.to_nat cnt) as c. clear Hcnt cnt.
  intros c. revert first s. induction c as [|c IH]; intros first s Hf HJ.
  - rewrite seqZ_nil by lia. simpl. rewrite Hk, Z.add_0_r. eauto.
  - rewrite seqZ_cons by lia. simpl. unfold bind.
    destruct (Hf first s ltac:(lia) HJ) as (s1 & E & HJ1). rewrite E.
    replace (Z.pred (Z.of_nat (S c))) with (Z.of_nat c) by lia.
    replace (first + Z.of_nat (S c)) with (Z.succ first + Z.of_nat c) by lia.
    apply IH; [|exact HJ1]. intros id s0 Hid. apply Hf. lia.
Qed.

Lemma loop_exit_small {St} rs l (s : St) :
  region_count rs l <= INT_MAX -> loop_exit rs l s = Ok tt s.
Proof.
  intros H. unfold loop_exit, defined.
  destruct (Z.leb_spec (region_count rs l) INT_MAX); [reflexivity|lia].
Qed.

Lemma acquire_fresh {A} (op : M mutex_state A) a m first id t :
  op unlocked = Ok a m -> first <= id ->
  range_held m first id t ->
  exists t1, (get_and_lock_region id ;; on_mutex id op) t = Ok a t1 /\
             range_held m first (id + 1) t1.
Proof.
  intros Hop Hid Ht. unfold bind, get_and_lock_region, on_mutex.
  rewrite (Ht id). rewrite bool_decide_eq_false_2 by lia.
  rewrite lookup_insert_eq. simpl. rewrite Hop.
  eexists. split; [reflexivity|].
  intros id'. rewrite insert_insert_eq, lookup_insert. rewrite (Ht id').
  case_decide; repeat case_bool_decide; try lia; reflexivity.
Qed.

Lemma release_held (op : M mutex_state unit) m m' id last t :
  op m = Ok tt m' -> id < last ->
  range_held m id last t ->
  exists t1,
    (get_locked_region id ;; on_mutex id op ;; unlock_region id) t = Ok tt t1 /\
    range_held m (id + 1) last t1.
Proof.
  intros Hop Hid Ht. unfold bind, get_locked_region, on_mutex, unlock_region, assert.
  rewrite (Ht id). rewrite bool_decide_eq_true_2 by lia. simpl.
  rewrite (Ht id). rewrite bool_decide_eq_true_2 by lia. simpl.
  rewrite Hop. rewrite lookup_insert_eq. simpl.
  eexists. split; [reflexivity|].
  intros id'. rewrite lookup_delete, lookup_insert. rewrite (Ht id').
  repeat case_decide; repeat case_bool_decide; try lia; reflexivity.
Qed.

Lemma range_held_empty m a : range_held m a a ∅.
Proof. intros id. rewrite lookup_empty. case_bool_decide; [lia|reflexivity]. Qed.

Lemma range_held_none m a (t : table) : range_held m a a t -> t = ∅.
Proof.
  intros H. apply map_empty. intros id. rewrite (H id).
  case_bool_decide; [lia|reflexivity].
Qed.

(** The walks of lock and lock_shared on an empty table. *)
Lemma acquire_walk rs o l (op : Z -> M mutex_state unit) m :
  constructed rs -> accepted o l -> region_count rs l <= INT_MAX ->
  (forall id, op id unlocked = Ok tt m) ->
  exists t1,
    for_each_region rs o l (fun region_id =>
      get_and_lock_region region_id ;;
      on_mutex region_id (op region_id) ;; ret no) ∅ = Ok tt t1 /\
    range_held m (o / rs) (o / rs + region_count rs l) t1.
Proof.
  intros Hc Ha Hn Hop.
  pose proof (region_count_nonneg rs l Hc) as H0.
  rewrite for_each_region_visit by assumption.
  rewrite Z.min_l by lia.
  apply (visit_seqZ_total (fun lo t => range_held m (o / rs) lo t)).
  - exact H0.
  - intros s. now apply loop_exit_small.
  - intros id t [Hid _] Ht.
    destruct (acquire_fresh (op id) tt m (o / rs) id t (Hop id) Hid Ht)
      as (t1 & E & Ht1).
    exists t1. split; [|exact Ht1].
    unfold bind in *. destruct (get_and_lock_region id t); [|discriminate].
    destruct (on_mutex id (op id) s); [|discriminate].
    inversion E; subst. reflexivity.
  - apply range_held_empty.
Qed.

(** The walks of unlock and unlock_shared on a table that holds exactly
    the regions of the request. *)
Lemma release_walk rs o l (op : M mutex_state unit) m m' t :
  constructed rs -> accepted o l -> region_count rs l <= INT_MAX ->
  op m = Ok tt m' ->
  range_held m (o / rs) (o / rs + region_count rs l) t ->
  for_each_region rs o l (fun region_id =>
    get_locked_region region_id ;;
    on_mutex region_id op ;;
    unlock_region region_id ;; ret no) t = Ok tt ∅.
Proof.
  intros Hc Ha Hn Hop Ht.
  pose proof (region_count_nonneg rs l Hc) as H0.
  rewrite for_each_region_visit by assumption.
  rewrite Z.min_l by lia.
  destruct (visit_seqZ_total
    (fun lo t => range_held m lo (o / rs + region_count rs l) t)
    (fun region_id =>
       get_locked_region region_id ;;
       on_mutex region_id op ;;
       unlock_region region_id ;; ret no)
    (loop_exit rs l) (o / rs) (region_count rs l) t) as (t1 & E & Ht1).
  - exact H0.
  - intros s. now apply loop_exit_small.
  - intros id t0 [_ Hid] Ht0.
    destruct (release_held op m m' id _ t0 Hop Hid Ht0) as (t1 & E & Ht1).
    exists t1. split; [|exact Ht1].
    unfold bind in *. destruct (get_locked_region id t0); [|discriminate].
    destruct (on_mutex id op s); [|discriminate].
    destruct (unlock_region id s0); [|discriminate].
    inversion E; subst. reflexivity.
  - exact Ht.
  - rewrite E. f_equal. now apply range_held_none in Ht1.
Qed.

Lemma seqZ_snoc m n : 0 <= n -> seqZ m (n + 1) = seqZ m n ++ [m + n].
Proof.
  intros Hn. rewrite (seqZ_app m n 1) by lia. f_equal.
Qed.

(** The walk of try_lock and try_lock_shared on an empty table. *)
Lemma try_walk rs o l (op : M mutex_state bool) (unlock_f : Z -> M table unit) m :
  constructed rs -> accepted o l -> region_count rs l <= INT_MAX ->
  op unlocked = Ok true m ->
  exists t1,
    generic_try_lock rs o l
      (fun region_id => get_and_lock_region region_id ;; on_mutex region_id op)
      unlock_f ∅ = Ok true t1 /\
    range_held m (o / rs) (o / rs + region_count rs l) t1.
Proof.
  intros Hc Ha Hn Hop.
  pose proof (region_count_nonneg rs l Hc) as H0.
  unfold generic_try_lock.
  rewrite (bind_ok _ _ _ _ _ (validate_accepted o l _ Ha)).
  rewrite for_each_region_visit by assumption.
  rewrite Z.min_l by lia.
  match goal with
  | |- context [visit ?ids ?f ?k ?s] =>
      destruct (visit_seqZ_total
        (fun lo fr => failed_to_lock_region fr = false /\
                      locked_region_ids fr = seqZ (o / rs) (lo - o / rs) /\
                      range_held m (o / rs) lo (frame_table fr))
        f k (o / rs) (region_count rs l) s) as (fr & E & Hfl & _ & Hfr)
  end.
  - exact H0.
  - intros s. now apply loop_exit_small.
  - intros id fr [Hid _] (Hfl & Hids & Hfr).
    destruct (acquire_fresh op true m (o / rs) id _ Hop Hid Hfr) as (t1 & E & Ht1).
    rewrite E. eexists. split; [reflexivity|]. simpl.
    split; [exact Hfl|]. split; [|exact Ht1].
    rewrite Hids.
    replace (id + 1 - o / rs) with (id - o / rs + 1) by lia.
    rewrite seqZ_snoc by lia. do 2 f_equal. lia.
  - simpl. rewrite Z.sub_diag. split; [reflexivity|].
    split; [reflexivity|apply range_held_empty].
  - rewrite E, Hfl. exists (frame_table fr). split; [reflexivity|exact Hfr].
Qed.

Lemma mutex_lock_unlocked tid id : mutex_lock tid id unlocked = Ok tt (Writer tid).
Proof. reflexivity. Qed.

Lemma mutex_try_lock_unlocked tid : mutex_try_lock tid unlocked = Ok true (Writer tid).
Proof. reflexivity. Qed.

Lemma mutex_unlock_writer tid : mutex_unlock tid (Writer tid) = Ok tt unlocked.
Proof. unfold mutex_unlock. now rewrite bool_decide_eq_true_2. Qed.

Lemma mutex_lock_shared_unlocked tid id :
  mutex_lock_shared tid id unlocked = Ok tt (Readers ({[tid]} ∪ ∅)).
Proof. reflexivity. Qed.

Lemma mutex_try_lock_shared_unlocked tid :
  mutex_try_lock_shared tid unlocked = Ok true (Readers ({[tid]} ∪ ∅)).
Proof. reflexivity. Qed.

Lemma mutex_unlock_shared_reader tid :
  mutex_unlock_shared tid (Readers ({[tid]} ∪ ∅)) =
  Ok tt (Readers (({[tid]} ∪ ∅) ∖ {[tid]})).
Proof. unfold mutex_unlock_shared. rewrite bool_decide_eq_true_2; [reflexivity|set_solver]. Qed.

(** An acquisition of a range on the empty table by any of the four
    acquiring operations, followed by the matching release with the same
    offset and length by the same thread, returns with the table empty. *)
Lemma acquire_release_empty rs std14 tid o l :
  constructed rs -> accepted o l -> region_count rs l <= INT_MAX ->
  run_calls rs std14 [Request tid Lock o l; Request tid Unlock o l] ∅ = Ok true ∅ /\
  run_calls rs std14 [Request tid TryLock o l; Request tid Unlock o l] ∅ = Ok true ∅ /\
  run_calls rs std14 [Request tid LockShared o l; Request tid UnlockShared o l] ∅
    = Ok true ∅ /\
  run_calls rs std14 [Request tid TryLockShared o l; Request tid UnlockShared o l] ∅
    = Ok true ∅.
Proof.
  intros Hc Ha Hn.
  pose proof (fun St s => validate_accepted (S := St) o l s Ha) as Hv.
  assert (Hx : run_calls rs std14 [Request tid Lock o l; Request tid Unlock o l] ∅
               = Ok true ∅).
  { destruct (acquire_walk rs o l (mutex_lock tid) (Writer tid) Hc Ha Hn
                (mutex_lock_unlocked tid)) as (t1 & E1 & Ht1).
    pose proof (release_walk rs o l (mutex_unlock tid) _ _ t1 Hc Ha Hn
                  (mutex_unlock_writer tid) Ht1) as E2.
    simpl. unfold call, lock, unlock, bind at 1 2.
    rewrite (bind_ok _ _ _ _ _ (Hv _ _)), E1. simpl.
    unfold bind at 1 2. rewrite (bind_ok _ _ _ _ _ (Hv _ _)), E2. reflexivity. }
  assert (Ht : run_calls rs std14 [Request tid TryLock o l; Request tid Unlock o l] ∅
               = Ok true ∅).
  { destruct (try_walk rs o l (mutex_try_lock tid)
                (fun region_id => get_locked_region region_id ;;
                                  on_mutex region_id (mutex_unlock tid) ;;
                                  unlock_region region_id)
                (Writer tid) Hc Ha Hn (mutex_try_lock_unlocked tid))
      as (t1 & E1 & Ht1).
    pose proof (release_walk rs o l (mutex_unlock tid) _ _ t1 Hc Ha Hn
                  (mutex_unlock_writer tid) Ht1) as E2.
    simpl. unfold call, try_lock, unlock, bind at 1.
    rewrite E1. unfold bind at 1 2.
    rewrite (bind_ok _ _ _ _ _ (Hv _ _)), E2. reflexivity. }
  split; [exact Hx|]. split; [exact Ht|].
  destruct std14.
  - split.
    + destruct (acquire_walk rs o l (mutex_lock_shared tid) _ Hc Ha Hn
                  (mutex_lock_shared_unlocked tid)) as (t1 & E1 & Ht1).
      pose proof (release_walk rs o l (mutex_unlock_shared tid) _ _ t1 Hc Ha Hn
                    (mutex_unlock_shared_reader tid) Ht1) as E2.
      simpl. unfold call, lock_shared, unlock_shared, bind at 1 2.
      rewrite (bind_ok _ _ _ _ _ (Hv _ _)), E1. simpl.
      unfold bind at 1 2. rewrite (bind_ok _ _ _ _ _ (Hv _ _)), E2. reflexivity.
    + destruct (try_walk rs o l (mutex_try_lock_shared tid)
                  (fun region_id => get_locked_region region_id ;;
                                    on_mutex region_id (mutex_unlock_shared tid) ;;
                                    unlock_region region_id)
                  _ Hc Ha Hn (mutex_try_lock_shared_unlocked tid))
        as (t1 & E1 & Ht1).
      pose proof (release_walk rs o l (mutex_unlock_shared tid) _ _ t1 Hc Ha Hn
                    (mutex_unlock_shared_reader tid) Ht1) as E2.
      simpl. unfold call, try_lock_shared, unlock_shared, bind at 1.
      rewrite E1. unfold bind at 1 2.
      rewrite (bind_ok _ _ _ _ _ (Hv _ _)), E2. reflexivity.
  - split; [exact Hx|exact Ht].
Qed.

(** ** C8 *)

(** C8. Starting from the empty table, when the calls of a sequence have
    all returned (every try_lock with [true]) and the ranges released are,
    up to order, the ranges acquired, the table is empty again.  In
    particular an acquisition by lock, try_lock, lock_shared or
    try_lock_shared on the empty table followed by the matching release
    with the same offset and length does return, try_lock with [true], and
    leaves the table empty.  Sequences are shorter than 2^64 calls, and a
    request that returns covers at most INT_MAX regions (the loop counter
    is an int). *)
Theorem balanced_calls_leave_table_empty rs std14 :
  constructed rs ->
  (forall calls t',
     Forall (fun c => accepted (req_offset c) (req_length c)) calls ->
     Z.of_nat (length calls) <= U64.max ->
     acquired calls ≡ₚ released calls ->
     run_calls rs std14 calls ∅ = Ok true t' ->
     t' = ∅) /\
  (forall tid o l,
     accepted o l -> region_count rs l <= INT_MAX ->
     run_calls rs std14 [Request tid Lock o l; Request tid Unlock o l] ∅
       = Ok true ∅ /\
     run_calls rs std14 [Request tid TryLock o l; Request tid Unlock o l] ∅
       = Ok true ∅ /\
     run_calls rs std14
       [Request tid LockShared o l; Request tid UnlockShared o l] ∅ = Ok true ∅ /\
     run_calls rs std14
       [Request tid TryLockShared o l; Request tid UnlockShared o l] ∅ = Ok true ∅).
Proof.
  intros Hc. split.
  - intros calls t' Hall Hlen Hperm H. eapply run_calls_balanced; eassumption.
  - intros tid o l Ha Hn. now apply acquire_release_empty.
Qed.

Lemma balanced_calls_leave_table_empty_witness :
  let calls := [Request 0 Lock 0 2048; Request 1 TryLockShared 5000 10;
                Request 1 UnlockShared 5000 10; Request 0 Unlock 0 2048] in
  run_calls 1024 true calls ∅ = Ok true ∅ /\
  run_calls 1024 true [Request 0 Lock 1000 3000; Request 0 Unlock 1000 3000] ∅
    = Ok true ∅.
Proof.
  assert (Hc : constructed 1024).
  { split; [unfold U64.is_u64, U64.modulus; lia|reflexivity]. }
  pose proof (balanced_calls_leave_table_empty 1024 true Hc) as [Hseq Hpair].
  split.
  - match goal with
    | |- run_calls _ _ ?calls ∅ = _ =>
        destruct (run_calls 1024 true calls ∅) as [b t'|h t'] eqn:E;
        [|vm_compute in E; discriminate]
    end.
    assert (Hb : b = true) by (vm_compute in E; congruence). subst b.
    f_equal. eapply Hseq; [| | |exact E].
    + repeat constructor; unfold accepted, U64.is_u64, U64.modulus; simpl; lia.
    + simpl. unfold U64.max. lia.
    + unfold acquired, released. simpl. apply perm_swap.
  - refine (proj1 (Hpair 0%nat 1000 3000 _ _)).
    + unfold accepted, U64.is_u64, U64.modulus; lia.
    + vm_compute. discriminate.
Defined.

(** * Unlocking what is not held *)

(** The callback of unlock on a region, seen from another region [a]:
    it leaves [a] alone, and halts only in the assertion of
    get_locked_region or in a mutex that the caller does not own. *)
Lemma release_callback (op : M mutex_state unit) id a t :
  (forall m h m', op m = Halt h m' -> h = Undefined MutexMisuse) ->
  id <> a ->
  match (get_locked_region id ;; on_mutex id op ;;
         unlock_region id ;; ret no) t with
  | Ok stop t1 => stop = no /\ t1 !! a = t !! a
  | Halt h _ => h = Abort RegionNotHeld \/ h = Undefined MutexMisuse
  end.
Proof.
  intros Hop Hne. unfold bind, get_locked_region, on_mutex, unlock_region, assert, ret.
  destruct (t !! id) as [r|] eqn:E; [|now left].
  destruct (0 <? refcount r); [|now left].
  rewrite E. destruct (op (mutex r)) as [[] m'|h m'] eqn:Eop.
  - rewrite lookup_insert_eq. simpl.
    destruct (_ =? 0); split; try reflexivity.
    + now rewrite lookup_delete_ne, lookup_insert_ne.
    + now rewrite !lookup_insert_ne.
  - right. eapply Hop, Eop.
Qed.

Lemma release_absent (op : M mutex_state unit) a t :
  t !! a = None ->
  (get_locked_region a ;; on_mutex a op ;; unlock_region a ;; ret no) t =
  Halt (Abort RegionNotHeld) t.
Proof. intros E. unfold bind, get_locked_region. now rewrite E. Qed.

Lemma release_walk_absent (op : M mutex_state unit) (k : M table unit) a :
  (forall m h m', op m = Halt h m' -> h = Undefined MutexMisuse) ->
  forall (c : nat) first t,
    first <= a < first + Z.of_nat c -> t !! a = None ->
    exists h t',
      visit (seqZ first (Z.of_nat c)) (fun region_id =>
        get_locked_region region_id ;;
        on_mutex region_id op ;;
        unlock_region region_id ;; ret no) k t = Halt h t' /\
      (h = Abort RegionNotHeld \/ h = Undefined MutexMisuse).
Proof.
  intros Hop. induction c as [|c IH]; intros first t Ha E; [lia|].
  rewrite seqZ_cons by lia. simpl. unfold bind at 1.
  destruct (Z.eq_dec first a) as [-> |Hne].
  - rewrite release_absent by assumption. eauto.
  - pose proof (release_callback op first a t Hop Hne) as Hcb.
    destruct ((get_locked_region first ;; on_mutex first op ;;
               unlock_region first ;; ret no) t) as [stop t1|h t1].
    + destruct Hcb as [-> Hsame].
      replace (Z.pred (Z.of_nat (S c))) with (Z.of_nat c) by lia.
      apply IH; [lia|congruence].
    + eauto.
Qed.

Lemma mutex_unlock_halts tid m h m' :
  mutex_unlock tid m = Halt h m' -> h = Undefined MutexMisuse.
Proof.
  unfold mutex_unlock. destruct m; [case_bool_decide|]; intros [=]; now subst.
Qed.

Lemma mutex_unlock_shared_halts tid m h m' :
  mutex_unlock_shared tid m = Halt h m' -> h = Undefined MutexMisuse.
Proof.
  unfold mutex_unlock_shared. destruct m; [|case_bool_decide]; intros [=]; now subst.
Qed.

Lemma unlock_walk_absent rs o l (op : M mutex_state unit) t a :
  constructed rs -> accepted o l ->
  (forall m h m', op m = Halt h m' -> h = Undefined MutexMisuse) ->
  a ∈ region_ids rs o l -> t !! a = None ->
  (exists h t',
     (validate_parameters o l ;;
      for_each_region rs o l (fun region_id =>
        get_locked_region region_id ;;
        on_mutex region_id op ;;
        unlock_region region_id ;; ret no)) t = Halt h t' /\
     (h = Abort RegionNotHeld \/ h = Undefined MutexMisuse)) /\
  (a = o / rs ->
     (validate_parameters o l ;;
      for_each_region rs o l (fun region_id =>
        get_locked_region region_id ;;
        on_mutex region_id op ;;
        unlock_region region_id ;; ret no)) t = Halt (Abort RegionNotHeld) t).
Proof.
  intros Hc Ha Hop Hin E.
  rewrite (bind_ok _ _ _ _ _ (validate_accepted o l _ Ha)).
  rewrite for_each_region_visit by assumption.
  apply (elem_of_region_ids rs o l a Hc Ha) in Hin.
  set (cnt := Z.min (region_count rs l) (INT_MAX + 1)) in *.
  assert (Hcnt : 0 < cnt) by lia.
  split.
  - rewrite <- (Z2Nat.id cnt) by lia.
    apply (release_walk_absent op _ a Hop); [|exact E].
    rewrite Z2Nat.id by lia. exact Hin.
  - intros ->. rewrite seqZ_cons by lia. simpl. unfold bind at 1.
    now rewrite release_absent.
Qed.

(** ** C10 *)

(** C10, as the claim states it, fails.  Region size 1024: after thread 0
    has locked (0, 1), its call unlock(5, 10), a range never locked, maps
    to region 0 as well; it returns and removes the region.  And thread 1,
    which holds nothing, calling unlock(0, 1) passes both assertions of
    get_locked_region and unlocks a mutex it does not own, which is
    undefined behaviour and no failed assertion. *)
Lemma unlock_of_unlocked_range_returns :
  let held := {[ 0 := {| refcount := 1; mutex := Writer 0 |} ]} : table in
  accepted 5 10 /\
  lock 1024 0 0 1 ∅ = Ok tt held /\
  unlock 1024 0 5 10 held = Ok tt ∅ /\
  unlock 1024 1 0 1 held = Halt (Undefined MutexMisuse) held.
Proof.
  split; [unfold accepted, U64.is_u64, U64.modulus; lia|].
  vm_compute. repeat split; reflexivity.
Qed.

(** C10, amended.  For an accepted request, unlock and unlock_shared do
    not return when one of the regions they visit has no entry in the
    table: the call ends in the failed assertion of get_locked_region, or,
    before reaching that region, in the unlocking of a mutex the caller
    does not own.  When the first region of the request has no entry, as
    on an empty table, the assertion fails at once and the table is
    untouched. *)
Theorem unlock_absent_region_aborts rs std14 tid e o l t id :
  constructed rs -> accepted o l ->
  e = Unlock \/ e = UnlockShared ->
  id ∈ region_ids rs o l -> t !! id = None ->
  (exists h t',
     call rs std14 tid e o l t = Halt h t' /\
     (h = Abort RegionNotHeld \/ h = Undefined MutexMisuse)) /\
  (id = o / rs ->
     call rs std14 tid e o l t = Halt (Abort RegionNotHeld) t).
Proof.
  intros Hc Ha He Hin E.
  pose proof (unlock_walk_absent rs o l (mutex_unlock tid) t id Hc Ha
                (mutex_unlock_halts tid) Hin E) as [(h1 & t1 & H1 & Hh1) H1'].
  pose proof (unlock_walk_absent rs o l (mutex_unlock_shared tid) t id Hc Ha
                (mutex_unlock_shared_halts tid) Hin E) as [(h2 & t2 & H2 & Hh2) H2'].
  assert (Hx : (exists h t',
                  call rs std14 tid Unlock o l t = Halt h t' /\
                  (h = Abort RegionNotHeld \/ h = Undefined MutexMisuse)) /\
               (id = o / rs ->
                  call rs std14 tid Unlock o l t = Halt (Abort RegionNotHeld) t)).
  { unfold call, unlock. split; [|intros Hid; apply bind_halt; auto].
    exists h1, t1. split; [now apply bind_halt|exact Hh1]. }
  destruct He as [-> | ->]; [exact Hx|].
  destruct std14; [|exact Hx].
  unfold call, unlock_shared. split; [|intros Hid; apply bind_halt; auto].
  exists h2, t2. split; [now apply bind_halt|exact Hh2].
Qed.

Lemma unlock_absent_region_aborts_witness :
  call 1024 true 0 Unlock 0 2048 ∅ = Halt (Abort RegionNotHeld) ∅.
Proof.
  refine (proj2 (unlock_absent_region_aborts 1024 true 0%nat Unlock 0 2048 ∅ 0
                   _ _ _ _ _) _).
  - split; [unfold U64.is_u64, U64.modulus; lia|reflexivity].
  - unfold accepted, U64.is_u64, U64.modulus; lia.
  - now left.
  - vm_compute. left.
  - reflexivity.
  - reflexivity.
Defined.


(** * Threads *)

Lemma exec_sound schedule : forall w w',
  exec schedule w = Some w' -> rtc step w w'.
Proof.
  induction schedule as [|i schedule IH]; intros w w' H; simpl in H.
  - injection H as <-. apply rtc_refl.
  - destruct (thread_step w i) as [w1|] eqn:E; [|discriminate].
    eapply rtc_l; [exists i; exact E|now apply IH].
Qed.

Lemma deadlockedb_sound w : deadlockedb w = true -> deadlocked w.
Proof.
  unfold deadlockedb, deadlocked. intros H.
  apply andb_true_iff in H as [He Hf]. split.
  - apply existsb_exists in He as (p & Hin & Hp).
    apply Exists_exists. exists p. split; [now apply list_elem_of_In|exact Hp].
  - apply Forall_forall. intros p Hin.
    rewrite forallb_forall in Hf. apply Hf. now apply list_elem_of_In.
Qed.

(** ** C4 *)

(** C4, as the claim states it, fails: regions are taken in ascending
    order within one call only.  Region size 1024, two threads that make
    all their calls through the range lock: thread 0 locks (1024, 1),
    region 1, and thread 1 locks (0, 1), region 0; then thread 0 calls
    lock(0, 1) and thread 1 calls lock(1024, 1).  Each call acquires its
    regions in ascending order, yet each thread waits for the region the
    other holds: every thread is blocked in mutex.lock(). *)
Lemma opposite_orders_deadlock :
  exists w, rtc step opposite_orders w /\ deadlocked w.
Proof.
  pose (schedule := [0; 0; 0; 0; 1; 1; 1; 1; 0; 0; 1; 1]%nat).
  assert (H : match exec schedule opposite_orders with
              | Some w => deadlockedb w
              | None => false
              end = true) by (vm_compute; reflexivity).
  destruct (exec schedule opposite_orders) as [w|] eqn:E; [|discriminate].
  exists w. split; [now apply (exec_sound schedule)|now apply deadlockedb_sound].
Qed.

(** ** Which actions can wait *)

Lemma not_waiting_step_of (m : M table unit) :
  halts_within not_waiting m -> halts_within not_waiting (step_of m).
Proof.
  intros H. unfold step_of.
  apply halts_within_bind; [exact H|intros; apply halts_within_ret].
Qed.

Lemma not_waiting_validate {St} o l :
  halts_within not_waiting (validate_parameters (S := St) o l).
Proof.
  unfold validate_parameters.
  apply halts_within_bind; [|intros _]; apply halts_within_assert; discriminate.
Qed.

Lemma not_waiting_loop_exit {St} rs l :
  halts_within not_waiting (loop_exit (S := St) rs l).
Proof. apply halts_within_defined. discriminate. Qed.

Lemma not_waiting_get_and_lock_region id :
  halts_within not_waiting (get_and_lock_region id).
Proof. intros t h t' H. discriminate. Qed.

Lemma not_waiting_get_locked_region id :
  halts_within not_waiting (get_locked_region id).
Proof.
  intros t h t' H. unfold get_locked_region, assert in H.
  destruct (t !! id) as [r|]; [destruct (0 <? refcount r)|];
    inversion H; subst; discriminate.
Qed.

Lemma not_waiting_unlock_region id : halts_within not_waiting (unlock_region id).
Proof.
  intros t h t' H. unfold unlock_region in H.
  destruct (t !! id) as [r|]; [destruct (_ =? 0)|];
    inversion H; subst; discriminate.
Qed.

Lemma not_waiting_m_unlock std14 tid m :
  halts_within not_waiting (m_unlock std14 tid m).
Proof.
  intros s h s' H. unfold m_unlock, mutex_unlock, mutex_unlock_shared in H.
  destruct m, std14, s; repeat case_bool_decide;
    inversion H; subst; discriminate.
Qed.

Lemma not_waiting_m_try_lock std14 tid m :
  halts_within not_waiting (m_try_lock std14 tid m).
Proof.
  intros s h s' H.
  unfold m_try_lock, mutex_try_lock, mutex_try_lock_shared in H.
  destruct m, std14; destruct (owns tid s); try destruct (is_unlocked s);
    try destruct s; inversion H; subst; discriminate.
Qed.

Lemma not_waiting_on_mutex {A} id (op : M mutex_state A) :
  halts_within not_waiting op -> halts_within not_waiting (on_mutex id op).
Proof. apply halts_within_on_mutex. discriminate. Qed.

(** A thread that waits in mutex.lock() or mutex.lock_shared() waits for
    the region it asked for, whose mutex another thread owns. *)
Lemma m_lock_waits std14 tid m id s x s' :
  m_lock std14 tid m id s = Halt (Waiting x) s' ->
  x = id /\ exists tid', tid' <> tid /\ owns tid' s = true.
Proof.
  assert (Hw : forall o, o <> tid -> exists tid', tid' <> tid /\ owns tid' (Writer o) = true).
  { intros o Ho. exists o. split; [exact Ho|]. simpl. now apply bool_decide_eq_true_2. }
  assert (Hr : forall rs : gset nat, rs <> ∅ -> tid ∉ rs ->
            exists tid', tid' <> tid /\ owns tid' (Readers rs) = true).
  { intros rs Hne Hnin. apply set_choose_L in Hne as [y Hy].
    exists y. split; [intros ->; contradiction|]. simpl.
    now apply bool_decide_eq_true_2. }
  intros Heq.
  unfold m_lock, mutex_lock, mutex_lock_shared, owns, is_unlocked in Heq.
  destruct m, std14, s as [o|rs]; repeat case_bool_decide;
    try discriminate; injection Heq as <- <-; split; auto.
Qed.

Lemma m_lock_waiting std14 tid m id t x t' :
  on_mutex id (m_lock std14 tid m id) t = Halt (Waiting x) t' ->
  x = id /\ exists tid', tid' <> tid /\ owns_in t tid' id.
Proof.
  unfold on_mutex. destruct (t !! id) as [r|] eqn:E; [|discriminate].
  destruct (m_lock std14 tid m id (mutex r)) as [a m'|h m'] eqn:Eop; [discriminate|].
  intros [= -> <-].
  apply m_lock_waits in Eop as [-> (tid' & Hne & Hown)].
  split; [reflexivity|]. exists tid'. split; [exact Hne|].
  exists r. auto.
Qed.

(** ** What the actions do to mutex ownership *)

Lemma m_lock_owns std14 tid m id s b s' tid' :
  m_lock std14 tid m id s = Ok b s' ->
  owns tid' s' = true -> owns tid' s = true \/ tid' = tid.
Proof.
  intros Heq Hown.
  unfold m_lock, mutex_lock, mutex_lock_shared, owns, is_unlocked in Heq.
  destruct m, std14, s as [o|rs]; repeat case_bool_decide;
    try discriminate; injection Heq as <- <-; simpl in *;
    apply bool_decide_eq_true_1 in Hown;
    try (right; congruence);
    destruct (decide (tid' = tid)); auto; left;
    apply bool_decide_eq_true_2; set_solver.
Qed.

Lemma m_try_lock_owns std14 tid m s b s' tid' :
  m_try_lock std14 tid m s = Ok b s' ->
  owns tid' s' = true -> owns tid' s = true \/ (tid' = tid /\ b = true).
Proof.
  intros Heq Hown.
  unfold m_try_lock, mutex_try_lock, mutex_try_lock_shared, owns, is_unlocked in Heq.
  destruct m, std14, s as [o|rs]; repeat case_bool_decide;
    try discriminate; injection Heq as <- <-; simpl in *; auto;
    apply bool_decide_eq_true_1 in Hown;
    try (right; split; congruence);
    destruct (decide (tid' = tid)); auto; left;
    apply bool_decide_eq_true_2; set_solver.
Qed.

Lemma m_unlock_owns std14 tid m s b s' tid' :
  m_unlock std14 tid m s = Ok b s' ->
  owns tid' s' = true -> owns tid' s = true /\ tid' <> tid.
Proof.
  intros Heq Hown.
  unfold m_unlock, mutex_unlock, mutex_unlock_shared in Heq.
  destruct m, std14, s as [o|rs]; repeat case_bool_decide;
    try discriminate; injection Heq as <- <-; simpl in *;
    apply bool_decide_eq_true_1 in Hown;
    try set_solver;
    (split; [apply bool_decide_eq_true_2|]; set_solver).
Qed.

Lemma on_mutex_owns_in {A} id (op : M mutex_state A) t a t' tid' id' :
  on_mutex id op t = Ok a t' ->
  owns_in t' tid' id' ->
  (id' <> id /\ owns_in t tid' id') \/
  (id' = id /\ exists r m', t !! id = Some r /\ op (mutex r) = Ok a m' /\
                            owns tid' m' = true).
Proof.
  unfold on_mutex. destruct (t !! id) as [r|] eqn:E; [|discriminate].
  destruct (op (mutex r)) as [a0 m'|h m'] eqn:Eop; [|discriminate].
  intros [= <- <-] (r' & Hr' & Hown).
  rewrite lookup_insert in Hr'. case_decide as Hd.
  - subst id'. injection Hr' as <-. simpl in Hown. right. eauto 6.
  - left. split; [congruence|]. exists r'. auto.
Qed.

Lemma acquire_owns_in std14 tid m id t a t' tid' id' :
  on_mutex id (m_lock std14 tid m id) t = Ok a t' ->
  owns_in t' tid' id' -> owns_in t tid' id' \/ (tid' = tid /\ id' = id).
Proof.
  intros H Hown.
  destruct (on_mutex_owns_in _ _ _ _ _ _ _ H Hown)
    as [[_ Ho]|(Hid & r & m' & E & Eop & Hm)]; [now left|]. subst id'.
  destruct (m_lock_owns _ _ _ _ _ _ _ _ Eop Hm) as [Hold | ->]; [|now right].
  left. exists r. auto.
Qed.

Lemma try_owns_in std14 tid m id t b t' tid' id' :
  on_mutex id (m_try_lock std14 tid m) t = Ok b t' ->
  owns_in t' tid' id' ->
  owns_in t tid' id' \/ (tid' = tid /\ id' = id /\ b = true).
Proof.
  intros H Hown.
  destruct (on_mutex_owns_in _ _ _ _ _ _ _ H Hown)
    as [[_ Ho]|(Hid & r & m' & E & Eop & Hm)]; [now left|]. subst id'.
  destruct (m_try_lock_owns _ _ _ _ _ _ _ Eop Hm) as [Hold | [-> ->]]; [|now right].
  left. exists r. auto.
Qed.

Lemma release_owns_in std14 tid m id t a t' tid' id' :
  on_mutex id (m_unlock std14 tid m) t = Ok a t' ->
  owns_in t' tid' id' ->
  owns_in t tid' id' /\ ~ (tid' = tid /\ id' = id).
Proof.
  intros H Hown.
  destruct (on_mutex_owns_in _ _ _ _ _ _ _ H Hown)
    as [[Hne Ho]|(Hid & r & m' & E & Eop & Hm)].
  - split; [exact Ho|]. intros [_ ?]. contradiction.
  - subst id'. destruct (m_unlock_owns _ _ _ _ _ _ _ Eop Hm) as [Hold Hne].
    split; [exists r; auto|]. intros [? _]. contradiction.
Qed.

Lemma get_and_lock_region_owns_in id t a t' tid' id' :
  get_and_lock_region id t = Ok a t' ->
  owns_in t' tid' id' -> owns_in t tid' id'.
Proof.
  intros [= <- <-] (r' & Hr' & Hown).
  rewrite lookup_insert in Hr'. case_decide as Hd.
  - subst id'. injection Hr' as <-. simpl in Hown.
    destruct (t !! id) as [r|] eqn:E.
    + exists r. auto.
    + simpl in Hown. apply bool_decide_eq_true_1 in Hown. set_solver.
  - exists r'. auto.
Qed.

Lemma unlock_region_owns_in id t a t' tid' id' :
  unlock_region id t = Ok a t' ->
  owns_in t' tid' id' -> owns_in t tid' id'.
Proof.
  unfold unlock_region. destruct (t !! id) as [r|] eqn:E; [|discriminate].
  destruct (_ =? 0); intros [= <- <-] (r' & Hr' & Hown).
  - rewrite lookup_delete in Hr'. case_decide; [discriminate|]. exists r'. auto.
  - rewrite lookup_insert in Hr'. case_decide as Hd.
    + subst id'. injection Hr' as <-. simpl in Hown. exists r. auto.
    + exists r'. auto.
Qed.

Lemma get_locked_region_same id t a t' :
  get_locked_region id t = Ok a t' -> t' = t.
Proof.
  unfold get_locked_region, assert. destruct (t !! id) as [r|]; [|discriminate].
  destruct (0 <? refcount r); [|discriminate]. now intros [= _ <-].
Qed.

Lemma validate_same {St} o l (s : St) a s' :
  validate_parameters o l s = Ok a s' -> s' = s.
Proof.
  unfold validate_parameters, bind, assert.
  destruct (0 <? l); [|discriminate].
  destruct (o <? U64.add o l); [|discriminate]. now intros [= _ <-].
Qed.

Lemma step_of_ok (m : M table unit) t b t' :
  step_of m t = Ok b t' -> m t = Ok tt t'.
Proof.
  unfold step_of, bind, ret. destruct (m t) as [[] t1|]; [|discriminate].
  now intros [= _ <-].
Qed.

(** ** Following a thread of transactions through its program *)

Section Following.

Variable rs : Z.
Variable std14 : bool.
Variable tid : nat.

Lemma prog_of_acquiring m o l done rest ts :
  prog_of rs std14 tid (acquiring m o l done rest ts) =
  acquire_steps std14 tid m rest (loop_exit rs l) (release_of rs std14 tid m o l ts).
Proof. now destruct rest. Qed.

Lemma prog_of_releasing m rest aft ts :
  prog_of rs std14 tid (releasing m rest aft ts) =
  release_steps std14 tid m rest (after_prog rs std14 tid aft ts).
Proof. destruct rest; [now destruct aft|reflexivity]. Qed.

Lemma prog_of_trying m o l locked rest ts :
  prog_of rs std14 tid (trying m o l locked rest ts) =
  try_steps std14 tid m rest locked (loop_exit rs l) (try_result rs std14 tid m o l ts).
Proof. now destruct rest. Qed.

Lemma may_hold_acquiring m o l done rest ts x :
  region_ids rs o l = done ++ rest ->
  x ∈ done -> x ∈ may_hold rs (acquiring m o l done rest ts).
Proof.
  intros Hids Hx. destruct rest; simpl; [|exact Hx].
  rewrite Hids, app_nil_r. exact Hx.
Qed.

Lemma may_hold_trying m o l locked rest ts x :
  region_ids rs o l = locked ++ rest ->
  x ∈ locked -> x ∈ may_hold rs (trying m o l locked rest ts).
Proof.
  intros Hids Hx. destruct rest; simpl; [|exact Hx].
  rewrite Hids, app_nil_r. exact Hx.
Qed.

Lemma may_hold_releasing m rest aft ts x :
  x ∈ rest -> x ∈ may_hold rs (releasing m rest aft ts).
Proof. intros Hx. destruct rest; [inversion Hx|exact Hx]. Qed.

Lemma wf_acquiring m o l done rest ts :
  accepted o l -> region_ids rs o l = done ++ rest -> Forall accepted_txn ts ->
  wf rs (acquiring m o l done rest ts).
Proof. intros. destruct rest; simpl; auto. Qed.

Lemma wf_trying m o l locked rest ts :
  accepted o l -> region_ids rs o l = locked ++ rest -> Forall accepted_txn ts ->
  wf rs (trying m o l locked rest ts).
Proof. intros. destruct rest; simpl; auto. Qed.

Lemma wf_releasing m rest aft ts :
  Forall accepted_txn ts -> wf rs (releasing m rest aft ts).
Proof. intros. destruct rest; [destruct aft|]; simpl; auto. Qed.

(** The next program is that of the next state, and the next state is
    among those of a thread of transactions. *)
Lemma advance_prog fr a k b :
  wf rs fr -> prog_of rs std14 tid fr = Act a k ->
  k b = prog_of rs std14 tid (advance rs fr b) /\ wf rs (advance rs fr b).
Proof.
  intros Hwf Hp. destruct fr; simpl in *.
  - destruct ts as [|x ts]; [discriminate|]. simpl in Hp.
    apply Forall_cons in Hwf as [Hx Hts].
    destruct (blocking x); injection Hp as <- <-.
    + rewrite prog_of_acquiring. split; [reflexivity|]. now apply wf_acquiring.
    + rewrite prog_of_trying. split; [reflexivity|]. now apply wf_trying.
  - injection Hp as <- <-. auto.
  - injection Hp as <- <-. destruct Hwf as (Ha & Hids & Hts).
    rewrite prog_of_acquiring. split; [reflexivity|].
    apply wf_acquiring; auto. now rewrite <- app_assoc.
  - injection Hp as <- <-. auto.
  - injection Hp as <- <-. rewrite prog_of_releasing. split; [reflexivity|].
    apply wf_releasing. apply Hwf.
  - injection Hp as <- <-. auto.
  - injection Hp as <- <-. auto.
  - injection Hp as <- <-. rewrite prog_of_releasing. split; [reflexivity|].
    now apply wf_releasing.
  - injection Hp as <- <-. auto.
  - injection Hp as <- <-. auto.
  - injection Hp as <- <-. destruct Hwf as (Ha & Hids & Hts). destruct b.
    + rewrite prog_of_trying. split; [reflexivity|].
      apply wf_trying; auto. now rewrite <- app_assoc.
    + rewrite prog_of_releasing. split; [reflexivity|]. now apply wf_releasing.
  - injection Hp as <- <-. auto.
Qed.

End Following.

Section Ownership.

Variable rs : Z.
Variable std14 : bool.
Variable tid : nat.

Lemma step_of_validate_same o l t b t' :
  step_of (validate_parameters o l) t = Ok b t' -> t' = t.
Proof. intros H. apply step_of_ok in H. eapply validate_same, H. Qed.

Lemma step_of_loop_exit_same l t b t' :
  step_of (loop_exit rs l) t = Ok b t' -> t' = t.
Proof. intros H. apply step_of_ok in H. eapply loop_exit_ok, H. Qed.

Lemma step_of_get_locked_region_same id t b t' :
  step_of (get_locked_region id) t = Ok b t' -> t' = t.
Proof. intros H. apply step_of_ok in H. eapply get_locked_region_same, H. Qed.

(** An action of thread [tid] gives no other thread a mutex, and leaves
    thread [tid] with mutexes its next state accounts for. *)
Lemma advance_owns fr a k t b t' :
  wf rs fr -> prog_of rs std14 tid fr = Act a k -> a t = Ok b t' ->
  (forall tid' id, owns_in t' tid' id -> owns_in t tid' id \/ tid' = tid) /\
  ((forall id, owns_in t tid id -> id ∈ may_hold rs fr) ->
   forall id, owns_in t' tid id -> id ∈ may_hold rs (advance rs fr b)).
Proof.
  intros Hwf Hp Ha. destruct fr; simpl in *.
  - (* Idle *)
    destruct ts as [|x ts]; [discriminate|]. simpl in Hp.
    assert (t' = t) as ->.
    { destruct (blocking x); injection Hp as <- <-;
        eapply step_of_validate_same, Ha. }
    split; [auto|]. intros Hh id Ho. apply Hh in Ho. inversion Ho.
  - (* Acquire1 *)
    injection Hp as <- <-. apply step_of_ok in Ha.
    split.
    + intros tid' id' Ho. left. eapply get_and_lock_region_owns_in; eauto.
    + intros Hh id' Ho. apply Hh. eapply get_and_lock_region_owns_in; eauto.
  - (* Acquire2 *)
    injection Hp as <- <-. apply step_of_ok in Ha.
    destruct Hwf as (Hacc & Hids & Hts). split.
    + intros tid' id' Ho.
      destruct (acquire_owns_in _ _ _ _ _ _ _ _ _ Ha Ho) as [?|[? _]]; auto.
    + intros Hh id' Ho. apply may_hold_acquiring.
      { now rewrite <- app_assoc. }
      destruct (acquire_owns_in _ _ _ _ _ _ _ _ _ Ha Ho) as [Hold|[_ ->]].
      * apply elem_of_app. left. now apply Hh.
      * apply elem_of_app. right. now apply list_elem_of_singleton.
  - (* AcquireExit *)
    injection Hp as <- <-. apply step_of_loop_exit_same in Ha. subst t'. auto.
  - (* Unlocking *)
    injection Hp as <- <-. apply step_of_validate_same in Ha. subst t'.
    split; [auto|]. intros Hh id' Ho. apply may_hold_releasing. now apply Hh.
  - (* Release1 *)
    injection Hp as <- <-. apply step_of_get_locked_region_same in Ha. subst t'. auto.
  - (* Release2 *)
    injection Hp as <- <-. apply step_of_ok in Ha. split.
    + intros tid' id' Ho. left.
      now destruct (release_owns_in _ _ _ _ _ _ _ _ _ Ha Ho).
    + intros Hh id' Ho.
      destruct (release_owns_in _ _ _ _ _ _ _ _ _ Ha Ho) as [Hold Hne].
      apply Hh in Hold. apply elem_of_cons in Hold as [-> |Hin]; [|exact Hin].
      exfalso. now apply Hne.
  - (* Release3 *)
    injection Hp as <- <-. apply step_of_ok in Ha. split.
    + intros tid' id' Ho. left. eapply unlock_region_owns_in; eauto.
    + intros Hh id' Ho. apply may_hold_releasing. apply Hh.
      eapply unlock_region_owns_in; eauto.
  - (* Leaving *)
    injection Hp as <- <-. apply step_of_loop_exit_same in Ha. subst t'. auto.
  - (* Try1 *)
    injection Hp as <- <-. apply step_of_ok in Ha.
    split.
    + intros tid' id' Ho. left. eapply get_and_lock_region_owns_in; eauto.
    + intros Hh id' Ho. apply Hh. eapply get_and_lock_region_owns_in; eauto.
  - (* Try2 *)
    injection Hp as <- <-. destruct Hwf as (Hacc & Hids & Hts). split.
    + intros tid' id' Ho.
      destruct (try_owns_in _ _ _ _ _ _ _ _ _ Ha Ho) as [?|[? _]]; auto.
    + intros Hh id' Ho.
      destruct (try_owns_in _ _ _ _ _ _ _ _ _ Ha Ho) as [Hold|(_ & -> & ->)].
      * destruct b.
        -- apply may_hold_trying; [now rewrite <- app_assoc|].
           apply elem_of_app. left. now apply Hh.
        -- apply may_hold_releasing. now apply Hh.
      * apply may_hold_trying; [now rewrite <- app_assoc|].
        apply elem_of_app. right. now apply list_elem_of_singleton.
  - (* TryExit *)
    injection Hp as <- <-. apply step_of_loop_exit_same in Ha. subst t'. auto.
Qed.

(** A thread of transactions waits only in the mutex.lock() of lock and
    lock_shared, for a region above all those it holds, whose mutex
    another thread owns. *)
Lemma waiting_frame fr a k t x t' :
  prog_of rs std14 tid fr = Act a k -> a t = Halt (Waiting x) t' ->
  waiting_on fr = Some x /\ exists tid', tid' <> tid /\ owns_in t tid' x.
Proof.
  intros Hp Ha.
  assert (Hnw : forall m : M table unit,
            halts_within not_waiting m -> a = step_of m -> False).
  { intros m Hm ->. apply not_waiting_step_of in Hm.
    exact (Hm _ _ _ Ha x eq_refl). }
  destruct fr; simpl in *.
  - destruct ts as [|y ts]; [discriminate|]. simpl in Hp. exfalso.
    destruct (blocking y); injection Hp as <- <-;
      eapply Hnw; [apply not_waiting_validate|reflexivity
                  |apply not_waiting_validate|reflexivity].
  - injection Hp as <- <-. exfalso.
    eapply Hnw; [apply not_waiting_get_and_lock_region|reflexivity].
  - injection Hp as <- <-. unfold step_of in Ha. apply bind_ret_halt in Ha.
    apply m_lock_waiting in Ha as [-> Hother]. auto.
  - injection Hp as <- <-. exfalso.
    eapply Hnw; [apply not_waiting_loop_exit|reflexivity].
  - injection Hp as <- <-. exfalso.
    eapply Hnw; [apply not_waiting_validate|reflexivity].
  - injection Hp as <- <-. exfalso.
    eapply Hnw; [apply not_waiting_get_locked_region|reflexivity].
  - injection Hp as <- <-. exfalso.
    eapply Hnw; [apply not_waiting_on_mutex, not_waiting_m_unlock|reflexivity].
  - injection Hp as <- <-. exfalso.
    eapply Hnw; [apply not_waiting_unlock_region|reflexivity].
  - injection Hp as <- <-. exfalso.
    eapply Hnw; [apply not_waiting_loop_exit|reflexivity].
  - injection Hp as <- <-. exfalso.
    eapply Hnw; [apply not_waiting_get_and_lock_region|reflexivity].
  - injection Hp as <- <-. exfalso.
    exact (not_waiting_on_mutex _ _ (not_waiting_m_try_lock std14 tid m)
             _ _ _ Ha x eq_refl).
  - injection Hp as <- <-. exfalso.
    eapply Hnw; [apply not_waiting_loop_exit|reflexivity].
Qed.

End Ownership.

(** ** The threads of a world of transactions *)

Lemma follows_start rs std14 code :
  Forall (Forall accepted_txn) code ->
  follows rs std14 (Idle <$> code) (start rs std14 code).
Proof.
  intros Hall. unfold follows, start. simpl. split; [|split].
  - now rewrite length_fmap, length_imap.
  - intros i fr Hfr. rewrite list_lookup_fmap in Hfr.
    destruct (code !! i) as [ts|] eqn:E; [|discriminate].
    injection Hfr as <-. split; [|split].
    + rewrite list_lookup_imap, E. reflexivity.
    + simpl. eapply Forall_lookup_1; eassumption.
    + intros id (r & Hr & _). rewrite lookup_empty in Hr. discriminate.
  - intros i id (r & Hr & _). rewrite lookup_empty in Hr. discriminate.
Qed.

Lemma follows_step rs std14 frames w w' :
  follows rs std14 frames w -> step w w' ->
  exists frames', follows rs std14 frames' w'.
Proof.
  intros (Hlen & Hfr & Hown) [i Hstep]. unfold thread_step in Hstep.
  destruct (pool w !! i) as [[|a k]|] eqn:Ep; try discriminate.
  destruct (a (tbl w)) as [b t'|] eqn:Ea; [|discriminate].
  injection Hstep as <-.
  assert (Hi : (i < length frames)%nat).
  { rewrite Hlen. eapply lookup_lt_Some, Ep. }
  destruct (lookup_lt_is_Some_2 frames i Hi) as [fr Efr].
  destruct (Hfr i fr Efr) as (Hp & Hwf & Hheld).
  rewrite Ep in Hp. injection Hp as Hp. symmetry in Hp.
  destruct (advance_prog rs std14 i fr a k b Hwf Hp) as [Hk Hwf'].
  destruct (advance_owns rs std14 i fr a k (tbl w) b t' Hwf Hp Ea) as [Hothers Hmine].
  exists (<[i := advance rs fr b]> frames). split; [|split]; simpl.
  - now rewrite !length_insert.
  - intros j fr' Hj. destruct (decide (j = i)) as [-> |Hne].
    + rewrite list_lookup_insert_eq in Hj by assumption. injection Hj as <-.
      split; [|split].
      * rewrite list_lookup_insert_eq by (rewrite <- Hlen; assumption).
        now rewrite Hk.
      * exact Hwf'.
      * now apply Hmine.
    + rewrite list_lookup_insert_ne in Hj by congruence.
      destruct (Hfr j fr' Hj) as (Hpj & Hwfj & Hheldj). split; [|split].
      * now rewrite list_lookup_insert_ne by congruence.
      * exact Hwfj.
      * intros id Ho. apply Hheldj.
        destruct (Hothers j id Ho) as [?|?]; [assumption|contradiction].
  - intros j id Ho. rewrite length_insert.
    destruct (Hothers j id Ho) as [Hold| ->]; [now apply (Hown j id)|].
    now rewrite <- Hlen.
Qed.

Lemma follows_reachable rs std14 code w :
  Forall (Forall accepted_txn) code ->
  rtc step (start rs std14 code) w ->
  exists frames, follows rs std14 frames w.
Proof.
  intros Hall. revert w.
  apply (rtc_ind_r (fun w => exists frames, follows rs std14 frames w)).
  - eexists. now apply follows_start.
  - intros w1 w2 _ Hstep [frames Hf]. eapply follows_step; eassumption.
Qed.

(** ** No deadlock *)

Lemma sorted_before (done : list Z) id rest x :
  StronglySorted Z.lt (done ++ id :: rest) -> x ∈ done -> x < id.
Proof.
  induction done as [|y done IH]; intros Hs Hx; [inversion Hx|].
  simpl in Hs. apply StronglySorted_inv in Hs as [Hs Hall].
  apply elem_of_cons in Hx as [-> |Hx]; [|now apply IH].
  rewrite Forall_forall in Hall. apply Hall.
  apply elem_of_app. right. apply elem_of_cons. now left.
Qed.

Lemma no_greatest_empty (L : list Z) :
  (forall x, x ∈ L -> exists y, y ∈ L /\ x < y) -> L = [].
Proof.
  intros H. destruct L as [|z L]; [reflexivity|]. exfalso.
  assert (Hmax : exists m, m ∈ z :: L /\ forall x, x ∈ z :: L -> x <= m).
  { clear H. induction L as [|y L IH].
    - exists z. split; [now left|]. intros x Hx.
      apply list_elem_of_singleton in Hx. lia.
    - destruct IH as (m & Hm & Hle).
      exists (Z.max m y). split.
      + destruct (Z.max_spec m y) as [[_ ->]|[_ ->]].
        * right. now left.
        * apply elem_of_cons in Hm as [-> |Hm]; [now left|right; now right].
      + intros x Hx. apply elem_of_cons in Hx as [-> |Hx].
        * specialize (Hle z ltac:(now left)). lia.
        * apply elem_of_cons in Hx as [-> |Hx]; [lia|].
          specialize (Hle x ltac:(now right)). lia. }
  destruct Hmax as (m & Hm & Hle).
  destruct (H m Hm) as (y & Hy & Hlt). specialize (Hle y Hy). lia.
Qed.

Lemma blocked_status t p :
  is_blocked (status_of t p) = true ->
  exists a k x t', p = Act a k /\ a t = Halt (Waiting x) t'.
Proof.
  destruct p as [|a k]; simpl; [discriminate|].
  destruct (a t) as [b t'|[| |x|] t'] eqn:E; simpl; try discriminate.
  intros _. eauto 6.
Qed.

Lemma stuck_status t p :
  is_stuck (status_of t p) = true ->
  p = Fin \/ exists a k x t', p = Act a k /\ a t = Halt (Waiting x) t'.
Proof.
  destruct p as [|a k]; simpl; [now left|].
  destruct (a t) as [b t'|[| |x|] t'] eqn:E; simpl; try discriminate.
  intros _. right. eauto 6.
Qed.

Lemma finished_frame rs std14 tid fr :
  prog_of rs std14 tid fr = Fin -> may_hold rs fr = [].
Proof.
  destruct fr; simpl; try discriminate; try reflexivity.
Qed.

Lemma follows_not_deadlocked rs std14 frames w :
  constructed rs -> follows rs std14 frames w -> ~ deadlocked w.
Proof.
  intros Hc (Hlen & Hfr & Hown) [Hex Hall].
  rewrite Forall_forall in Hall.
  (* a thread that waits, seen through its state *)
  assert (Hwait : forall i fr x,
            frames !! i = Some fr -> waiting_on fr = Some x ->
            exists tid', tid' <> i /\ owns_in (tbl w) tid' x).
  { intros i fr x Efr Hw. destruct (Hfr i fr Efr) as (Hp & _ & _).
    destruct (stuck_status (tbl w) _ (Hall _ (list_elem_of_lookup_2 _ _ _ Hp)))
      as [Hfin|(a & k & y & t' & Hact & Ha)].
    - destruct fr; simpl in Hw; discriminate.
    - destruct (waiting_frame rs std14 i fr a k (tbl w) y t' Hact Ha)
        as [Hw' Hother].
      rewrite Hw in Hw'. injection Hw' as ->. exact Hother. }
  assert (HL : omap waiting_on frames = []).
  { apply no_greatest_empty. intros x Hx.
    apply list_elem_of_omap in Hx as (fr & Hin & Hw).
    apply list_elem_of_lookup in Hin as [i Efr].
    destruct (Hwait i fr x Efr Hw) as (j & Hne & Hj).
    pose proof (Hown j x Hj) as Hjlt. rewrite <- Hlen in Hjlt.
    destruct (lookup_lt_is_Some_2 frames j Hjlt) as [fr' Efr'].
    destruct (Hfr j fr' Efr') as (Hp' & Hwf' & Hheld').
    specialize (Hheld' x Hj).
    destruct (stuck_status (tbl w) _ (Hall _ (list_elem_of_lookup_2 _ _ _ Hp')))
      as [Hfin|(a & k & y & t' & Hact & Ha)].
    - rewrite (finished_frame _ _ _ _ Hfin) in Hheld'. inversion Hheld'.
    - destruct (waiting_frame rs std14 j fr' a k (tbl w) y t' Hact Ha)
        as [Hw' _].
      exists y. split.
      + apply list_elem_of_omap. exists fr'. split; [|exact Hw'].
        eapply list_elem_of_lookup_2, Efr'.
      + destruct fr'; simpl in Hw'; try discriminate. injection Hw' as ->.
        simpl in Hheld'. destruct Hwf' as (Hacc & Hids & _).
        eapply sorted_before; [|exact Hheld'].
        rewrite <- Hids, region_ids_seqZ by assumption. apply seqZ_ascending. }
  apply Exists_exists in Hex as (p & Hin & Hb).
  apply list_elem_of_lookup in Hin as [i Ep].
  apply blocked_status in Hb as (a & k & x & t' & -> & Ha).
  assert (Hi : (i < length frames)%nat).
  { rewrite Hlen. eapply lookup_lt_Some, Ep. }
  destruct (lookup_lt_is_Some_2 frames i Hi) as [fr Efr].
  destruct (Hfr i fr Efr) as (Hp & _ & _).
  rewrite Ep in Hp. injection Hp as Hp. symmetry in Hp.
  destruct (waiting_frame rs std14 i fr a k (tbl w) x t' Hp Ha) as [Hw _].
  assert (Hx : x ∈ omap waiting_on frames).
  { apply list_elem_of_omap. exists fr. split; [|exact Hw].
    eapply list_elem_of_lookup_2, Efr. }
  rewrite HL in Hx. inversion Hx.
Qed.

(** C4, amended.  Threads that hold one range at a time, each acquiring a
    range by lock, lock_shared, try_lock or try_lock_shared and releasing
    it with the same offset and length before acquiring the next, never
    deadlock: whatever the accepted ranges and the modes, however the
    actions of the threads interleave, no state reachable from the empty
    table has a thread waiting for a mutex while every other thread waits
    or has finished. *)
Theorem one_range_at_a_time_no_deadlock rs std14 code w :
  constructed rs ->
  Forall (Forall accepted_txn) code ->
  rtc step (start rs std14 code) w ->
  ~ deadlocked w.
Proof.
  intros Hc Hall Hr.
  destruct (follows_reachable rs std14 code w Hall Hr) as [frames Hf].
  now apply (follows_not_deadlocked rs std14 frames).
Qed.

Lemma one_range_at_a_time_no_deadlock_witness :
  let code := [[Txn true Exclusive 0 2048; Txn false Shared 0 1];
               [Txn true Exclusive 1024 1]] in
  let reached := exec [0; 0; 0; 1; 1; 1; 0; 1; 1]%nat (start 1024 true code) in
  is_Some reached /\
  match reached with
  | Some w => ~ deadlocked w
  | None => True
  end.
Proof.
  intros code reached. split.
  - assert (H : match reached with Some _ => true | None => false end = true)
      by (vm_compute; reflexivity).
    destruct reached; [eauto|discriminate].
  - destruct reached as [w|] eqn:E; [|exact I].
    apply (one_range_at_a_time_no_deadlock 1024 true code w).
    + split; [unfold U64.is_u64, U64.modulus; lia|reflexivity].
    + repeat constructor; unfold accepted_txn, accepted, U64.is_u64, U64.modulus;
        simpl; lia.
    + exact (exec_sound _ _ _ E).
Defined.

(** * Further properties of the code *)

(** ** The constructor *)

(** The constructor accepts a 64-bit region size exactly when it is a
    power of two, 1 included; any other size, 0 included, fails one of its
    two assertions. *)
Theorem constructor_accepts_powers_of_two rs :
  U64.is_u64 rs ->
  (range_lock rs = Ok tt ∅ <-> exists k, 0 <= k < 64 /\ rs = 2 ^ k) /\
  (range_lock rs <> Ok tt ∅ -> range_lock rs = Halt (Abort BadRegionSize) ∅).
Proof.
  intros Hrs. split; [split|].
  - intros H. apply constructed_pow2. now split.
  - intros (k & Hk & ->). now apply pow2_constructed.
  - unfold range_lock, bind, assert.
    destruct (0 <? rs); [|reflexivity].
    destruct (Z.land rs (rs - 1) =? 0); [intros H; now elim H|reflexivity].
Qed.

Lemma constructor_accepts_powers_of_two_witness :
  (range_lock 4096 = Ok tt ∅ <-> exists k, 0 <= k < 64 /\ 4096 = 2 ^ k) /\
  (range_lock 1000 <> Ok tt ∅ -> range_lock 1000 = Halt (Abort BadRegionSize) ∅).
Proof.
  split.
  - refine (proj1 (constructor_accepts_powers_of_two 4096 _)).
    unfold U64.is_u64, U64.modulus; lia.
  - refine (proj2 (constructor_accepts_powers_of_two 1000 _)).
    unfold U64.is_u64, U64.modulus; lia.
Defined.

(** ** Alignment *)

Lemma region_count_div rs l :
  constructed rs -> U64.is_u64 l ->
  l + rs - 1 < U64.modulus -> region_count rs l = (l + rs - 1) / rs.
Proof.
  intros Hc [Hl0 Hl1] Hsmall.
  destruct (constructed_pow2 rs Hc) as (k & Hk & ->).
  assert (Hrs : 0 < 2 ^ k) by (apply Z.pow_pos_nonneg; lia).
  unfold region_count. rewrite add_sub_wrap.
  destruct (Z.eq_dec l 0) as [-> | Hne].
  - destruct (Z.eq_dec (2 ^ k) 1) as [E|E].
    + rewrite E. reflexivity.
    + rewrite Z.mod_small; [reflexivity|]. unfold U64.modulus in *. lia.
  - rewrite Z.mod_small; [reflexivity|]. unfold U64.modulus in *. lia.
Qed.

(** With a constructed region size the two masks of for_each_region round
    the offset down to a multiple of the region size and the length (plus
    region size minus one, modulo 2^64) down to one, and none of the three
    assertions of do_for_each_region fails: the call is the loop over
    [region_count] regions from the rounded offset. *)
Theorem for_each_region_assertions_hold {St} rs o l
    (f : Z -> M St stop_iteration) s :
  constructed rs -> U64.is_u64 o -> U64.is_u64 l ->
  Z.land o (U64.lnot (rs - 1)) = align_down rs o /\
  Z.land (U64.sub (U64.add l rs) 1) (U64.lnot (rs - 1)) = rs * region_count rs l /\
  (l + rs - 1 < U64.modulus ->
     Z.land (U64.sub (U64.add l rs) 1) (U64.lnot (rs - 1)) = align_up rs l) /\
  for_each_region rs o l f s =
  region_loop rs (align_down rs o) (region_count rs l) f
    (Z.to_nat (region_count rs l)) 0 s.
Proof.
  intros Hc Ho Hl.
  destruct (constructed_pow2 rs Hc) as (k & Hk & Hrs).
  assert (Hpow : 0 < 2 ^ k) by (apply Z.pow_pos_nonneg; lia).
  assert (HL : U64.is_u64 (U64.sub (U64.add l rs) 1)).
  { unfold U64.sub. apply Z.mod_pos_bound. reflexivity. }
  assert (Hdown : forall v, rs * (v / rs) = align_down rs v).
  { intros v. unfold align_down. subst rs.
    pose proof (Z.div_mod v (2 ^ k) ltac:(lia)). lia. }
  assert (H1 : Z.land o (U64.lnot (rs - 1)) = align_down rs o).
  { rewrite <- Hdown. subst rs. now apply land_lnot_pow2. }
  assert (H2 : Z.land (U64.sub (U64.add l rs) 1) (U64.lnot (rs - 1))
               = rs * region_count rs l).
  { unfold region_count. subst rs. now apply land_lnot_pow2. }
  split; [exact H1|]. split; [exact H2|]. split.
  - intros Hsmall. rewrite H2, region_count_div by assumption.
    unfold align_up. now rewrite Hdown.
  - unfold for_each_region, do_for_each_region. rewrite H1, H2, <- Hdown.
    subst rs.
    unfold bind at 1, assert at 1. rewrite aligned_multiple by lia.
    unfold bind at 1, assert at 1. rewrite aligned_multiple by lia.
    unfold bind at 1, assert at 1.
    rewrite (Z.mul_comm (2 ^ k) (region_count _ _)), Z.mod_mul, Z.div_mul by lia.
    reflexivity.
Qed.

Lemma for_each_region_assertions_hold_witness :
  Z.land 5000 (U64.lnot (1024 - 1)) = align_down 1024 5000 /\
  Z.land (U64.sub (U64.add 3000 1024) 1) (U64.lnot (1024 - 1))
    = 1024 * region_count 1024 3000.
Proof.
  pose proof (for_each_region_assertions_hold 1024 5000 3000 record_id []) as H.
  refine ((fun H' => conj (proj1 H') (proj1 (proj2 H'))) (H _ _ _)).
  - split; [unfold U64.is_u64, U64.modulus; lia|reflexivity].
  - unfold U64.is_u64, U64.modulus; lia.
  - unfold U64.is_u64, U64.modulus; lia.
Defined.

(** ** The regions of a request *)

Lemma widened_ids_seqZ rs o l :
  0 < rs ->
  widened_ids rs o l = seqZ (o / rs) ((o + l - 1) / rs - o / rs + 1).
Proof.
  intros Hrs. unfold widened_ids, align_up, align_down.
  assert (H1 : (o - o mod rs) / rs = o / rs).
  { pose proof (Z.div_mod o rs ltac:(lia)) as H.
    replace (o - o mod rs) with (o / rs * rs) by lia. apply Z.div_mul. lia. }
  assert (H2 : (o + l + rs - 1 - (o + l + rs - 1) mod rs - 1) / rs
               = (o + l - 1) / rs).
  { pose proof (Z.div_mod (o + l + rs - 1) rs ltac:(lia)) as H.
    replace (o + l + rs - 1) with (o + l - 1 + 1 * rs) in * by lia.
    rewrite Z.div_add in * by lia. rewrite Z_mod_plus_full in *.
    symmetry. apply Z.div_unique with (rs - 1); [lia|].
    pose proof (Z.div_mod (o + l - 1) rs ltac:(lia)).
    pose proof (Z.mod_pos_bound (o + l - 1) rs Hrs). lia. }
  rewrite H1, H2. reflexivity.
Qed.

(** The regions a request visits are those of its offset and of the next
    [(length - 1) / region_size] regions.  They are the regions of the
    widened interval exactly when the offset within its region plus the
    last byte's offset within its region stays below the region size, as
    for every region-aligned offset; otherwise the region of the last
    requested byte is the one region missing. *)
Theorem region_ids_against_widened rs o l :
  constructed rs -> accepted o l ->
  l + rs - 1 < U64.modulus -> region_count rs l <= INT_MAX ->
  region_ids rs o l = seqZ (o / rs) ((l - 1) / rs + 1) /\
  (o mod rs + (l - 1) mod rs < rs -> region_ids rs o l = widened_ids rs o l) /\
  (rs <= o mod rs + (l - 1) mod rs ->
     widened_ids rs o l = region_ids rs o l ++ [get_region_id rs (o + l - 1)]).
Proof.
  intros Hc Ha Hsmall Hn.
  destruct (constructed_pow2 rs Hc) as (k & Hk & Hrsk).
  assert (Hrs : 0 < rs) by (subst rs; apply Z.pow_pos_nonneg; lia).
  destruct Ha as (Ho & Hl & Hpos & Hsum).
  assert (Ha : accepted o l) by (unfold accepted; auto).
  assert (Hcnt : region_count rs l = (l - 1) / rs + 1).
  { rewrite region_count_div by assumption.
    replace (l + rs - 1) with (l - 1 + 1 * rs) by lia.
    rewrite Z.div_add by lia. reflexivity. }
  assert (Hids : region_ids rs o l = seqZ (o / rs) ((l - 1) / rs + 1)).
  { rewrite region_ids_seqZ by assumption. rewrite Z.min_l by lia.
    now rewrite Hcnt. }
  assert (Hb : 0 <= (l - 1) / rs) by (apply Z.div_pos; lia).
  pose proof (Z.div_mod o rs ltac:(lia)) as Ho'.
  pose proof (Z.div_mod (l - 1) rs ltac:(lia)) as Hl'.
  pose proof (Z.mod_pos_bound o rs Hrs) as Hp.
  pose proof (Z.mod_pos_bound (l - 1) rs Hrs) as Hq.
  split; [exact Hids|]. rewrite Hids, widened_ids_seqZ by assumption. split.
  - intros Hlt. f_equal.
    assert (E : (o + l - 1) / rs = o / rs + (l - 1) / rs).
    { symmetry. apply Z.div_unique with (o mod rs + (l - 1) mod rs); lia. }
    lia.
  - intros Hge.
    assert (E : (o + l - 1) / rs = o / rs + (l - 1) / rs + 1).
    { symmetry. apply Z.div_unique with (o mod rs + (l - 1) mod rs - rs); lia. }
    unfold get_region_id. rewrite E.
    replace (o / rs + (l - 1) / rs + 1 - o / rs + 1) with ((l - 1) / rs + 1 + 1) by lia.
    rewrite seqZ_snoc by lia. do 2 f_equal. lia.
Qed.

Lemma region_ids_against_widened_witness :
  region_ids 1024 2048 5000 = widened_ids 1024 2048 5000 /\
  widened_ids 1024 1000 100 =
    region_ids 1024 1000 100 ++ [get_region_id 1024 (1000 + 100 - 1)].
Proof.
  assert (Hc : constructed 1024).
  { split; [unfold U64.is_u64, U64.modulus; lia|reflexivity]. }
  split.
  - refine (proj1 (proj2 (region_ids_against_widened 1024 2048 5000 Hc _ _ _)) _).
    + unfold accepted, U64.is_u64, U64.modulus; lia.
    + unfold U64.modulus; lia.
    + vm_compute. discriminate.
    + vm_compute. reflexivity.
  - refine (proj2 (proj2 (region_ids_against_widened 1024 1000 100 Hc _ _ _)) _).
    + unfold accepted, U64.is_u64, U64.modulus; lia.
    + unfold U64.modulus; lia.
    + vm_compute. discriminate.
    + vm_compute. discriminate.
Defined.

(** A request longer than 2^64 minus the region size passes validation
    (its end does not overflow) but the rounding up of its length wraps
    around to zero: no region is visited, and every one of the six
    operations returns, try_lock with [true], leaving the table as it
    was. *)
Theorem oversized_length_locks_nothing rs std14 tid e o l t :
  constructed rs -> accepted o l -> U64.modulus - rs < l ->
  region_ids rs o l = [] /\ call rs std14 tid e o l t = Ok true t.
Proof.
  intros Hc Ha Hbig.
  destruct (constructed_pow2 rs Hc) as (k & Hk & Hrsk).
  assert (Hrs : 0 < rs) by (subst rs; apply Z.pow_pos_nonneg; lia).
  assert (Hcnt : region_count rs l = 0).
  { destruct Ha as (_ & [Hl0 Hl1] & _ & _). destruct (proj1 Hc) as [Hr0 Hr1].
    unfold region_count. rewrite add_sub_wrap. unfold U64.modulus in *.
    assert (Hm : (l + rs - 1) mod 2 ^ 64 = l + rs - 1 - 2 ^ 64).
    { symmetry. apply Z.mod_unique with 1; lia. }
    rewrite Hm. apply Z.div_small. lia. }
  assert (Hids : region_ids rs o l = []).
  { rewrite region_ids_seqZ, Hcnt by assumption. reflexivity. }
  split; [exact Hids|].
  pose proof (fun St s => validate_accepted (S := St) o l s Ha) as Hv.
  assert (Hw : forall St (f : Z -> M St stop_iteration) s,
            for_each_region rs o l f s = Ok tt s).
  { intros St f s. rewrite for_each_region_visit, Hcnt by assumption.
    simpl. apply loop_exit_small. rewrite Hcnt. unfold INT_MAX. lia. }
  assert (Hg : forall try_lock_f unlock_f,
            generic_try_lock rs o l try_lock_f unlock_f t = Ok true t).
  { intros try_lock_f unlock_f. unfold generic_try_lock.
    rewrite (bind_ok _ _ _ _ _ (Hv _ _)), Hw. reflexivity. }
  destruct e; unfold call, lock_shared, try_lock_shared, unlock_shared;
    try destruct std14; unfold lock, try_lock, unlock;
    first [ apply Hg
          | unfold bind at 1 2; rewrite (Hv _ _), Hw; reflexivity ].
Qed.

Lemma oversized_length_locks_nothing_witness :
  region_ids 1024 0 U64.max = [] /\
  call 1024 true 0 Lock 0 U64.max ∅ = Ok true ∅.
Proof.
  apply (oversized_length_locks_nothing 1024 true 0%nat Lock 0 U64.max ∅).
  - split; [unfold U64.is_u64, U64.modulus; lia|reflexivity].
  - unfold accepted, U64.is_u64, U64.modulus, U64.max; lia.
  - unfold U64.modulus, U64.max; lia.
Defined.

(** * The region size derived from a resource size *)

Lemma ceil_half_log2_spec n :
  1 < n -> 4 ^ (ceil_half_log2 n - 1) < n <= 4 ^ ceil_half_log2 n.
Proof.
  intros Hn. unfold ceil_half_log2.
  destruct (Z.log2_up_spec n Hn) as [Hlo Hhi].
  pose proof (Z.log2_up_pos n Hn) as HL.
  set (L := Z.log2_up n) in *.
  pose proof (Z.div_mod (L + 1) 2 ltac:(lia)) as Hd.
  pose proof (Z.mod_pos_bound (L + 1) 2 ltac:(lia)) as Hm.
  set (c := (L + 1) / 2) in *.
  change 4 with (2 ^ 2). rewrite <- !Z.pow_mul_r by lia. split.
  - apply Z.le_lt_trans with (2 ^ Z.pred L); [|exact Hlo].
    apply Z.pow_le_mono_r; lia.
  - apply Z.le_trans with (2 ^ L); [exact Hhi|].
    apply Z.pow_le_mono_r; lia.
Qed.

(** The powers of two up to 2^63 are doubles, and convert back to
    themselves. *)
Lemma pow2_double_round_trip k :
  0 <= k <= 63 -> double_to_u64 (u64_to_double (2 ^ k)) = Some (2 ^ k).
Proof.
  intros Hk.
  assert (H : forallb (fun k => match double_to_u64 (u64_to_double (2 ^ k)) with
                                | Some v => v =? 2 ^ k
                                | None => false
                                end) (seqZ 0 64) = true)
    by (vm_compute; reflexivity).
  rewrite forallb_forall in H. specialize (H k).
  destruct (double_to_u64 (u64_to_double (2 ^ k))) as [v|].
  - f_equal. apply Z.eqb_eq, H, list_elem_of_In, elem_of_seqZ. lia.
  - discriminate H. apply list_elem_of_In, elem_of_seqZ. lia.
Qed.

(** ** C9 *)

(** C9, as the claim states it, fails.  The code sees the resource size
    only through its conversion to double, and 2^54 and 2^54 + 1 convert
    to the same double, while the exact formula gives them the region
    sizes 2^27 and 2^28: whatever std::log2 and std::pow compute, the
    derived region size is not the exact formula for every resource
    size. *)
Lemma region_size_not_exact_formula :
  ~ exists log2 pow, forall n,
      0 < n < U64.modulus ->
      create_range_lock log2 pow n = Ok (spec_region_size n) ∅.
Proof.
  intros (log2 & pow & H).
  assert (H1 := H (2 ^ 54) ltac:(unfold U64.modulus; lia)).
  assert (H2 := H (2 ^ 54 + 1) ltac:(unfold U64.modulus; lia)).
  unfold create_range_lock in H1, H2.
  change (u64_to_double (2 ^ 54 + 1)) with (u64_to_double (2 ^ 54)) in H2.
  rewrite H1 in H2. vm_compute in H2. discriminate H2.
Qed.

(** C9, amended.  For a resource size below 2^64 let [c] be
    [ceil (log2 d * 0.5)] computed in double precision on [d], the double
    nearest to the resource size.  When [c] is at most 63 and std::pow is
    exact on [2 ^ max c 10], create_range_lock yields the region size
    [2 ^ max c 10]: a power of two, at least 1024, that the constructor
    accepts.  Resource sizes that convert to the same double get the same
    region size.  create_range_lock(1000000) yields 1024 when
    log2(1000000.0) is the correctly rounded 0x1.3ee7b471b3a95p+4
    (19.93...) and pow(2, 10) is 1024. *)
Theorem create_range_lock_region_size log2 pow n c :
  0 < n < U64.modulus ->
  double_to_u64 (ceil (PrimFloat.mul (log2 (u64_to_double n)) 0.5%float)) = Some c ->
  c <= 63 ->
  pow 2%float (u64_to_double (Z.max c 10)) = u64_to_double (2 ^ Z.max c 10) ->
  create_range_lock log2 pow n = Ok (2 ^ Z.max c 10) ∅ /\
  1024 <= 2 ^ Z.max c 10 /\
  constructed (2 ^ Z.max c 10) /\
  (forall n', u64_to_double n' = u64_to_double n ->
     create_range_lock log2 pow n' = create_range_lock log2 pow n) /\
  (log2 (u64_to_double 1000000) = 0x1.3ee7b471b3a95p+4%float ->
   pow 2%float (u64_to_double 10) = u64_to_double 1024 ->
   create_range_lock log2 pow 1000000 = Ok 1024 ∅).
Proof.
  intros Hn Hc Hc63 Hpow.
  assert (Hk : 0 <= Z.max c 10 < 64) by lia.
  pose proof (pow2_constructed _ Hk) as Hcons.
  split; [|split; [|split; [exact Hcons|split]]].
  - unfold create_range_lock. rewrite Hc. cbv zeta.
    rewrite Hpow, pow2_double_round_trip by lia.
    destruct Hcons as [_ ->]. reflexivity.
  - change 1024 with (2 ^ 10). apply Z.pow_le_mono_r; lia.
  - intros n' Hn'. unfold create_range_lock. now rewrite Hn'.
  - intros Hlog Hp. unfold create_range_lock. rewrite Hlog.
    change (double_to_u64 (ceil (PrimFloat.mul 0x1.3ee7b471b3a95p+4 0.5)))
      with (Some 10).
    cbv iota beta. change (Z.max 10 10) with 10. rewrite Hp. reflexivity.
Qed.

Lemma create_range_lock_region_size_witness :
  create_range_lock (fun _ => 0x1.3ee7b471b3a95p+4%float)
                    (fun _ _ => 1024%float) 1000000 = Ok 1024 ∅.
Proof.
  refine (proj1 (create_range_lock_region_size
                   (fun _ => 0x1.3ee7b471b3a95p+4%float)
                   (fun _ _ => 1024%float) 1000000 10 _ _ _ _)).
  - unfold U64.modulus; lia.
  - reflexivity.
  - lia.
  - reflexivity.
Defined.

(** * The programs of the threads and the operations

    A thread's program, run with no other thread in between, computes what
    the operation it stands for computes. *)

Lemma run_step_of (m : M table unit) p t :
  run (Act (step_of m) (fun _ => p)) t = (m ;; run p) t.
Proof. simpl. unfold step_of, bind, ret. now destruct (m t) as [[] t1|]. Qed.

Lemma visit_ext {St} ids (f : Z -> M St stop_iteration) (k k' : M St unit) s :
  (forall s, k s = k' s) -> visit ids f k s = visit ids f k' s.
Proof.
  intros Hk. revert s. induction ids as [|id ids IH]; intros s; simpl; [apply Hk|].
  unfold bind. destruct (f id s) as [[|] s1|]; auto.
Qed.

Lemma run_acquire_steps std14 tid m ids exit k t :
  run (acquire_steps std14 tid m ids exit k) t =
  match visit ids (fun region_id =>
          get_and_lock_region region_id ;;
          on_mutex region_id (m_lock std14 tid m region_id) ;; ret no) exit t with
  | Ok _ t' => run k t'
  | Halt h t' => Halt h t'
  end.
Proof.
  revert t. induction ids as [|id ids IH]; intros t.
  - simpl acquire_steps. rewrite run_step_of. reflexivity.
  - simpl acquire_steps. rewrite run_step_of. simpl visit. unfold bind at 1 2 3.
    destruct (get_and_lock_region id t) as [[] t1|h t1]; [|reflexivity].
    rewrite run_step_of. unfold bind at 1 2, ret.
    destruct (on_mutex id (m_lock std14 tid m id) t1) as [[] t2|h t2];
      [apply IH|reflexivity].
Qed.

Lemma run_release_steps std14 tid m ids k t :
  run (release_steps std14 tid m ids k) t =
  match for_each_id ids (fun region_id =>
          get_locked_region region_id ;;
          on_mutex region_id (m_unlock std14 tid m) ;;
          unlock_region region_id) t with
  | Ok _ t' => run k t'
  | Halt h t' => Halt h t'
  end.
Proof.
  revert t. induction ids as [|id ids IH]; intros t; [reflexivity|].
  simpl release_steps. rewrite run_step_of. simpl for_each_id.
  unfold bind at 1 2 3.
  destruct (get_locked_region id t) as [[] t1|h t1]; [|reflexivity].
  rewrite run_step_of. unfold bind at 1 2.
  destruct (on_mutex id (m_unlock std14 tid m) t1) as [[] t2|h t2]; [|reflexivity].
  rewrite run_step_of. unfold bind at 1.
  destruct (unlock_region id t2) as [[] t3|h t3]; [apply IH|reflexivity].
Qed.

(** The walk of unlock is the rollback walk, as long as no call asks to
    stop. *)
Lemma visit_for_each_id ids (f : Z -> M table unit) (k : M table unit) t :
  visit ids (fun region_id => f region_id ;; ret no) k t =
  (for_each_id ids f ;; k) t.
Proof.
  revert t. induction ids as [|id ids IH]; intros t; [reflexivity|].
  simpl. unfold bind, ret in *.
  destruct (f id t) as [[] t1|h t1]; [apply IH|reflexivity].
Qed.

Lemma run_try_steps rs l std14 tid m ids locked t :
  run (try_steps std14 tid m ids locked (loop_exit rs l) (fun _ => Fin)) t =
  match visit ids (fun region_id fr =>
          match (get_and_lock_region region_id ;;
                 on_mutex region_id (m_try_lock std14 tid m)) (frame_table fr) with
          | Ok true t' =>
              Ok no {| frame_table := t';
                       locked_region_ids := locked_region_ids fr ++ [region_id];
                       failed_to_lock_region := failed_to_lock_region fr |}
          | Ok false t' =>
              Ok yes {| frame_table := t';
                        locked_region_ids := locked_region_ids fr;
                        failed_to_lock_region := true |}
          | Halt h t' =>
              Halt h {| frame_table := t';
                        locked_region_ids := locked_region_ids fr;
                        failed_to_lock_region := failed_to_lock_region fr |}
          end) (loop_exit rs l)
          {| frame_table := t; locked_region_ids := locked;
             failed_to_lock_region := false |} with
  | Halt h fr => Halt h (frame_table fr)
  | Ok _ fr =>
      ((if failed_to_lock_region fr
        then for_each_id (locked_region_ids fr) (fun region_id =>
               get_locked_region region_id ;;
               on_mutex region_id (m_unlock std14 tid m) ;;
               unlock_region region_id)
        else ret tt) ;; ret tt) (frame_table fr)
  end.
Proof.
  revert locked t. induction ids as [|id ids IH]; intros locked t.
  - simpl try_steps. rewrite run_step_of. simpl visit.
    unfold loop_exit, defined, bind. destruct (_ <=? _); reflexivity.
  - simpl try_steps. rewrite run_step_of. simpl visit. unfold bind at 1 2 3.
    simpl frame_table.
    destruct (get_and_lock_region id t) as [[] t1|h t1]; [|reflexivity].
    simpl run.
    destruct (on_mutex id (m_try_lock std14 tid m) t1) as [[|] t2|h t2].
    + apply IH.
    + simpl. rewrite run_release_steps. unfold bind, ret.
      now destruct (for_each_id _ _ _) as [[] t3|h t3].
    + reflexivity.
Qed.

Lemma visit_ext_callback {St} ids (f g : Z -> M St stop_iteration) (k : M St unit) s :
  (forall id s, f id s = g id s) -> visit ids f k s = visit ids g k s.
Proof.
  intros Hfg. revert s. induction ids as [|id ids IH]; intros s; simpl; [reflexivity|].
  unfold bind. rewrite Hfg. destruct (g id s) as [[|] s1|]; auto.
Qed.

Lemma bind_apply {St A B} (m : M St A) (k : A -> M St B) s :
  bind m k s = match m s with Ok a s' => k a s' | Halt h s' => Halt h s' end.
Proof. reflexivity. Qed.

Lemma res_unit_eta (x : res table unit) :
  match x with Ok _ t' => Ok tt t' | Halt h t' => Halt h t' end = x.
Proof. now destruct x as [[] t'|h t']. Qed.

Lemma run_lock_prog rs std14 tid m o l t :
  constructed rs -> U64.is_u64 o -> U64.is_u64 l ->
  run (lock_prog rs std14 tid m o l Fin) t =
  (validate_parameters o l ;;
   for_each_region rs o l (fun region_id =>
     get_and_lock_region region_id ;;
     on_mutex region_id (m_lock std14 tid m region_id) ;; ret no)) t.
Proof.
  intros Hc Ho Hl. unfold lock_prog. rewrite run_step_of.
  destruct (accepted_or_rejected o l Ho Hl) as [Ha|Hbad].
  - rewrite !(bind_ok _ _ _ _ _ (validate_accepted o l t Ha)).
    rewrite run_acquire_steps, for_each_region_visit, region_ids_seqZ by assumption.
    apply res_unit_eta.
  - now rewrite !(bind_halt _ _ _ _ _ (validate_rejected o l t Ho Hl Hbad)).
Qed.

Lemma run_unlock_prog rs std14 tid m o l t :
  constructed rs -> U64.is_u64 o -> U64.is_u64 l ->
  run (unlock_prog rs std14 tid m o l Fin) t =
  (validate_parameters o l ;;
   for_each_region rs o l (fun region_id =>
     get_locked_region region_id ;;
     on_mutex region_id (m_unlock std14 tid m) ;;
     unlock_region region_id ;; ret no)) t.
Proof.
  intros Hc Ho Hl. unfold unlock_prog. rewrite run_step_of.
  destruct (accepted_or_rejected o l Ho Hl) as [Ha|Hbad].
  - rewrite !(bind_ok _ _ _ _ _ (validate_accepted o l t Ha)).
    rewrite run_release_steps, for_each_region_visit, <- region_ids_seqZ by assumption.
    rewrite (visit_ext_callback _ _ (fun region_id =>
               (get_locked_region region_id ;;
                on_mutex region_id (m_unlock std14 tid m) ;;
                unlock_region region_id) ;; ret no)).
    + rewrite visit_for_each_id, bind_apply.
      destruct (for_each_id _ _ t) as [[] t1|h t1]; [|reflexivity].
      rewrite run_step_of. unfold bind, ret. simpl.
      now destruct (loop_exit rs l t1) as [[] t2|h t2].
    + intros id s. unfold bind, ret.
      destruct (get_locked_region id s) as [[] s1|]; [|reflexivity].
      destruct (on_mutex id _ s1) as [[] s2|]; [|reflexivity].
      now destruct (unlock_region id s2) as [[] s3|].
  - now rewrite !(bind_halt _ _ _ _ _ (validate_rejected o l t Ho Hl Hbad)).
Qed.

Lemma run_try_lock_prog rs std14 tid m o l t :
  constructed rs -> U64.is_u64 o -> U64.is_u64 l ->
  run (try_lock_prog rs std14 tid m o l (fun _ => Fin)) t =
  (generic_try_lock rs o l
     (fun region_id =>
        get_and_lock_region region_id ;;
        on_mutex region_id (m_try_lock std14 tid m))
     (fun region_id =>
        get_locked_region region_id ;;
        on_mutex region_id (m_unlock std14 tid m) ;;
        unlock_region region_id) ;; ret tt) t.
Proof.
  intros Hc Ho Hl. unfold try_lock_prog. rewrite run_step_of.
  rewrite (bind_apply (validate_parameters o l)).
  rewrite (bind_apply (generic_try_lock _ _ _ _ _)).
  unfold generic_try_lock.
  destruct (accepted_or_rejected o l Ho Hl) as [Ha|Hbad].
  - rewrite (validate_accepted o l t Ha).
    rewrite (bind_ok _ _ _ _ _ (validate_accepted o l _ Ha)).
    rewrite run_try_steps, for_each_region_visit, <- region_ids_seqZ by assumption.
    match goal with
    | |- match ?v with _ => _ end = _ => destruct v as [[] fr|h fr]
    end; [|reflexivity].
    unfold bind, ret.
    destruct (failed_to_lock_region fr); [|reflexivity].
    now destruct (for_each_id _ _ _) as [[] t1|h t1].
  - rewrite (validate_rejected o l t Ho Hl Hbad).
    now rewrite (bind_halt _ _ _ _ _ (validate_rejected o l _ Ho Hl Hbad)).
Qed.

(** The programs of the threads are the operations: run with no other
    thread in between, the program of lock, lock_shared, unlock,
    unlock_shared, try_lock or try_lock_shared ends as the operation does,
    in the same table. *)
Theorem programs_are_the_operations rs std14 tid o l t :
  constructed rs -> U64.is_u64 o -> U64.is_u64 l ->
  run (lock_prog rs std14 tid Exclusive o l Fin) t = lock rs tid o l t /\
  run (lock_prog rs std14 tid Shared o l Fin) t = lock_shared rs std14 tid o l t /\
  run (unlock_prog rs std14 tid Exclusive o l Fin) t = unlock rs tid o l t /\
  run (unlock_prog rs std14 tid Shared o l Fin) t = unlock_shared rs std14 tid o l t /\
  run (try_lock_prog rs std14 tid Exclusive o l (fun _ => Fin)) t =
    (try_lock rs tid o l ;; ret tt) t /\
  run (try_lock_prog rs std14 tid Shared o l (fun _ => Fin)) t =
    (try_lock_shared rs std14 tid o l ;; ret tt) t.
Proof.
  intros Hc Ho Hl.
  repeat split;
    first [ rewrite run_lock_prog by assumption
          | rewrite run_unlock_prog by assumption
          | rewrite run_try_lock_prog by assumption ];
    unfold lock_shared, unlock_shared, try_lock_shared;
    try destruct std14; reflexivity.
Qed.

Lemma programs_are_the_operations_witness :
  run (lock_prog 1024 true 0 Exclusive 1000 3000 Fin) ∅ = lock 1024 0 1000 3000 ∅.
Proof.
  refine (proj1 (programs_are_the_operations 1024 true 0%nat 1000 3000 ∅ _ _ _)).
  - split; [unfold U64.is_u64, U64.modulus; lia|reflexivity].
  - unfold U64.is_u64, U64.modulus; lia.
  - unfold U64.is_u64, U64.modulus; lia.
Defined.

(** * Operations that do not wait *)

Lemma halts_within_generic_try_lock (P : halt -> Prop) rs o l
    (try_lock_f : Z -> M table bool) (unlock_f : Z -> M table unit) :
  P (Abort InvalidRange) -> P (Abort BadAlignment) -> P (Undefined CounterOverflow) ->
  (forall id, halts_within P (try_lock_f id)) ->
  (forall id, halts_within P (unlock_f id)) ->
  halts_within P (generic_try_lock rs o l try_lock_f unlock_f).
Proof.
  intros Hv Ha Hc Htry Hun t h t' H. unfold generic_try_lock in H.
  match type of H with
  | context [bind ?v ?k ?s] =>
      match type of s with
      | try_frame => destruct (bind v k s) as [[] fr|h1 fr] eqn:E
      end
  end.
  - revert H. generalize (frame_table fr). intros t0 H.
    eapply (halts_within_apply P); [|exact H].
    apply halts_within_bind; [|intros; apply halts_within_ret].
    destruct (failed_to_lock_region fr);
      [now apply halts_within_for_each_id|apply halts_within_ret].
  - inversion H; subst. eapply (halts_within_apply P); [|exact E].
    apply halts_within_bind.
    + unfold validate_parameters.
      apply halts_within_bind; [|intros _]; now apply halts_within_assert.
    + intros _. apply halts_within_for_each_region; try assumption.
      intros id fr0 h0 fr1 Hcb.
      destruct (try_lock_f id (frame_table fr0)) as [[|] t1|h1 t1] eqn:Et;
        try discriminate.
      inversion Hcb; subst. eapply Htry; eassumption.
Qed.

Lemma not_waiting_mutex_unlock tid : halts_within not_waiting (mutex_unlock tid).
Proof. exact (not_waiting_m_unlock true tid Exclusive). Qed.

Lemma not_waiting_mutex_unlock_shared tid :
  halts_within not_waiting (mutex_unlock_shared tid).
Proof. exact (not_waiting_m_unlock true tid Shared). Qed.

Lemma not_waiting_mutex_try_lock tid : halts_within not_waiting (mutex_try_lock tid).
Proof. exact (not_waiting_m_try_lock true tid Exclusive). Qed.

Lemma not_waiting_mutex_try_lock_shared tid :
  halts_within not_waiting (mutex_try_lock_shared tid).
Proof. exact (not_waiting_m_try_lock true tid Shared). Qed.

Ltac not_waiting_step :=
  first
    [ apply not_waiting_validate
    | apply not_waiting_get_and_lock_region
    | apply not_waiting_get_locked_region
    | apply not_waiting_unlock_region
    | apply halts_within_ret
    | apply not_waiting_on_mutex;
        first [ apply not_waiting_mutex_unlock
              | apply not_waiting_mutex_unlock_shared
              | apply not_waiting_mutex_try_lock
              | apply not_waiting_mutex_try_lock_shared ]
    | apply halts_within_for_each_region; [discriminate|discriminate|intros ?]
    | apply halts_within_generic_try_lock;
        [discriminate|discriminate|discriminate|intros ?|intros ?]
    | apply halts_within_bind; [|intros ?] ].



(** * What a reference count counts *)

(** After any sequence of calls that all returned, started on the empty
    table, the reference count of each region is the number of acquired
    ranges that visit it minus the number of released ranges that visit
    it, and the regions in the table are those with a positive count. *)
Theorem refcount_counts_holders rs std14 calls t' :
  constructed rs ->
  Forall (fun c => accepted (req_offset c) (req_length c)) calls ->
  Z.of_nat (length calls) <= U64.max ->
  run_calls rs std14 calls ∅ = Ok true t' ->
  table_inv t' /\
  forall id, refcount_of t' id =
             coverage rs id (acquired calls) - coverage rs id (released calls).
Proof.
  intros Hc Hall Hlen H.
  destruct (run_calls_counts rs std14 calls Hc Hall ∅ t' 0) as [Hinv Hcnt];
    try assumption; try lia.
  - apply table_inv_empty.
  - intros id. unfold refcount_of. rewrite lookup_empty. lia.
  - split; [exact Hinv|]. intros id. rewrite Hcnt.
    unfold refcount_of. rewrite lookup_empty. lia.
Qed.

Lemma refcount_counts_holders_witness :
  match run_calls 1024 true
          [Request 0 LockShared 0 2048; Request 1 LockShared 1024 1;
           Request 0 UnlockShared 0 2048] ∅ with
  | Ok true t' => refcount_of t' 1 = 1 /\ refcount_of t' 0 = 0
  | _ => False
  end.
Proof.
  set (calls := [Request 0 LockShared 0 2048; Request 1 LockShared 1024 1;
                 Request 0 UnlockShared 0 2048]).
  destruct (run_calls 1024 true calls ∅) as [[|] t'|h t'] eqn:E;
    [|vm_compute in E; discriminate E..].
  destruct (refcount_counts_holders 1024 true calls t') as [_ Hcnt].
  - split; [unfold U64.is_u64, U64.modulus; lia|reflexivity].
  - repeat constructor; unfold accepted, U64.is_u64, U64.modulus; simpl; lia.
  - simpl. unfold U64.max. lia.
  - exact E.
  - rewrite !Hcnt. split; reflexivity.
Defined.

(** * What the caller holds when an acquisition returns *)

Lemma acquire_step_lookup {A} id (op : M mutex_state A) t a t1 :
  (get_and_lock_region id ;; on_mutex id op) t = Ok a t1 ->
  (forall id', id' <> id -> t1 !! id' = t !! id') /\
  exists r s, t1 !! id = Some r /\ op s = Ok a (mutex r).
Proof.
  unfold bind, get_and_lock_region, on_mutex. rewrite lookup_insert_eq. simpl.
  match goal with
  | |- context [op ?s] => destruct (op s) as [a0 m'|h m'] eqn:Eop; [|discriminate]
  end.
  intros [= <- <-]. rewrite insert_insert_eq. split.
  - intros id' Hne. now rewrite lookup_insert_ne.
  - rewrite lookup_insert_eq. eauto.
Qed.

Lemma acquire_holds {A} rs o l (op : Z -> M mutex_state A)
    (x : A -> stop_iteration) (P : mutex_state -> Prop) t t' :
  constructed rs -> accepted o l ->
  (forall a, x a = no) ->
  (forall id s a s', op id s = Ok a s' -> P s') ->
  for_each_region rs o l (fun region_id =>
    get_and_lock_region region_id ;;
    let* a := on_mutex region_id (op region_id) in ret (x a)) t = Ok tt t' ->
  forall id, id ∈ region_ids rs o l -> exists r, t' !! id = Some r /\ P (mutex r).
Proof.
  intros Hc Ha Hx HP H id Hid.
  pose proof (region_count_nonneg rs l Hc) as Hn.
  apply (elem_of_region_ids rs o l id Hc Ha) in Hid.
  rewrite for_each_region_visit in H by assumption.
  apply (visit_seqZ_ok
           (fun lo t1 => forall id, o / rs <= id < lo ->
                                    exists r, t1 !! id = Some r /\ P (mutex r))
           (fun _ => False)) in H.
  - destruct H as [H|[]]. now apply H.
  - unfold INT_MAX. lia.
  - intros s s1. apply loop_exit_ok.
  - intros id0 s s1 Hid0 HJ Hf.
    assert (Hf' : exists a, (get_and_lock_region id0 ;;
                             on_mutex id0 (op id0)) s = Ok a s1).
    { unfold bind, ret in *.
      destruct (get_and_lock_region id0 s) as [[] s2|]; [|discriminate].
      destruct (on_mutex id0 (op id0) s2) as [a s3|]; [|discriminate].
      injection Hf as _ <-. eauto. }
    destruct Hf' as [a Hf'].
    apply acquire_step_lookup in Hf' as [Hother (r & s0 & Hr & Hop)].
    intros id' Hid'. destruct (Z.eq_dec id' id0) as [-> | Hne].
    + exists r. split; [exact Hr|]. eapply HP, Hop.
    + rewrite Hother by assumption. apply HJ. lia.
  - intros id0 s s1 Hid0 HJ Hf. unfold bind, ret in Hf.
    destruct (get_and_lock_region id0 s) as [[] s2|]; [|discriminate].
    destruct (on_mutex id0 (op id0) s2) as [a s3|]; [|discriminate].
    rewrite Hx in Hf. discriminate.
  - intros id' Hid'. lia.
Qed.

Lemma try_holds rs o l (op : M mutex_state bool) (unlock_f : Z -> M table unit)
    (P : mutex_state -> Prop) t t' :
  constructed rs -> accepted o l ->
  (forall s s', op s = Ok true s' -> P s') ->
  generic_try_lock rs o l
    (fun region_id => get_and_lock_region region_id ;; on_mutex region_id op)
    unlock_f t = Ok true t' ->
  forall id, id ∈ region_ids rs o l -> exists r, t' !! id = Some r /\ P (mutex r).
Proof.
  intros Hc Ha HP H id Hid.
  pose proof (region_count_nonneg rs l Hc) as Hn.
  apply (elem_of_region_ids rs o l id Hc Ha) in Hid.
  unfold generic_try_lock in H.
  rewrite (bind_ok _ _ _ _ _ (validate_accepted o l _ Ha)) in H.
  rewrite for_each_region_visit in H by assumption.
  match type of H with
  | context [visit ?ids ?f ?k ?s] =>
      destruct (visit ids f k s) as [[] fr|h fr] eqn:E; [|discriminate]
  end.
  apply (visit_seqZ_ok
           (fun lo fr => failed_to_lock_region fr = false /\
              forall id, o / rs <= id < lo ->
                exists r, frame_table fr !! id = Some r /\ P (mutex r))
           (fun fr => failed_to_lock_region fr = true)) in E.
  - destruct E as [[Hf HJ]|Hf]; rewrite Hf in H.
    + injection H as <-. now apply HJ.
    + unfold bind, ret in H. destruct (for_each_id _ _ _); discriminate.
  - unfold INT_MAX. lia.
  - intros s s1. apply loop_exit_ok.
  - intros id0 s s1 Hid0 [Hfl HJ] Hf.
    destruct ((get_and_lock_region id0 ;; on_mutex id0 op) (frame_table s))
      as [[|] s3|] eqn:E2; [|discriminate..].
    injection Hf as <-. simpl. split; [exact Hfl|].
    apply acquire_step_lookup in E2 as [Hother (r & s0 & Hr & Hop)].
    intros id' Hid'. destruct (Z.eq_dec id' id0) as [-> | Hne].
    + exists r. split; [exact Hr|]. eapply HP, Hop.
    + rewrite Hother by assumption. apply HJ. lia.
  - intros id0 s s1 Hid0 [Hfl HJ] Hf.
    destruct ((get_and_lock_region id0 ;; on_mutex id0 op) (frame_table s))
      as [[|] s3|] eqn:E2; [discriminate| |discriminate].
    injection Hf as <-. reflexivity.
  - split; [reflexivity|]. intros id' Hid'. lia.
Qed.

Lemma mutex_lock_writer tid id s a s' :
  mutex_lock tid id s = Ok a s' -> s' = Writer tid.
Proof.
  unfold mutex_lock. destruct (owns tid s); [discriminate|].
  destruct (is_unlocked s); [|discriminate]. now intros [= _ <-].
Qed.

Lemma mutex_try_lock_writer tid s s' :
  mutex_try_lock tid s = Ok true s' -> s' = Writer tid.
Proof.
  unfold mutex_try_lock. destruct (owns tid s); [discriminate|].
  destruct (is_unlocked s); [|discriminate]. now intros [= <-].
Qed.

Lemma mutex_lock_shared_reader tid id s a s' :
  mutex_lock_shared tid id s = Ok a s' -> owns tid s' = true.
Proof.
  unfold mutex_lock_shared. destruct (owns tid s); [discriminate|].
  destruct s as [w|rs]; [discriminate|]. intros [= _ <-]. simpl.
  apply bool_decide_eq_true_2. set_solver.
Qed.

Lemma mutex_try_lock_shared_reader tid s s' :
  mutex_try_lock_shared tid s = Ok true s' -> owns tid s' = true.
Proof.
  unfold mutex_try_lock_shared. destruct (owns tid s); [discriminate|].
  destruct s as [w|rs]; [discriminate|]. intros [= <-]. simpl.
  apply bool_decide_eq_true_2. set_solver.
Qed.

Lemma writer_owns tid tid' : owns tid' (Writer tid) = true <-> tid' = tid.
Proof.
  simpl. split.
  - intros H. apply bool_decide_eq_true_1 in H. congruence.
  - intros ->. now apply bool_decide_eq_true_2.
Qed.

(** When lock, try_lock (with [true]), lock_shared or try_lock_shared
    (with [true]) returns, the caller owns the mutex of every region the
    request visits; after lock and try_lock, and after the shared
    operations of a build before C++14, no other thread owns any of
    them. *)
Theorem acquired_range_is_owned rs std14 tid e o l t t' id :
  constructed rs -> accepted o l -> acquires e = true ->
  call rs std14 tid e o l t = Ok true t' ->
  id ∈ region_ids rs o l ->
  owns_in t' tid id /\
  (e = Lock \/ e = TryLock \/ std14 = false ->
   forall tid', tid' <> tid -> ~ owns_in t' tid' id).
Proof.
  intros Hc Ha He H Hid.
  pose proof (fun St s => validate_accepted (S := St) o l s Ha) as Hv.
  assert (Hexcl : (exists r, t' !! id = Some r /\ mutex r = Writer tid) ->
            owns_in t' tid id /\
            (e = Lock \/ e = TryLock \/ std14 = false ->
             forall tid', tid' <> tid -> ~ owns_in t' tid' id)).
  { intros (r & Hr & Hm). split.
    - exists r. split; [exact Hr|]. rewrite Hm. now apply writer_owns.
    - intros _ tid' Hne (r' & Hr' & Hown). rewrite Hr in Hr'.
      injection Hr' as <-. rewrite Hm in Hown. now apply writer_owns in Hown. }
  assert (Hsh : std14 = true -> (e = LockShared \/ e = TryLockShared) ->
            (exists r, t' !! id = Some r /\ owns tid (mutex r) = true) ->
            owns_in t' tid id /\
            (e = Lock \/ e = TryLock \/ std14 = false ->
             forall tid', tid' <> tid -> ~ owns_in t' tid' id)).
  { intros Hstd He' (r & Hr & Hm). split; [exists r; auto|].
    intros [-> | [-> | ->]]; destruct He'; discriminate. }
  destruct e; try discriminate He; unfold call in H.
  - apply bind_ret_ok in H. destruct H as [_ [[] H]]. unfold lock in H.
    rewrite (bind_ok _ _ _ _ _ (Hv _ _)) in H. apply Hexcl.
    exact (acquire_holds rs o l (mutex_lock tid) (fun _ => no) _ t t' Hc Ha
             (fun _ => eq_refl) (mutex_lock_writer tid) H id Hid).
  - unfold try_lock in H. apply Hexcl.
    exact (try_holds rs o l _ _ _ t t' Hc Ha (mutex_try_lock_writer tid) H id Hid).
  - apply bind_ret_ok in H. destruct H as [_ [[] H]].
    unfold lock_shared in H. destruct std14.
    + rewrite (bind_ok _ _ _ _ _ (Hv _ _)) in H.
      apply Hsh; [reflexivity|now left|].
      exact (acquire_holds rs o l (mutex_lock_shared tid) (fun _ => no) _ t t'
               Hc Ha (fun _ => eq_refl) (mutex_lock_shared_reader tid) H id Hid).
    + unfold lock in H. rewrite (bind_ok _ _ _ _ _ (Hv _ _)) in H. apply Hexcl.
      exact (acquire_holds rs o l (mutex_lock tid) (fun _ => no) _ t t' Hc Ha
               (fun _ => eq_refl) (mutex_lock_writer tid) H id Hid).
  - unfold try_lock_shared in H. destruct std14.
    + apply Hsh; [reflexivity|now right|].
      exact (try_holds rs o l _ _ _ t t' Hc Ha
               (mutex_try_lock_shared_reader tid) H id Hid).
    + unfold try_lock in H. apply Hexcl.
      exact (try_holds rs o l _ _ _ t t' Hc Ha (mutex_try_lock_writer tid)
               H id Hid).
Qed.

Lemma acquired_range_is_owned_witness :
  match call 1024 true 1 Lock 1000 100 ∅ with
  | Ok true t' =>
      owns_in t' 1 0 /\ forall tid', tid' <> 1%nat -> ~ owns_in t' tid' 0
  | _ => False
  end.
Proof.
  destruct (call 1024 true 1 Lock 1000 100 ∅) as [[|] t'|h t'] eqn:E;
    [|vm_compute in E; discriminate E..].
  destruct (acquired_range_is_owned 1024 true 1 Lock 1000 100 ∅ t' 0)
    as [H1 H2].
  - split; [unfold U64.is_u64, U64.modulus; lia|reflexivity].
  - unfold accepted, U64.is_u64, U64.modulus; lia.
  - reflexivity.
  - exact E.
  - assert (region_ids 1024 1000 100 = [0]) as -> by (vm_compute; reflexivity).
    constructor.
  - split; [exact H1|apply H2; now left].
Defined.

(** * The loop counter *)

Lemma visit_seqZ_through {St} (J : Z -> St -> Prop)
    (f : Z -> M St stop_iteration) (k : M St unit) first cnt s :
  0 <= cnt ->
  (forall id s, first <= id < first + cnt -> J id s ->
     exists s1, f id s = Ok no s1 /\ J (id + 1) s1) ->
  J first s ->
  exists s', visit (seqZ first cnt) f k s = k s' /\ J (first + cnt) s'.
Proof.
  intros Hcnt. rewrite <- (Z2Nat.id cnt) by lia.
  generalize (Z.to_nat cnt) as c. clear Hcnt cnt.
  intros c. revert first s. induction c as [|c IH]; intros first s Hf HJ.
  - rewrite seqZ_nil by lia. simpl. rewrite Z.add_0_r. eauto.
  - rewrite seqZ_cons by lia. simpl. unfold bind.
    destruct (Hf first s) as (s1 & Hs1 & HJ1); [lia|exact HJ|].
    rewrite Hs1. replace (Z.pred (Z.of_nat (S c))) with (Z.of_nat c) by lia.
    destruct (IH (Z.succ first) s1) as (s' & Hv & HJ').
    + intros id s0 Hid. apply Hf. lia.
    + replace (Z.succ first) with (first + 1) by lia. exact HJ1.
    + exists s'. split; [exact Hv|].
      replace (first + Z.of_nat (S c)) with (Z.succ first + Z.of_nat c) by lia.
      exact HJ'.
Qed.

(** The loop of do_for_each_region counts the regions in an [int].  A lock
    request on a fresh table that spans more than INT_MAX regions locks
    the first INT_MAX + 1 of them and then increments the counter past
    INT_MAX, which is undefined behaviour: the request never returns
    normally. *)
Theorem lock_overflows_int_counter rs tid o l :
  constructed rs -> accepted o l ->
  INT_MAX < region_count rs l ->
  exists t',
    lock rs tid o l ∅ = Halt (Undefined CounterOverflow) t' /\
    range_held (Writer tid) (o / rs) (o / rs + (INT_MAX + 1)) t'.
Proof.
  intros Hc Ha Hbig. unfold lock.
  rewrite (bind_ok _ _ _ _ _ (validate_accepted o l _ Ha)).
  rewrite for_each_region_visit by assumption.
  rewrite Z.min_r by lia.
  destruct (visit_seqZ_through
              (fun id t => range_held (Writer tid) (o / rs) id t)
              (fun region_id =>
                 get_and_lock_region region_id ;;
                 on_mutex region_id (mutex_lock tid region_id) ;; ret no)
              (loop_exit rs l) (o / rs) (INT_MAX + 1) ∅)
    as (t' & Hv & Hheld).
  - unfold INT_MAX. lia.
  - intros id s Hid HJ.
    destruct (acquire_fresh (mutex_lock tid id) tt (Writer tid) (o / rs) id s)
      as (t1 & Hstep & Hheld); [reflexivity|lia|exact HJ|].
    exists t1. split; [|exact Hheld].
    unfold bind, ret in *.
    destruct (get_and_lock_region id s) as [[] s2|]; [|discriminate].
    now rewrite Hstep.
  - intros id. rewrite lookup_empty.
    rewrite bool_decide_eq_false_2 by lia. reflexivity.
  - exists t'. split; [|exact Hheld].
    rewrite Hv. unfold loop_exit, defined.
    destruct (Z.leb_spec (region_count rs l) INT_MAX); [lia|reflexivity].
Qed.

Lemma lock_overflows_int_counter_witness :
  exists t',
    lock 1 7 0 (2 ^ 31) ∅ = Halt (Undefined CounterOverflow) t' /\
    range_held (Writer 7) (0 / 1) (0 / 1 + (INT_MAX + 1)) t'.
Proof.
  apply (lock_overflows_int_counter 1 7 0 (2 ^ 31)).
  - split; [unfold U64.is_u64, U64.modulus; lia|reflexivity].
  - unfold accepted, U64.is_u64, U64.modulus; lia.
  - vm_compute. reflexivity.
Defined.

(** * with_lock when the operation returns *)

Lemma range_held_owns m lo hi t tid rs o l :
  constructed rs -> accepted o l -> region_count rs l <= INT_MAX ->
  lo = o / rs -> hi = o / rs + region_count rs l ->
  owns tid m = true ->
  range_held m lo hi t ->
  forall id, id ∈ region_ids rs o l -> owns_in t tid id.
Proof.
  intros Hc Ha Hn -> -> Hown Ht id Hid.
  apply (elem_of_region_ids rs o l id Hc Ha) in Hid.
  rewrite Z.min_l in Hid by lia.
  exists {| refcount := 1; mutex := m |}. split; [|exact Hown].
  rewrite (Ht id). now rewrite bool_decide_eq_true_2.
Qed.


